(** * json_generator: a shallow embedding of [json_generator.c]

    The generator appends JSON text fragments to a heap buffer that grows by
    [realloc].  The embedding keeps the C structure field by field, threads
    the machine state (the generator, the allocator's future decisions and
    the log of external calls) through a small state-and-fault monad, and
    reports what C leaves undefined (signed overflow, a store through a null
    pointer, a store outside the allocated block) as [Fault].

    The definitions come first: C strings and [snprintf], the structure and
    the machine, the functions of the source in their order, the calls as
    data, the invariant [holds] and the texts the specification expects.
    The lemmas follow: appends on a well-formed generator, start and
    finalization, emission with every allocation served ([emits]), what any
    call preserves ([moves]), well-formedness of every reachable generator,
    totality of the emissions ([returns]), the test of the repository, and
    the claims C1 to C10. *)

From Stdlib Require Import ZArith List String Ascii Bool Lia.
From Stdlib Require Import DecimalString.
From Stdlib Require Import Floats.SpecFloat.
From Stdlib Require NArith DecimalFacts DecimalPos DecimalZ.
Import ListNotations.
Local Open Scope Z_scope.

(* ------------------------------------------------------------------ *)
(** ** C strings and characters *)

Definition NUL : ascii := Ascii.zero.
Definition DQUOTE : ascii := ascii_of_nat 34.

Definition is_nul (c : ascii) : bool := Ascii.eqb c NUL.

(** The characters a [const char *] designates: everything before the first
    NUL of the memory it points to. *)
Fixpoint c_chars (s : string) : list ascii :=
  match s with
  | EmptyString => []
  | String c rest => if is_nul c then [] else c :: c_chars rest
  end.

(** [strlen] *)
Definition strlen (s : string) : Z := Z.of_nat (List.length (c_chars s)).

(** String literals of the source that contain a double quote. *)
Definition lit_quote : string := String DQUOTE EmptyString.
Definition lit_quote_colon : string := String DQUOTE ":".

(* ------------------------------------------------------------------ *)
(** ** Machine integers and constants *)

Definition INT_MAX : Z := 2147483647.
Definition INT_MIN : Z := -2147483648.

Definition MAX_INT_IN_STR : Z := 24.
Definition MAX_FLOAT_IN_STR : Z := 30.
Definition MEM_CHUNK_SIZE : Z := 250.

(** Modelled from the spec: [JSON_FLOAT_PRECISION] is defined in
    [json_generator.h], which is not part of the sources; the specification
    fixes the precision at 5 digits after the decimal point. *)
Definition JSON_FLOAT_PRECISION : Z := 5.

(** Width of [int], and of [long] (the LP64 data model, on which [int64_t]
    is [long] and the [%ld] conversion of [json_gen_set_int64] is exact). *)
Definition INT_BITS : Z := 32.
Definition LONG_BITS : Z := 64.

(** Value of a [w]-bit two's complement integer holding [z]. *)
Definition to_signed (w z : Z) : Z :=
  (z + 2 ^ (w - 1)) mod 2 ^ w - 2 ^ (w - 1).

Definition in_int (z : Z) : bool := (INT_MIN <=? z) && (z <=? INT_MAX).

(* ------------------------------------------------------------------ *)
(** ** [snprintf] for the conversions the source uses *)

(** Decimal text of an integer: a minus sign when negative, no padding. *)
Definition decimal (z : Z) : string := NilZero.string_of_int (Z.to_int z).

(** [snprintf(str, size, ...)] keeps at most [size - 1] characters. *)
Fixpoint truncate (n : nat) (s : string) : string :=
  match n, s with
  | O, _ => EmptyString
  | S _, EmptyString => EmptyString
  | S n', String c rest => String c (truncate n' rest)
  end.

Definition snprintf_size (size : Z) (s : string) : string :=
  truncate (Z.to_nat (size - 1)) s.

(** [snprintf(str, MAX_INT_IN_STR, "%d", val)] *)
Definition snprintf_d (val : Z) : string :=
  snprintf_size MAX_INT_IN_STR (decimal (to_signed INT_BITS val)).

(** [snprintf(str, MAX_INT_IN_STR, "%ld", val)] where [long] has
    [long_bits] bits. *)
Definition snprintf_ld (long_bits : Z) (val : Z) : string :=
  snprintf_size MAX_INT_IN_STR (decimal (to_signed long_bits val)).

(** Decimal text of a natural number on exactly [digits] digits (leading
    zeros), for the fraction of [%.*f]. *)
Fixpoint pad_zeros (n : nat) (s : string) : string :=
  match n with
  | O => s
  | S n' => pad_zeros n' (String "0" s)
  end.

Definition fixed_digits (digits : Z) (z : Z) : string :=
  let s := decimal z in
  pad_zeros (Z.to_nat digits - String.length s) s.

(** Round the rational [num / den] ([den > 0], [num >= 0]) to the nearest
    integer, ties to even: the rounding [printf] applies to the exact value
    of the binary number. *)
Definition round_half_even (num den : Z) : Z :=
  let q := num / den in
  let r := num mod den in
  if 2 * r <? den then q
  else if den <? 2 * r then q + 1
  else if Z.even q then q else q + 1.

(** The C [float] argument, promoted to [double] without change of value. *)
Definition float := spec_float.

Definition sign_text (neg : bool) : string := if neg then "-" else "".

(** [%.*f] with precision [prec] of a binary floating-point value. *)
Definition format_f (prec : Z) (val : float) : string :=
  match val with
  | S754_nan => "nan"
  | S754_infinity neg => sign_text neg ++ "inf"
  | S754_zero neg =>
      sign_text neg ++ "0" ++ (if 0 <? prec then "." ++ fixed_digits prec 0 else "")
  | S754_finite neg m e =>
      let scale := 10 ^ prec in
      let n := if 0 <=? e
               then Z.pos m * 2 ^ e * scale
               else round_half_even (Z.pos m * scale) (2 ^ (- e)) in
      sign_text neg ++ decimal (n / scale)
        ++ (if 0 <? prec then "." ++ fixed_digits prec (n mod scale) else "")
  end.

(** [snprintf(str, MAX_FLOAT_IN_STR, "%.*f", JSON_FLOAT_PRECISION, val)] *)
Definition snprintf_f (val : float) : string :=
  snprintf_size MAX_FLOAT_IN_STR (format_f JSON_FLOAT_PRECISION val).

(* ------------------------------------------------------------------ *)
(** ** The generator structure and the machine state *)

(** A character cell of heap memory; [None] is an indeterminate value, as
    [malloc] and the tail of a grown [realloc] block hold. *)
Abbreviation cell := (option ascii).
Abbreviation block := (list (option ascii)).

(** A function pointer ([json_gen_flush_cb_t]) and a [void *] are addresses. *)
Definition fnptr := Z.
Definition voidptr := Z.

(** [json_gen_str_t] (declared in [json_generator.h]; the fields are those
    the source reads and writes).  [buf] carries the block it points to,
    [None] being the null pointer; [free_ptr] is kept as the offset
    [free_ptr - buf] into that block. *)
Record json_gen_str_t : Type := mk_jstr {
  buf : option block;
  buf_size : Z;
  free_ptr : Z;
  total_len : Z;
  comma_req : bool;
  flush_cb : option fnptr;
  priv : voidptr
}.

(** [memset(jstr, 0, sizeof(json_gen_str_t))] *)
Definition zeroed : json_gen_str_t :=
  mk_jstr None 0 0 0 false None 0.

Definition set_buf (p : option block) (j : json_gen_str_t) :=
  mk_jstr p (buf_size j) (free_ptr j) (total_len j) (comma_req j) (flush_cb j) (priv j).
Definition set_buf_size (n : Z) (j : json_gen_str_t) :=
  mk_jstr (buf j) n (free_ptr j) (total_len j) (comma_req j) (flush_cb j) (priv j).
Definition set_free_ptr (n : Z) (j : json_gen_str_t) :=
  mk_jstr (buf j) (buf_size j) n (total_len j) (comma_req j) (flush_cb j) (priv j).
Definition set_total_len (n : Z) (j : json_gen_str_t) :=
  mk_jstr (buf j) (buf_size j) (free_ptr j) n (comma_req j) (flush_cb j) (priv j).
Definition set_comma_req (b : bool) (j : json_gen_str_t) :=
  mk_jstr (buf j) (buf_size j) (free_ptr j) (total_len j) b (flush_cb j) (priv j).
Definition set_flush_cb (f : option fnptr) (j : json_gen_str_t) :=
  mk_jstr (buf j) (buf_size j) (free_ptr j) (total_len j) (comma_req j) f (priv j).
Definition set_priv (p : voidptr) (j : json_gen_str_t) :=
  mk_jstr (buf j) (buf_size j) (free_ptr j) (total_len j) (comma_req j) (flush_cb j) p.

(** Calls that leave the library: the flush callback, with the memory its
    first argument points to and its second argument, and [free]. *)
Inductive event : Type :=
  | EvFlush (cb : fnptr) (mem : block) (ctx : voidptr)
  | EvFree (mem : block).

(** The machine: the generator the caller passes by pointer, the outcomes of
    the allocation requests still to come ([true]: the request is served; an
    exhausted list serves every request), and the external calls so far. *)
Record world : Type := mk_world {
  gen : json_gen_str_t;
  allocs : list bool;
  events : list event
}.

Inductive outcome (A : Type) : Type :=
  | Ok (a : A) (w : world)
  | Fault.
Arguments Ok {A} a w.
Arguments Fault {A}.

Definition M (A : Type) : Type := world -> outcome A.

Definition ret {A : Type} (a : A) : M A := fun w => Ok a w.

Definition bind {A B : Type} (m : M A) (k : A -> M B) : M B :=
  fun w => match m w with
           | Ok a w' => k a w'
           | Fault => Fault
           end.

Definition undefined {A : Type} : M A := fun _ => Fault.

Declare Scope gen_scope.
Delimit Scope gen_scope with gen.
Notation "x <- m ;; k" := (bind m (fun x => k))
  (at level 61, m at next level, right associativity) : gen_scope.
Notation "m ;; k" := (bind m (fun _ => k))
  (at level 61, right associativity) : gen_scope.
Local Open Scope gen_scope.

Definition load : M json_gen_str_t := fun w => Ok (gen w) w.

Definition modify (f : json_gen_str_t -> json_gen_str_t) : M unit :=
  fun w => Ok tt (mk_world (f (gen w)) (allocs w) (events w)).

Definition emit (e : event) : M unit :=
  fun w => Ok tt (mk_world (gen w) (allocs w) (events w ++ [e])).

(** The result of an [int] computation; leaving the range of [int] is
    outside what C defines. *)
Definition int_of (z : Z) : M Z :=
  if in_int z then ret z else undefined.

(** Whether the next allocation request is served. *)
Definition next_alloc : M bool :=
  fun w => match allocs w with
           | [] => Ok true w
           | b :: rest => Ok b (mk_world (gen w) rest (events w))
           end.

(** A block of [n] cells that starts with the cells of [old]. *)
Definition resize (n : nat) (old : block) : block :=
  firstn n old ++ repeat None (n - List.length old).

Definition malloc (size : Z) : M (option block) :=
  served <- next_alloc ;;
  ret (if served then Some (repeat None (Z.to_nat size)) else None).

(** [realloc(p, size)]; [realloc(NULL, size)] is [malloc(size)]. *)
Definition realloc (p : option block) (size : Z) : M (option block) :=
  served <- next_alloc ;;
  ret (if served
       then Some (resize (Z.to_nat size) (match p with Some b => b | None => [] end))
       else None).

(** Overwrite the cells of [b] from index [off] on with [cs]; [None] when
    some cell would lie outside the block. *)
Definition write_cells (off : Z) (cs : list ascii) (b : block) : option block :=
  if (0 <=? off) && (off + Z.of_nat (List.length cs) <=? Z.of_nat (List.length b))
  then Some (firstn (Z.to_nat off) b ++ map Some cs
               ++ skipn (Z.to_nat off + List.length cs) b)
  else None.

(** A store of characters through [jstr->buf + off]. *)
Definition store_chars (off : Z) (cs : list ascii) : M unit :=
  j <- load ;;
  match buf j with
  | None => undefined
  | Some b =>
      match write_cells off cs b with
      | None => undefined
      | Some b' => modify (set_buf (Some b'))
      end
  end.

(** [strcpy(jstr->buf + off, str)]: the characters and the terminator. *)
Definition strcpy (off : Z) (str : string) : M unit :=
  store_chars off (c_chars str ++ [NUL]).

(* ------------------------------------------------------------------ *)
(** ** The operations of [json_generator.c] *)

(** The tail of [json_gen_add_to_str], after the capacity check. *)
Definition add_the_string (str : string) (len : Z) : M Z :=
  j <- load ;;
  strcpy (free_ptr j) str ;;
  modify (fun j => set_free_ptr (free_ptr j + len) j) ;;
  j <- load ;;
  total <- int_of (total_len j + len) ;;
  modify (set_total_len total) ;;
  ret 0.

Definition json_gen_add_to_str (str : option string) : M Z :=
  match str with
  | None => ret 0
  | Some s =>
      len <- int_of (strlen s) ;;
      j <- load ;;
      required_len <- int_of (total_len j + len + 1) ;;
      if buf_size j <? required_len then
        new_size <- int_of (required_len + MEM_CHUNK_SIZE) ;;
        new_buf <- realloc (buf j) new_size ;;
        match new_buf with
        | None => ret (-1)
        | Some b =>
            modify (set_buf (Some b)) ;;
            modify (set_buf_size new_size) ;;
            modify (fun j => set_free_ptr (total_len j) j) ;;
            add_the_string s len
        end
      else add_the_string s len
  end.

Definition json_gen_str_start (cb : option fnptr) (p : voidptr) : M unit :=
  modify (fun _ => zeroed) ;;
  b <- malloc MEM_CHUNK_SIZE ;;
  modify (set_buf b) ;;
  modify (set_buf_size MEM_CHUNK_SIZE) ;;
  modify (set_flush_cb cb) ;;
  modify (set_free_ptr 0) ;;
  modify (set_priv p).

Definition is_set {A : Type} (o : option A) : bool :=
  match o with Some _ => true | None => false end.

(** The call [jstr->flush_cb(jstr->buf, jstr->priv)]: an external call,
    recorded with the memory and the context it is given; the callback is
    taken to read the buffer, not to write it. *)
Definition call_flush (cb : fnptr) : M unit :=
  j <- load ;;
  match buf j with
  | None => undefined
  | Some b => emit (EvFlush cb b (priv j))
  end.

Definition json_gen_str_end : M Z :=
  j <- load ;;
  (if is_set (buf j) && (total_len j <? buf_size j)
   then store_chars (total_len j) [NUL]
   else ret tt) ;;
  j <- load ;;
  let total := total_len j in
  (if is_set (buf j)
   then store_chars (free_ptr j) [NUL] ;;
        match flush_cb j with
        | Some cb => call_flush cb
        | None => ret tt
        end
   else ret tt) ;;
  int_of (total + 1).

Definition json_gen_get_json_string : M (option block) :=
  j <- load ;; ret (buf j).

(** The structure is cleared before [buf] is tested, as in the source. *)
Definition json_gen_free_buffer : M unit :=
  modify (fun _ => zeroed) ;;
  j <- load ;;
  match buf j with
  | Some b => emit (EvFree b) ;; modify (set_buf None)
  | None => ret tt
  end.

Definition json_gen_handle_comma : M unit :=
  j <- load ;;
  if comma_req j
  then json_gen_add_to_str (Some ","%string) ;; ret tt
  else ret tt.

Definition json_gen_handle_name (name : option string) : M Z :=
  json_gen_add_to_str (Some lit_quote) ;;
  json_gen_add_to_str name ;;
  json_gen_add_to_str (Some lit_quote_colon).

Definition json_gen_start_object : M Z :=
  json_gen_handle_comma ;;
  modify (set_comma_req false) ;;
  json_gen_add_to_str (Some "{"%string).

Definition json_gen_end_object : M Z :=
  modify (set_comma_req true) ;;
  json_gen_add_to_str (Some "}"%string).

Definition json_gen_start_array : M Z :=
  json_gen_handle_comma ;;
  modify (set_comma_req false) ;;
  json_gen_add_to_str (Some "["%string).

Definition json_gen_end_array : M Z :=
  modify (set_comma_req true) ;;
  json_gen_add_to_str (Some "]"%string).

Definition json_gen_push_object (name : option string) : M Z :=
  json_gen_handle_comma ;;
  json_gen_handle_name name ;;
  modify (set_comma_req false) ;;
  json_gen_add_to_str (Some "{"%string).

Definition json_gen_pop_object : M Z :=
  modify (set_comma_req true) ;;
  json_gen_add_to_str (Some "}"%string).

Definition json_gen_push_object_str (name object_str : option string) : M Z :=
  json_gen_handle_comma ;;
  json_gen_handle_name name ;;
  modify (set_comma_req true) ;;
  json_gen_add_to_str object_str.

Definition json_gen_push_array (name : option string) : M Z :=
  json_gen_handle_comma ;;
  json_gen_handle_name name ;;
  modify (set_comma_req false) ;;
  json_gen_add_to_str (Some "["%string).

Definition json_gen_pop_array : M Z :=
  modify (set_comma_req true) ;;
  json_gen_add_to_str (Some "]"%string).

Definition json_gen_push_array_str (name array_str : option string) : M Z :=
  json_gen_handle_comma ;;
  json_gen_handle_name name ;;
  modify (set_comma_req true) ;;
  json_gen_add_to_str array_str.

Definition json_gen_set_bool (val : bool) : M Z :=
  modify (set_comma_req true) ;;
  if val
  then json_gen_add_to_str (Some "true"%string)
  else json_gen_add_to_str (Some "false"%string).

Definition json_gen_obj_set_bool (name : option string) (val : bool) : M Z :=
  json_gen_handle_comma ;;
  json_gen_handle_name name ;;
  json_gen_set_bool val.

Definition json_gen_arr_set_bool (val : bool) : M Z :=
  json_gen_handle_comma ;;
  json_gen_set_bool val.

Definition json_gen_set_int (val : Z) : M Z :=
  modify (set_comma_req true) ;;
  let str := snprintf_d val in
  json_gen_add_to_str (Some str).

Definition json_gen_obj_set_int (name : option string) (val : Z) : M Z :=
  json_gen_handle_comma ;;
  json_gen_handle_name name ;;
  json_gen_set_int val.

Definition json_gen_arr_set_int (val : Z) : M Z :=
  json_gen_handle_comma ;;
  json_gen_set_int val.

Definition json_gen_set_int64 (val : Z) : M Z :=
  modify (set_comma_req true) ;;
  let str := snprintf_ld LONG_BITS (to_signed 64 val) in
  json_gen_add_to_str (Some str).

Definition json_gen_obj_set_int64 (name : option string) (val : Z) : M Z :=
  json_gen_handle_comma ;;
  json_gen_handle_name name ;;
  json_gen_set_int64 val.

Definition json_gen_arr_set_int64 (val : Z) : M Z :=
  json_gen_handle_comma ;;
  json_gen_set_int64 val.

Definition json_gen_set_float (val : float) : M Z :=
  modify (set_comma_req true) ;;
  let str := snprintf_f val in
  json_gen_add_to_str (Some str).

Definition json_gen_obj_set_float (name : option string) (val : float) : M Z :=
  json_gen_handle_comma ;;
  json_gen_handle_name name ;;
  json_gen_set_float val.

Definition json_gen_arr_set_float (val : float) : M Z :=
  json_gen_handle_comma ;;
  json_gen_set_float val.

Definition json_gen_set_string (val : option string) : M Z :=
  modify (set_comma_req true) ;;
  json_gen_add_to_str (Some lit_quote) ;;
  json_gen_add_to_str val ;;
  json_gen_add_to_str (Some lit_quote).

Definition json_gen_obj_set_string (name val : option string) : M Z :=
  json_gen_handle_comma ;;
  json_gen_handle_name name ;;
  json_gen_set_string val.

Definition json_gen_arr_set_string (val : option string) : M Z :=
  json_gen_handle_comma ;;
  json_gen_set_string val.

Definition json_gen_set_long_string (val : option string) : M Z :=
  modify (set_comma_req true) ;;
  json_gen_add_to_str (Some lit_quote) ;;
  json_gen_add_to_str val.

Definition json_gen_obj_start_long_string (name val : option string) : M Z :=
  json_gen_handle_comma ;;
  json_gen_handle_name name ;;
  json_gen_set_long_string val.

Definition json_gen_arr_start_long_string (val : option string) : M Z :=
  json_gen_handle_comma ;;
  json_gen_set_long_string val.

Definition json_gen_add_to_long_string (val : option string) : M Z :=
  json_gen_add_to_str val.

Definition json_gen_end_long_string : M Z :=
  json_gen_add_to_str (Some lit_quote).

Definition json_gen_set_null : M Z :=
  modify (set_comma_req true) ;;
  json_gen_add_to_str (Some "null"%string).

Definition json_gen_obj_set_null (name : option string) : M Z :=
  json_gen_handle_comma ;;
  json_gen_handle_name name ;;
  json_gen_set_null.

Definition json_gen_arr_set_null : M Z :=
  json_gen_handle_comma ;;
  json_gen_set_null.

(* ------------------------------------------------------------------ *)
(** ** The calls of the public interface, as data *)

(** The scalar encoders: the object-member and array-element form of each
    type, and the two forms that begin a long string. *)
Inductive scalar_op : Type :=
  | ObjSetBool (name : option string) (val : bool)
  | ArrSetBool (val : bool)
  | ObjSetInt (name : option string) (val : Z)
  | ArrSetInt (val : Z)
  | ObjSetInt64 (name : option string) (val : Z)
  | ArrSetInt64 (val : Z)
  | ObjSetFloat (name : option string) (val : float)
  | ArrSetFloat (val : float)
  | ObjSetString (name val : option string)
  | ArrSetString (val : option string)
  | ObjSetNull (name : option string)
  | ArrSetNull
  | ObjStartLongString (name val : option string)
  | ArrStartLongString (val : option string).

Inductive open_op : Type :=
  | StartObject
  | StartArray
  | PushObject (name : option string)
  | PushArray (name : option string).

Inductive close_op : Type :=
  | EndObject
  | EndArray
  | PopObject
  | PopArray.

Inductive raw_op : Type :=
  | PushObjectStr (name object_str : option string)
  | PushArrayStr (name array_str : option string).

(** A call that emits text. *)
Inductive emission : Type :=
  | Scalar (o : scalar_op)
  | Open (o : open_op)
  | Close (o : close_op)
  | Raw (o : raw_op)
  | AddToLongString (val : option string)
  | EndLongString.

Definition run_scalar (o : scalar_op) : M Z :=
  match o with
  | ObjSetBool name val => json_gen_obj_set_bool name val
  | ArrSetBool val => json_gen_arr_set_bool val
  | ObjSetInt name val => json_gen_obj_set_int name val
  | ArrSetInt val => json_gen_arr_set_int val
  | ObjSetInt64 name val => json_gen_obj_set_int64 name val
  | ArrSetInt64 val => json_gen_arr_set_int64 val
  | ObjSetFloat name val => json_gen_obj_set_float name val
  | ArrSetFloat val => json_gen_arr_set_float val
  | ObjSetString name val => json_gen_obj_set_string name val
  | ArrSetString val => json_gen_arr_set_string val
  | ObjSetNull name => json_gen_obj_set_null name
  | ArrSetNull => json_gen_arr_set_null
  | ObjStartLongString name val => json_gen_obj_start_long_string name val
  | ArrStartLongString val => json_gen_arr_start_long_string val
  end.

Definition run_open (o : open_op) : M Z :=
  match o with
  | StartObject => json_gen_start_object
  | StartArray => json_gen_start_array
  | PushObject name => json_gen_push_object name
  | PushArray name => json_gen_push_array name
  end.

Definition run_close (o : close_op) : M Z :=
  match o with
  | EndObject => json_gen_end_object
  | EndArray => json_gen_end_array
  | PopObject => json_gen_pop_object
  | PopArray => json_gen_pop_array
  end.

Definition run_raw (o : raw_op) : M Z :=
  match o with
  | PushObjectStr name s => json_gen_push_object_str name s
  | PushArrayStr name s => json_gen_push_array_str name s
  end.

Definition run_emission (e : emission) : M Z :=
  match e with
  | Scalar o => run_scalar o
  | Open o => run_open o
  | Close o => run_close o
  | Raw o => run_raw o
  | AddToLongString val => json_gen_add_to_long_string val
  | EndLongString => json_gen_end_long_string
  end.

(** A caller that issues the calls in order and ignores the results, as
    [json_gen_perform_test] of [test.c] does. *)
Fixpoint run_emissions (es : list emission) : M unit :=
  match es with
  | [] => ret tt
  | e :: rest => run_emission e ;; run_emissions rest
  end.

(** The states a caller can bring the generator to: [json_gen_str_start]
    with a callback and a context, then any emissions and finalizations that
    return. *)
Inductive reachable (cb : option fnptr) (p : voidptr) : world -> Prop :=
  | reach_start (w w' : world) :
      json_gen_str_start cb p w = Ok tt w' -> reachable cb p w'
  | reach_emit (w : world) (e : emission) (r : Z) (w' : world) :
      reachable cb p w -> run_emission e w = Ok r w' -> reachable cb p w'
  | reach_end (w : world) (r : Z) (w' : world) :
      reachable cb p w -> json_gen_str_end w = Ok r w' -> reachable cb p w'.

(* ------------------------------------------------------------------ *)
(** ** Reading the buffer *)

(** The string a reader of [char *] finds at the start of the block: the
    characters before the first NUL; [None] when the reader meets an
    indeterminate cell or leaves the block first. *)
Fixpoint c_string_at (b : block) : option (list ascii) :=
  match b with
  | [] => None
  | None :: _ => None
  | Some c :: rest =>
      if is_nul c then Some []
      else match c_string_at rest with
           | Some cs => Some (c :: cs)
           | None => None
           end
  end.

Definition text_of (o : option (list ascii)) : option string :=
  match o with
  | Some cs => Some (string_of_list_ascii cs)
  | None => None
  end.

(** The text a caller reads through [json_gen_get_json_string]. *)
Definition buffer_text (w : world) : option string :=
  match json_gen_get_json_string w with
  | Ok (Some b) _ => text_of (c_string_at b)
  | _ => None
  end.

(* ------------------------------------------------------------------ *)
(** ** Well-formed generators *)

Definition no_nul (cs : list ascii) : Prop := Forall (fun c => c <> NUL) cs.

(** [holds j txt]: the generator owns an allocated block of [buf_size j]
    cells that starts with the committed characters [txt], the write cursor
    and the committed length both stand right after them, and one cell at
    least is left. *)
Definition holds (j : json_gen_str_t) (txt : list ascii) : Prop :=
  exists rest : block,
    buf j = Some (map Some txt ++ rest) /\
    total_len j = Z.of_nat (List.length txt) /\
    free_ptr j = total_len j /\
    buf_size j = Z.of_nat (List.length txt + List.length rest) /\
    total_len j < buf_size j /\
    buf_size j <= INT_MAX /\
    no_nul txt.

(** Every allocation request to come is served. *)
Definition serving (w : world) : Prop := Forall (fun b => b = true) (allocs w).

Definition next_served (w : world) : bool :=
  match allocs w with
  | [] => true
  | b :: _ => b
  end.

(** The fields an append never touches. *)
Definition same_setup (w w' : world) : Prop :=
  comma_req (gen w') = comma_req (gen w) /\
  flush_cb (gen w') = flush_cb (gen w) /\
  priv (gen w') = priv (gen w) /\
  events w' = events w.


(* ------------------------------------------------------------------ *)
(** ** The text the specification expects *)

(** The characters of an argument; a null pointer contributes none. *)
Definition arg_chars (a : option string) : list ascii :=
  match a with
  | Some s => c_chars s
  | None => []
  end.

Definition COMMA : ascii := ascii_of_nat 44.

(** The separator rule: a comma when one is pending. *)
Definition separator (pending : bool) : list ascii :=
  if pending then [COMMA] else [].

(** A quoted key and its colon. *)
Definition name_text (name : option string) : list ascii :=
  DQUOTE :: arg_chars name ++ c_chars lit_quote_colon.

Definition bool_text (val : bool) : list ascii :=
  c_chars (if val then "true" else "false").

Definition quoted (val : option string) : list ascii :=
  DQUOTE :: arg_chars val ++ [DQUOTE].

Definition scalar_text (o : scalar_op) : list ascii :=
  match o with
  | ObjSetBool name val => name_text name ++ bool_text val
  | ArrSetBool val => bool_text val
  | ObjSetInt name val => name_text name ++ c_chars (snprintf_d val)
  | ArrSetInt val => c_chars (snprintf_d val)
  | ObjSetInt64 name val =>
      name_text name ++ c_chars (snprintf_ld LONG_BITS (to_signed 64 val))
  | ArrSetInt64 val => c_chars (snprintf_ld LONG_BITS (to_signed 64 val))
  | ObjSetFloat name val => name_text name ++ c_chars (snprintf_f val)
  | ArrSetFloat val => c_chars (snprintf_f val)
  | ObjSetString name val => name_text name ++ quoted val
  | ArrSetString val => quoted val
  | ObjSetNull name => name_text name ++ c_chars "null"
  | ArrSetNull => c_chars "null"
  | ObjStartLongString name val => name_text name ++ DQUOTE :: arg_chars val
  | ArrStartLongString val => DQUOTE :: arg_chars val
  end.

Definition open_text (o : open_op) : list ascii :=
  match o with
  | StartObject => c_chars "{"
  | StartArray => c_chars "["
  | PushObject name => name_text name ++ c_chars "{"
  | PushArray name => name_text name ++ c_chars "["
  end.

Definition close_text (o : close_op) : list ascii :=
  match o with
  | EndObject | PopObject => c_chars "}"
  | EndArray | PopArray => c_chars "]"
  end.

Definition raw_text (o : raw_op) : list ascii :=
  match o with
  | PushObjectStr name s => name_text name ++ arg_chars s
  | PushArrayStr name s => name_text name ++ arg_chars s
  end.

(** The text an emission appends behind the separator. *)
Definition emission_text (e : emission) : list ascii :=
  match e with
  | Scalar o => scalar_text o
  | Open o => open_text o
  | Close o => close_text o
  | Raw o => raw_text o
  | AddToLongString val => arg_chars val
  | EndLongString => [DQUOTE]
  end.

#[local] Set Warnings "-register-all".

(** One sibling of a container: a scalar value, a long string built from
    chunks, a raw fragment, or a complete container with its own children. *)
Inductive sibling : Type :=
  | Value (o : scalar_op)
  | LongValue (o : scalar_op) (chunks : list (option string))
  | Fragment (o : raw_op)
  | Container (o : open_op) (children : list sibling) (c : close_op).

(** The calls that emit a sibling. *)
Fixpoint calls (s : sibling) : list emission :=
  match s with
  | Value o => [Scalar o]
  | LongValue o chunks => Scalar o :: map AddToLongString chunks ++ [EndLongString]
  | Fragment o => [Raw o]
  | Container o children c => Open o :: flat_map calls children ++ [Close c]
  end.

(** Texts in a row: the first as it is, each later one behind a comma. *)
Definition separated (texts : list (list ascii)) : list ascii :=
  match texts with
  | [] => []
  | first :: rest => first ++ flat_map (fun t => COMMA :: t) rest
  end.

(** The text of a sibling, without the separator in front of it. *)
Fixpoint render (s : sibling) : list ascii :=
  match s with
  | Value o => scalar_text o
  | LongValue o chunks => scalar_text o ++ flat_map arg_chars chunks ++ [DQUOTE]
  | Fragment o => raw_text o
  | Container o children c =>
      open_text o ++ separated (map render children) ++ close_text c
  end.

(** The texts of a row of siblings, a comma before each. *)
Definition behind_commas (ss : list sibling) : list ascii :=
  flat_map (fun t => COMMA :: t) (map render ss).

(** A row of siblings emitted while a separator is pending or not. *)
Definition row (pending : bool) (ss : list sibling) : list ascii :=
  match ss with
  | [] => []
  | first :: rest => separator pending ++ render first ++ behind_commas rest
  end.

(* ------------------------------------------------------------------ *)
(** ** Predicates on computations *)

(** [emits m cin frag cout R]: from every well-formed machine whose
    allocations are all served and whose separator flag is [cin], [m] returns
    a value in [R], has committed exactly [frag] more, and leaves the flag at
    [cout]. *)
Definition emits {A : Type} (m : M A) (cin : bool) (frag : list ascii)
    (cout : bool) (R : A -> Prop) : Prop :=
  forall (w : world) (txt : list ascii),
    holds (gen w) txt ->
    serving w ->
    comma_req (gen w) = cin ->
    Z.of_nat (List.length txt) + Z.of_nat (List.length frag) + 1 + MEM_CHUNK_SIZE
      <= INT_MAX ->
    exists (a : A) (w' : world),
      m w = Ok a w' /\ R a /\
      holds (gen w') (txt ++ frag) /\
      serving w' /\
      comma_req (gen w') = cout /\
      flush_cb (gen w') = flush_cb (gen w) /\
      priv (gen w') = priv (gen w) /\
      events w' = events w.

(** Results of an operation: success, or anything. *)
Definition succeeded (r : Z) : Prop := r = 0.
Definition any {A : Type} (a : A) : Prop := True.

(** The separator flag after a step that sets it ([Some b]) or leaves it. *)
Definition flag_after (c : option bool) (before : bool) : bool :=
  match c with
  | Some b => b
  | None => before
  end.

Definition then_flag (c1 c2 : option bool) : option bool :=
  match c2 with
  | Some b => Some b
  | None => c1
  end.

(** [moves c m]: whenever [m] returns, the separator flag is [c] applied to
    its old value, the callback, the context and the log of external calls
    are the old ones, and a committed length below the capacity stays below
    it. *)
Definition moves {A : Type} (c : option bool) (m : M A) : Prop :=
  forall (w : world) (a : A) (w' : world),
    m w = Ok a w' ->
    comma_req (gen w') = flag_after c (comma_req (gen w)) /\
    flush_cb (gen w') = flush_cb (gen w) /\
    priv (gen w') = priv (gen w) /\
    events w' = events w /\
    (total_len (gen w) < buf_size (gen w) ->
     total_len (gen w') < buf_size (gen w')).

(** [answers m]: whenever [m] returns, it returns 0 or -1. *)
Definition answers (m : M Z) : Prop :=
  forall (w : world) (r : Z) (w' : world), m w = Ok r w' -> r = 0 \/ r = -1.

(** The flag an emission leaves. *)
Definition emission_flag (e : emission) : option bool :=
  match e with
  | Scalar _ | Close _ | Raw _ => Some true
  | Open _ => Some false
  | AddToLongString _ | EndLongString => None
  end.

(** The generator after a start whose [malloc] was refused: no block, the
    capacity field set all the same. *)
Definition unallocated (j : json_gen_str_t) : Prop :=
  buf j = None /\ total_len j = 0 /\ free_ptr j = 0 /\
  buf_size j = MEM_CHUNK_SIZE.

(** The two shapes a generator has between calls. *)
Definition sound (j : json_gen_str_t) : Prop :=
  (exists txt, holds j txt) \/ unallocated j.

(** [keeps_sound m]: whenever [m] returns from a sound generator, it leaves
    a sound one. *)
Definition keeps_sound {A : Type} (m : M A) : Prop :=
  forall (w : world) (a : A) (w' : world),
    sound (gen w) -> m w = Ok a w' -> sound (gen w').

(** [returns m n]: from every well-formed generator with room for [n] more
    characters below [INT_MAX], [m] returns, whether the allocator serves
    its requests or not, leaves the generator well-formed and has committed
    at most [n] characters. *)
Definition returns {A : Type} (m : M A) (n : nat) : Prop :=
  forall (w : world) (txt : list ascii),
    holds (gen w) txt ->
    Z.of_nat (List.length txt) + Z.of_nat n + 1 + MEM_CHUNK_SIZE <= INT_MAX ->
    exists (a : A) (w' : world) (txt' : list ascii),
      m w = Ok a w' /\
      holds (gen w') txt' /\
      (List.length txt <= List.length txt' <= List.length txt + n)%nat.

(* ------------------------------------------------------------------ *)
(** ** Finalization *)

(** The callback calls one finalization makes. *)
Definition flush_events (cb : option fnptr) (mem : list (option ascii))
    (ctx : voidptr) : list event :=
  match cb with
  | Some f => [EvFlush f mem ctx]
  | None => []
  end.

(** The block after the terminator is stored behind the text. *)
Definition terminated (txt : list ascii) (rest : list (option ascii))
    : list (option ascii) :=
  map Some txt ++ Some NUL :: tl rest.

(* ------------------------------------------------------------------ *)
(** ** The last append of an emission *)

(** What an emission does before its last call of [json_gen_add_to_str];
    the results of the appends made here are the ones the source drops. *)
Definition scalar_lead_in (o : scalar_op) : M unit :=
  match o with
  | ObjSetBool name _ | ObjSetInt name _ | ObjSetInt64 name _
  | ObjSetFloat name _ | ObjSetNull name =>
      json_gen_handle_comma ;; json_gen_handle_name name ;;
      modify (set_comma_req true)
  | ArrSetBool _ | ArrSetInt _ | ArrSetInt64 _ | ArrSetFloat _ | ArrSetNull =>
      json_gen_handle_comma ;; modify (set_comma_req true)
  | ObjSetString name val =>
      json_gen_handle_comma ;; json_gen_handle_name name ;;
      modify (set_comma_req true) ;;
      json_gen_add_to_str (Some lit_quote) ;;
      json_gen_add_to_str val ;; ret tt
  | ArrSetString val =>
      json_gen_handle_comma ;;
      modify (set_comma_req true) ;;
      json_gen_add_to_str (Some lit_quote) ;;
      json_gen_add_to_str val ;; ret tt
  | ObjStartLongString name _ =>
      json_gen_handle_comma ;; json_gen_handle_name name ;;
      modify (set_comma_req true) ;;
      json_gen_add_to_str (Some lit_quote) ;; ret tt
  | ArrStartLongString _ =>
      json_gen_handle_comma ;;
      modify (set_comma_req true) ;;
      json_gen_add_to_str (Some lit_quote) ;; ret tt
  end.

Definition lead_in (e : emission) : M unit :=
  match e with
  | Scalar o => scalar_lead_in o
  | Open StartObject | Open StartArray =>
      json_gen_handle_comma ;; modify (set_comma_req false)
  | Open (PushObject name) | Open (PushArray name) =>
      json_gen_handle_comma ;; json_gen_handle_name name ;;
      modify (set_comma_req false)
  | Close _ => modify (set_comma_req true)
  | Raw (PushObjectStr name _) | Raw (PushArrayStr name _) =>
      json_gen_handle_comma ;; json_gen_handle_name name ;;
      modify (set_comma_req true)
  | AddToLongString _ => ret tt
  | EndLongString => ret tt
  end.

(** The argument of the last call of [json_gen_add_to_str]. *)
Definition last_fragment (e : emission) : option string :=
  match e with
  | Scalar (ObjSetBool _ val) | Scalar (ArrSetBool val) =>
      Some (if val then "true" else "false")%string
  | Scalar (ObjSetInt _ val) | Scalar (ArrSetInt val) => Some (snprintf_d val)
  | Scalar (ObjSetInt64 _ val) | Scalar (ArrSetInt64 val) =>
      Some (snprintf_ld LONG_BITS (to_signed 64 val))
  | Scalar (ObjSetFloat _ val) | Scalar (ArrSetFloat val) => Some (snprintf_f val)
  | Scalar (ObjSetString _ _) | Scalar (ArrSetString _) => Some lit_quote
  | Scalar (ObjSetNull _) | Scalar ArrSetNull => Some "null"%string
  | Scalar (ObjStartLongString _ val) | Scalar (ArrStartLongString val) => val
  | Open StartObject | Open (PushObject _) => Some "{"%string
  | Open StartArray | Open (PushArray _) => Some "["%string
  | Close EndObject | Close PopObject => Some "}"%string
  | Close EndArray | Close PopArray => Some "]"%string
  | Raw (PushObjectStr _ s) | Raw (PushArrayStr _ s) => s
  | AddToLongString val => val
  | EndLongString => Some lit_quote
  end.

(* ------------------------------------------------------------------ *)
(** ** Test data *)

(** The machine a computation leaves ([w] itself when it faults). *)
Definition after {A : Type} (m : M A) (w : world) : world :=
  match m w with
  | Ok _ w' => w'
  | Fault => w
  end.

(** A text written with apostrophes where the JSON text has double quotes. *)
Fixpoint with_quotes (s : string) : string :=
  match s with
  | EmptyString => EmptyString
  | String c rest =>
      String (if Ascii.eqb c "'"%char then DQUOTE else c) (with_quotes rest)
  end.

(** A machine before [json_gen_str_start], every allocation served. *)
Definition boot : world := mk_world zeroed [] [].

(** The same machine when the heap serves the first request only. *)
Definition boot_tight : world := mk_world zeroed [true; false] [].

(** The machine after [json_gen_str_start] when every request is served,
    and when only the first one is. *)
Definition fresh : world := after (json_gen_str_start (Some 7) 9) boot.
Definition fresh_tight : world := after (json_gen_str_start (Some 7) 9) boot_tight.

(** The machine when the heap refuses the first request, and after
    [json_gen_str_start] with a callback and a context there. *)
Definition boot_refused : world := mk_world zeroed [false] [].

Definition fresh_refused : world :=
  after (json_gen_str_start (Some 7) 9) boot_refused.

(** The machine after [json_gen_str_start] and [json_gen_start_array] on
    [boot]. *)
Definition in_array : world :=
  after (json_gen_str_start None 0 ;; json_gen_start_array) boot.

(** An array just opened at the root, the heap refusing to grow the block. *)
Definition tight_array : world :=
  after (json_gen_str_start None 0 ;; json_gen_start_array) boot_tight.

(** A value of 300 characters, longer than the first block. *)
Definition long_value : string := string_of_list_ascii (repeat "x"%char 300).

(** A key of 243 characters: an object, this key and the bracket of its
    array fill 248 of the 250 cells of the first block. *)
Definition long_name : string := string_of_list_ascii (repeat "n"%char 243).

(** An array just opened under that key, the heap refusing to grow the
    block. *)
Definition tight_member : world :=
  after (json_gen_str_start None 0 ;; json_gen_start_object ;;
         json_gen_push_array (Some long_name)) boot_tight.

(** The calls of the end-to-end scenario, between start and finalize. *)
Definition scenario : list emission :=
  [ Open StartObject; Scalar (ObjSetBool (Some "a"%string) true);
    Open (PushArray (Some "b"%string)); Open StartArray;
    Scalar (ArrSetInt 1); Scalar (ArrSetInt 2); Scalar ArrSetNull;
    Close EndArray; Close PopArray; Close EndObject ].

(** The scenario as one container with its children. *)
Definition scenario_tree : sibling :=
  Container StartObject
    [ Value (ObjSetBool (Some "a"%string) true);
      Container (PushArray (Some "b"%string))
        [ Container StartArray
            [ Value (ArrSetInt 1); Value (ArrSetInt 2); Value ArrSetNull ]
            EndArray ]
        PopArray ]
    EndObject.

(** The text the scenario is claimed to give. *)
Definition scenario_claimed : string :=
  with_quotes "{'a':true,'b':[1,2,null]}".

(** The text the scenario gives. *)
Definition scenario_text : string :=
  with_quotes "{'a':true,'b':[[1,2,null]]}".

(** Three siblings of an array: a number, an object with one member, a
    string. *)
Definition three_siblings : list sibling :=
  [ Value (ArrSetInt 25);
    Container StartObject [ Value (ObjSetString (Some "k"%string) (Some "v"%string)) ]
      EndObject;
    Value (ArrSetString (Some "s"%string)) ].

(** The value of [test.c] for the 64-bit encoder. *)
Definition test_int64 : Z := -102030405060708090.
Definition test_int64_text : string := "-102030405060708090".

(** The binary32 values nearest to 54.1643 and 45.12. *)
Definition float_54_1643 : float := S754_finite false 14198846 (-18).
Definition float_45_12 : float := S754_finite false 11827937 (-18).

(** The calls of [json_gen_perform_test] in [test.c], between
    [json_gen_str_start] and [json_gen_str_end]. *)
Definition test_c_calls : list emission :=
  [ Open StartObject;
    Scalar (ObjSetBool (Some "first_bool"%string) true);
    Scalar (ObjSetInt (Some "first_int"%string) 30);
    Scalar (ObjSetInt64 (Some "first_int64"%string) (-102030405060708090));
    Scalar (ObjSetFloat (Some "float_val"%string) float_54_1643);
    Scalar (ObjSetString (Some "my_str"%string) (Some "new_name"%string));
    Scalar (ObjSetNull (Some "null_obj"%string));
    Open (PushArray (Some "arr"%string));
    Open StartArray;
    Scalar (ArrSetString (Some "arr_string"%string));
    Scalar (ArrSetBool false);
    Scalar (ArrSetFloat float_45_12);
    Scalar ArrSetNull;
    Scalar (ArrSetInt 25);
    Scalar (ArrSetInt64 908070605040302010);
    Open StartObject;
    Scalar (ObjSetString (Some "arr_obj_str"%string) (Some "sample"%string));
    Close EndObject;
    Close EndArray;
    Close PopArray;
    Open (PushObject (Some "my_obj"%string));
    Scalar (ObjSetInt (Some "only_val"%string) 5);
    Close PopObject;
    Close EndObject ].

(** [expected_str] of [test.c]. *)
Definition expected_str : string :=
  with_quotes
    ("{'first_bool':true,'first_int':30,"
     ++ "'first_int64':-102030405060708090,'float_val':54.16430,"
     ++ "'my_str':'new_name','null_obj':null,'arr':[['arr_string',"
     ++ "false,45.12000,null,25,908070605040302010,{'arr_obj_str':'sample'"
     ++ "}]],'my_obj':{'only_val':5}}")%string.

(** [json_gen_get_empty_len]; the pointer difference [free_ptr - buf] is
    the offset the embedding keeps. *)
Definition json_gen_get_empty_len : M Z :=
  j <- load ;;
  int_of (buf_size j - free_ptr j - 1).

(** [readable j txt]: the generator is well-formed and its block, read as a
    C string, is the committed text: a terminator stands right behind it. *)
Definition readable (j : json_gen_str_t) (txt : list ascii) : Prop :=
  holds j txt /\
  exists b : list (option ascii), buf j = Some b /\ c_string_at b = Some txt.

(** The machine [w] with another allocator. *)
Definition with_allocs (al : list bool) (w : world) : world :=
  mk_world (gen w) al (events w).

(** A fragment of 249 characters, the most a fresh block takes. *)
Definition fill_value : string := string_of_list_ascii (repeat "y"%char 249).

(** [extends m]: whenever [m] returns from a well-formed generator, the
    committed text is the old one with something behind it, the capacity has
    not shrunk, and a block that read as a terminated string still does. *)
Definition extends {A : Type} (m : M A) : Prop :=
  forall (w : world) (a : A) (w' : world) (txt : list ascii),
    holds (gen w) txt ->
    m w = Ok a w' ->
    exists more : list ascii,
      holds (gen w') (txt ++ more) /\
      buf_size (gen w) <= buf_size (gen w') /\
      (readable (gen w) txt -> readable (gen w') (txt ++ more)).

(** [grows m]: whenever [m] returns, from any machine, neither the capacity
    field nor the committed length is smaller than before. *)
Definition grows {A : Type} (m : M A) : Prop :=
  forall (w : world) (a : A) (w' : world),
    m w = Ok a w' ->
    buf_size (gen w) <= buf_size (gen w') /\
    total_len (gen w) <= total_len (gen w').

(** The emissions that apply the separator rule before their text. *)
Definition runs_separator (e : emission) : bool :=
  match e with
  | Scalar _ | Open _ | Raw _ => true
  | Close _ | AddToLongString _ | EndLongString => false
  end.

(** What one emission appends when [pending] is the separator flag. *)
Definition emission_output (pending : bool) (e : emission) : list ascii :=
  (if runs_separator e then separator pending else []) ++ emission_text e.

(** What a sequence of emissions appends, and the flag it leaves: each call
    sees the flag the one before it left. *)
Fixpoint transcript (pending : bool) (es : list emission) : list ascii :=
  match es with
  | [] => []
  | e :: rest =>
      emission_output pending e
        ++ transcript (flag_after (emission_flag e) pending) rest
  end.

Fixpoint final_flag (pending : bool) (es : list emission) : bool :=
  match es with
  | [] => pending
  | e :: rest => final_flag (flag_after (emission_flag e) pending) rest
  end.

(** A whole session: start, the emissions, finalization, and the pointer the
    accessor returns. *)
Definition session (cb : option fnptr) (p : voidptr) (es : list emission)
    : M (Z * option (list (option ascii))) :=
  json_gen_str_start cb p ;;
  run_emissions es ;;
  r <- json_gen_str_end ;;
  b <- json_gen_get_json_string ;;
  ret (r, b).

(** Calls no JSON document is made of: a close with nothing open, then two
    values at the root. *)
Definition stray_calls : list emission :=
  [ Close EndObject; Scalar ArrSetNull; Scalar (ArrSetBool true) ].

(** [stops m]: on a generator without a block, [m] stores through the null
    pointer. *)
Definition stops {A : Type} (m : M A) : Prop :=
  forall w : world, unallocated (gen w) -> m w = Fault.

(** [idles m]: on a generator without a block, [m] returns and leaves it
    without a block. *)
Definition idles {A : Type} (m : M A) : Prop :=
  forall w : world, unallocated (gen w) ->
    exists (a : A) (w' : world), m w = Ok a w' /\ unallocated (gen w').

(** The three steps of a long string: the begin with its first fragment,
    the chunks, the end. *)
Definition long_string_calls (name : option (option string))
    (first : option string) (chunks : list (option string)) : list emission :=
  Scalar (match name with
          | Some key => ObjStartLongString key first
          | None => ArrStartLongString first
          end)
    :: map AddToLongString chunks ++ [EndLongString].

(** The one call that writes a whole string. *)
Definition string_call (name : option (option string)) (val : option string)
    : emission :=
  Scalar (match name with
          | Some key => ObjSetString key val
          | None => ArrSetString val
          end).

(** The key of an object member, nothing for an array element. *)
Definition key_text (name : option (option string)) : list ascii :=
  match name with
  | Some key => name_text key
  | None => []
  end.

(** The calls that set a number: under a key in an object, or in an array. *)
Definition int_call (name : option (option string)) (val : Z) : scalar_op :=
  match name with
  | Some key => ObjSetInt key val
  | None => ArrSetInt val
  end.

Definition int64_call (name : option (option string)) (val : Z) : scalar_op :=
  match name with
  | Some key => ObjSetInt64 key val
  | None => ArrSetInt64 val
  end.

Definition float_call (name : option (option string)) (val : float) : scalar_op :=
  match name with
  | Some key => ObjSetFloat key val
  | None => ArrSetFloat val
  end.

(** The magnitude [m * 2 ^ e] of a finite binary number is below, or at
    least, an integer bound. *)
Definition magnitude_below (bound : Z) (m : positive) (e : Z) : bool :=
  if 0 <=? e then Z.pos m * 2 ^ e <? bound
  else Z.pos m <? bound * 2 ^ (- e).

(** The largest finite [float], [FLT_MAX]. *)
Definition flt_max : float := S754_finite false 16777215 104.

(** [fits m cin frag cout R]: from every well-formed machine whose block has
    room for [frag] and a terminator behind the committed text, and whose
    separator flag is [cin], [m] returns a value in [R], has committed
    exactly [frag] more, leaves the flag at [cout], and has made no request
    to the allocator: the block keeps its size, whatever the allocator would
    have answered. *)
Definition fits {A : Type} (m : M A) (cin : bool) (frag : list ascii)
    (cout : bool) (R : A -> Prop) : Prop :=
  forall (w : world) (txt : list ascii),
    holds (gen w) txt ->
    comma_req (gen w) = cin ->
    Z.of_nat (List.length txt) + Z.of_nat (List.length frag) + 1
      <= buf_size (gen w) ->
    exists (a : A) (w' : world),
      m w = Ok a w' /\ R a /\
      holds (gen w') (txt ++ frag) /\
      comma_req (gen w') = cout /\
      buf_size (gen w') = buf_size (gen w) /\
      allocs w' = allocs w /\
      flush_cb (gen w') = flush_cb (gen w) /\
      priv (gen w') = priv (gen w) /\
      events w' = events w.

(** [strcmp(s, p)] for a string [s] of the program and a pointer [p] to the
    start of a heap block: the difference of the first two characters that
    differ, 0 when both strings end together.  No result is defined
    ([None]) when the comparison meets an indeterminate cell or leaves the
    block. *)
Fixpoint strcmp (s : string) (mem : block) : option Z :=
  match mem with
  | [] => None
  | None :: _ => None
  | Some c :: mem' =>
      match s with
      | EmptyString => Some (0 - Z.of_nat (nat_of_ascii c))
      | String a s' =>
          if Ascii.eqb a c
          then if is_nul a then Some 0 else strcmp s' mem'
          else Some (Z.of_nat (nat_of_ascii a) - Z.of_nat (nat_of_ascii c))
      end
  end.

(** [json_gen_perform_test] of [test.c].  The structure is passed by value:
    the calls act on the callee's copy [jstr], and the caller's structure is
    untouched when the function returns.  The result is the [int] returned
    and the pointer stored through [result]. *)
Definition json_gen_perform_test (jstr : json_gen_str_t) (expected : string)
    : M (Z * option block) :=
  fun w =>
    match
      (json_gen_str_start None 0 ;;
       json_gen_start_object ;;
       json_gen_obj_set_bool (Some "first_bool"%string) true ;;
       json_gen_obj_set_int (Some "first_int"%string) 30 ;;
       json_gen_obj_set_int64 (Some "first_int64"%string) (-102030405060708090) ;;
       json_gen_obj_set_float (Some "float_val"%string) float_54_1643 ;;
       json_gen_obj_set_string (Some "my_str"%string) (Some "new_name"%string) ;;
       json_gen_obj_set_null (Some "null_obj"%string) ;;
       json_gen_push_array (Some "arr"%string) ;;
       json_gen_start_array ;;
       json_gen_arr_set_string (Some "arr_string"%string) ;;
       json_gen_arr_set_bool false ;;
       json_gen_arr_set_float float_45_12 ;;
       json_gen_arr_set_null ;;
       json_gen_arr_set_int 25 ;;
       json_gen_arr_set_int64 908070605040302010 ;;
       json_gen_start_object ;;
       json_gen_obj_set_string (Some "arr_obj_str"%string) (Some "sample"%string) ;;
       json_gen_end_object ;;
       json_gen_end_array ;;
       json_gen_pop_array ;;
       json_gen_push_object (Some "my_obj"%string) ;;
       json_gen_obj_set_int (Some "only_val"%string) 5 ;;
       json_gen_pop_object ;;
       json_gen_end_object ;;
       json_gen_str_end ;;
       json_gen_get_json_string) (mk_world jstr (allocs w) (events w))
    with
    | Fault => Fault
    | Ok result w' =>
        match result with
        | None => Fault
        | Some mem =>
            match strcmp expected mem with
            | None => Fault
            | Some d =>
                Ok (if d =? 0 then 0 else -1, result)
                   (mk_world (gen w) (allocs w') (events w'))
            end
        end
    end.

(* ------------------------------------------------------------------ *)
(** ** Basic facts *)

Lemma is_nul_false (c : ascii) : is_nul c = false -> c <> NUL.
Proof.
  unfold is_nul. intros H E. subst c. rewrite Ascii.eqb_refl in H. discriminate.
Qed.

Lemma c_chars_no_nul (s : string) : no_nul (c_chars s).
Proof.
  induction s as [|c rest IH]; simpl.
  - constructor.
  - destruct (is_nul c) eqn:E.
    + constructor.
    + constructor; [apply is_nul_false; exact E | exact IH].
Qed.

Lemma strlen_nonneg (s : string) : 0 <= strlen s.
Proof. unfold strlen. lia. Qed.

Lemma in_int_true (z : Z) : INT_MIN <= z <= INT_MAX -> in_int z = true.
Proof.
  intros [H1 H2]. unfold in_int.
  apply andb_true_intro. split; apply Z.leb_le; assumption.
Qed.

Lemma in_int_range (z : Z) : in_int z = true -> INT_MIN <= z <= INT_MAX.
Proof.
  unfold in_int. intros H. apply andb_prop in H. destruct H as [H1 H2].
  apply Z.leb_le in H1. apply Z.leb_le in H2. split; assumption.
Qed.

Lemma int_of_ok (z : Z) (w : world) :
  INT_MIN <= z <= INT_MAX -> int_of z w = Ok z w.
Proof. intros H. unfold int_of. rewrite (in_int_true z H). reflexivity. Qed.

Lemma int_of_inv (z : Z) (w : world) (r : Z) (w' : world) :
  int_of z w = Ok r w' -> r = z /\ w' = w /\ INT_MIN <= z <= INT_MAX.
Proof.
  unfold int_of. destruct (in_int z) eqn:E; [|discriminate].
  unfold ret. intros H. inversion H; subst.
  repeat split; apply in_int_range in E; lia.
Qed.

(** Inversion of a sequence that ran to its end. *)
Lemma bind_inv {A B : Type} (m : M A) (k : A -> M B) (w : world) (b : B) (w' : world) :
  bind m k w = Ok b w' -> exists a w1, m w = Ok a w1 /\ k a w1 = Ok b w'.
Proof.
  unfold bind. destruct (m w) as [a w1|]; [|discriminate].
  intros H. exists a, w1. split; [reflexivity | exact H].
Qed.

Lemma write_cells_append (txt cs : list ascii) (rest : block) :
  (List.length cs <= List.length rest)%nat ->
  write_cells (Z.of_nat (List.length txt)) cs (map Some txt ++ rest)
  = Some (map Some (txt ++ cs) ++ skipn (List.length cs) rest).
Proof.
  intros Hlen. unfold write_cells.
  rewrite length_app, length_map.
  match goal with |- context [if ?c then _ else _] => destruct c eqn:E end.
  2:{ apply andb_false_iff in E. destruct E as [E|E]; apply Z.leb_gt in E; lia. }
  rewrite Nat2Z.id. f_equal.
  rewrite firstn_app, length_map, Nat.sub_diag, firstn_O, app_nil_r.
  rewrite firstn_all2 by (rewrite length_map; lia).
  rewrite skipn_app, length_map.
  rewrite (skipn_all2 (map Some txt)) by (rewrite length_map; lia).
  replace (List.length txt + List.length cs - List.length txt)%nat
    with (List.length cs) by lia.
  simpl.
  rewrite map_app, <- app_assoc. reflexivity.
Qed.

Lemma no_nul_app (a b : list ascii) : no_nul a -> no_nul b -> no_nul (a ++ b).
Proof. unfold no_nul. intros Ha Hb. apply Forall_app. split; assumption. Qed.

Lemma resize_grow (n : nat) (b : list (option ascii)) :
  (List.length b <= n)%nat -> resize n b = b ++ repeat None (n - List.length b).
Proof.
  intros H. unfold resize. rewrite firstn_all2 by lia. reflexivity.
Qed.

(* ------------------------------------------------------------------ *)
(** ** Appends on a well-formed generator *)

Lemma holds_range (j : json_gen_str_t) (txt : list ascii) :
  holds j txt ->
  total_len j = Z.of_nat (List.length txt) /\ 0 <= total_len j < buf_size j /\
  buf_size j <= INT_MAX.
Proof.
  intros (rest & Hb & Htl & Hfp & Hbs & Hlt & Hmax & Hnn). lia.
Qed.

Lemma holds_prefix (j : json_gen_str_t) (txt more : list ascii) :
  holds j (txt ++ more) ->
  exists b : list (option ascii),
    buf j = Some b /\
    Z.of_nat (List.length b) = buf_size j /\
    firstn (List.length txt) b = map Some txt.
Proof.
  intros (rest & Hb & Htl & Hfp & Hbs & Hlt & Hmax & Hnn).
  exists (map Some (txt ++ more) ++ rest). split; [exact Hb|]. split.
  - rewrite Hbs, length_app, length_map. reflexivity.
  - rewrite map_app, <- app_assoc.
    rewrite firstn_app, length_map, Nat.sub_diag, firstn_O, app_nil_r.
    apply firstn_all2. rewrite length_map. lia.
Qed.

(** The copy of [add_the_string] when the block has room: the fragment is
    committed after the text, nothing else moves. *)
Lemma add_the_string_holds (w : world) (txt : list ascii) (s : string) :
  holds (gen w) txt ->
  Z.of_nat (List.length txt) + strlen s + 1 <= buf_size (gen w) ->
  exists w',
    add_the_string s (strlen s) w = Ok 0 w' /\
    holds (gen w') (txt ++ c_chars s) /\
    buf_size (gen w') = buf_size (gen w) /\
    same_setup w w' /\
    allocs w' = allocs w.
Proof.
  destruct w as [[b bs fp tl cr cb pv] al ev]. simpl.
  intros (rest & Hb & Htl & Hfp & Hbs & Hlt & Hmax & Hnn) Hroom.
  simpl in *. subst b tl fp.
  assert (Hlen : (List.length (c_chars s ++ [NUL]) <= List.length rest)%nat).
  { rewrite length_app. simpl. unfold strlen in Hroom. lia. }
  unfold add_the_string, strcpy, store_chars, bind, load, modify. simpl.
  rewrite (write_cells_append txt (c_chars s ++ [NUL]) rest Hlen). simpl.
  rewrite int_of_ok by (unfold strlen, INT_MIN in *; lia).
  eexists. split; [reflexivity|]. simpl.
  split; [|split; [reflexivity|split; [repeat split|reflexivity]]].
  exists (Some NUL :: skipn (List.length (c_chars s ++ [NUL])) rest).
  simpl.
  repeat split;
    try (rewrite ?length_app, ?length_skipn in *; simpl in *;
         unfold strlen in *; lia).
  all: try (apply no_nul_app; [assumption | apply c_chars_no_nul]).
  all: rewrite ?map_app, <- ?app_assoc; reflexivity.
Qed.

(** An append that fits the current block. *)
Lemma add_to_str_room (w : world) (txt : list ascii) (s : string) :
  holds (gen w) txt ->
  total_len (gen w) + strlen s + 1 <= buf_size (gen w) ->
  exists w',
    json_gen_add_to_str (Some s) w = Ok 0 w' /\
    holds (gen w') (txt ++ c_chars s) /\
    buf_size (gen w') = buf_size (gen w) /\
    same_setup w w' /\
    allocs w' = allocs w.
Proof.
  intros Hh Hroom.
  destruct (holds_range _ _ Hh) as (Htl & Hr & Hmax).
  pose proof (strlen_nonneg s) as Hs.
  unfold json_gen_add_to_str, bind at 1.
  rewrite int_of_ok by (unfold INT_MIN, MEM_CHUNK_SIZE in *; lia).
  unfold bind at 1. unfold load at 1. unfold bind at 1.
  rewrite int_of_ok by (unfold INT_MIN, MEM_CHUNK_SIZE in *; lia).
  replace (buf_size (gen w) <? total_len (gen w) + strlen s + 1) with false
    by (symmetry; apply Z.ltb_ge; lia).
  apply add_the_string_holds; [assumption | lia].
Qed.

(** An append that needs a larger block, the request being served. *)
Lemma add_to_str_grow (w : world) (txt : list ascii) (s : string) :
  holds (gen w) txt ->
  buf_size (gen w) < total_len (gen w) + strlen s + 1 ->
  total_len (gen w) + strlen s + 1 + MEM_CHUNK_SIZE <= INT_MAX ->
  next_served w = true ->
  exists w',
    json_gen_add_to_str (Some s) w = Ok 0 w' /\
    holds (gen w') (txt ++ c_chars s) /\
    buf_size (gen w') = total_len (gen w) + strlen s + 1 + MEM_CHUNK_SIZE /\
    same_setup w w' /\
    allocs w' = tl (allocs w).
Proof.
  intros Hh Hneed Hmaxn Hserved.
  destruct (holds_range _ _ Hh) as (Htl & Hr & Hmax).
  pose proof (strlen_nonneg s) as Hs.
  unfold json_gen_add_to_str, bind at 1.
  rewrite int_of_ok by (unfold INT_MIN, MEM_CHUNK_SIZE in *; lia).
  unfold bind at 1. unfold load at 1. unfold bind at 1.
  rewrite int_of_ok by (unfold INT_MIN, MEM_CHUNK_SIZE in *; lia).
  replace (buf_size (gen w) <? total_len (gen w) + strlen s + 1) with true
    by (symmetry; apply Z.ltb_lt; lia).
  unfold bind at 1.
  rewrite int_of_ok by (unfold INT_MIN, MEM_CHUNK_SIZE in *; lia).
  set (n := total_len (gen w) + strlen s + 1 + MEM_CHUNK_SIZE) in *.
  destruct Hh as (rest & Hb & _ & Hfp & Hbs & Hlt & _ & Hnn).
  set (w1 := mk_world
               (set_free_ptr (total_len (gen w))
                  (set_buf_size n
                     (set_buf (Some (map Some txt
                                       ++ (rest ++ repeat None
                                             (Z.to_nat n - List.length (map Some txt ++ rest)))))
                        (gen w))))
               (tl (allocs w)) (events w)).
  assert (Hw1 : holds (gen w1) txt).
  { exists (rest ++ repeat None (Z.to_nat n - List.length (map Some txt ++ rest))).
    unfold w1. simpl.
    repeat split; auto;
      rewrite ?length_app, ?repeat_length, ?length_map;
      unfold n, MEM_CHUNK_SIZE in *; lia. }
  destruct (add_the_string_holds w1 txt s Hw1) as (w' & Hrun & Hh' & Hbs' & Hset & Hal).
  { unfold w1. simpl. unfold n, MEM_CHUNK_SIZE in *. lia. }
  exists w'.
  split.
  - rewrite <- Hrun.
    unfold realloc, next_alloc, bind, ret, modify. cbv beta. rewrite Hb.
    unfold next_served in Hserved.
    rewrite resize_grow
      by (rewrite length_app, length_map; unfold n, MEM_CHUNK_SIZE in *; lia).
    rewrite <- app_assoc.
    subst w1. destruct w as [g [|d al] ev]; simpl in *; [|subst d]; reflexivity.
  - repeat split; auto; apply Hset.
Qed.

(** An append that needs a larger block, the request being refused. *)
Lemma add_to_str_refused (w : world) (txt : list ascii) (s : string) :
  holds (gen w) txt ->
  buf_size (gen w) < total_len (gen w) + strlen s + 1 ->
  total_len (gen w) + strlen s + 1 + MEM_CHUNK_SIZE <= INT_MAX ->
  next_served w = false ->
  exists w',
    json_gen_add_to_str (Some s) w = Ok (-1) w' /\
    gen w' = gen w /\
    events w' = events w /\
    allocs w' = tl (allocs w).
Proof.
  intros Hh Hneed Hmaxn Hserved.
  destruct (holds_range _ _ Hh) as (Htl & Hr & Hmax).
  pose proof (strlen_nonneg s) as Hs.
  unfold json_gen_add_to_str, bind at 1.
  rewrite int_of_ok by (unfold INT_MIN, MEM_CHUNK_SIZE in *; lia).
  unfold bind at 1. unfold load at 1. unfold bind at 1.
  rewrite int_of_ok by (unfold INT_MIN, MEM_CHUNK_SIZE in *; lia).
  replace (buf_size (gen w) <? total_len (gen w) + strlen s + 1) with true
    by (symmetry; apply Z.ltb_lt; lia).
  unfold bind at 1.
  rewrite int_of_ok by (unfold INT_MIN, MEM_CHUNK_SIZE in *; lia).
  unfold realloc, next_alloc, bind, ret. cbv beta.
  unfold next_served in Hserved.
  destruct (allocs w) as [|d al]; [discriminate|]. subst d. simpl.
  eexists. split; [reflexivity|]. simpl. auto.
Qed.

Lemma serving_tl (w w' : world) :
  serving w -> allocs w' = tl (allocs w) -> serving w'.
Proof.
  unfold serving. intros H E. rewrite E.
  destruct (allocs w) as [|d al]; simpl; [constructor|].
  inversion H; assumption.
Qed.

Lemma serving_next (w : world) : serving w -> next_served w = true.
Proof.
  unfold serving, next_served. destruct (allocs w) as [|d al]; [reflexivity|].
  intros H. inversion H; assumption.
Qed.

(** With every request served, an append commits its fragment. *)
Lemma add_to_str_serving (w : world) (txt : list ascii) (s : string) :
  holds (gen w) txt ->
  serving w ->
  Z.of_nat (List.length txt) + strlen s + 1 + MEM_CHUNK_SIZE <= INT_MAX ->
  exists w',
    json_gen_add_to_str (Some s) w = Ok 0 w' /\
    holds (gen w') (txt ++ c_chars s) /\
    serving w' /\
    same_setup w w'.
Proof.
  intros Hh Hsv Hmax.
  destruct (holds_range _ _ Hh) as (Htl & Hr & _).
  destruct (Z_lt_le_dec (buf_size (gen w)) (total_len (gen w) + strlen s + 1))
    as [Hneed|Hroom].
  - destruct (add_to_str_grow w txt s Hh Hneed) as (w' & Hrun & Hh' & _ & Hset & Hal).
    + lia.
    + apply serving_next; assumption.
    + exists w'. repeat split; auto; try apply Hset.
      eapply serving_tl; eassumption.
  - destruct (add_to_str_room w txt s Hh Hroom) as (w' & Hrun & Hh' & _ & Hset & Hal).
    exists w'. repeat split; auto; try apply Hset.
    unfold serving in *. rewrite Hal. assumption.
Qed.

(* ------------------------------------------------------------------ *)
(** ** What an append that returns leaves behind *)

Lemma add_the_string_inv (s : string) (len : Z) (w : world) (r : Z) (w' : world) :
  add_the_string s len w = Ok r w' ->
  r = 0 /\ same_setup w w' /\ allocs w' = allocs w /\
  buf_size (gen w') = buf_size (gen w) /\
  total_len (gen w') = total_len (gen w) + len /\
  is_set (buf (gen w')) = true.
Proof.
  destruct w as [[b bs fp tl cr cb pv] al ev].
  unfold add_the_string, strcpy, store_chars, bind, load, modify, int_of, ret, undefined.
  simpl.
  destruct b as [b|]; [|discriminate].
  destruct (write_cells fp (c_chars s ++ [NUL]) b) as [b'|]; [|discriminate].
  simpl. destruct (in_int (tl + len)); [|discriminate].
  intros H. inversion H; subst. simpl. repeat split.
Qed.

(** What any append that returns leaves behind: the setup is untouched, the
    result is 0 or -1, a refused append changes nothing of the generator,
    and the committed length stays below the capacity. *)
Lemma add_to_str_inv (str : option string) (w : world) (r : Z) (w' : world) :
  json_gen_add_to_str str w = Ok r w' ->
  same_setup w w' /\
  (r = 0 \/ r = -1) /\
  (r = -1 -> gen w' = gen w) /\
  (total_len (gen w) < buf_size (gen w) -> total_len (gen w') < buf_size (gen w')).
Proof.
  destruct str as [s|]; simpl.
  2:{ unfold ret. intros H. inversion H; subst. repeat split; auto. }
  intros H.
  apply bind_inv in H. destruct H as (len & w1 & Hlen & H).
  apply int_of_inv in Hlen. destruct Hlen as (-> & -> & Hr1).
  apply bind_inv in H. destruct H as (j & w1 & Hj & H).
  unfold load in Hj. inversion Hj; subst j w1. clear Hj.
  apply bind_inv in H. destruct H as (req & w1 & Hreq & H).
  apply int_of_inv in Hreq. destruct Hreq as (-> & -> & Hr2).
  destruct (buf_size (gen w) <? total_len (gen w) + strlen s + 1) eqn:Hcmp.
  - apply bind_inv in H. destruct H as (nsz & w1 & Hn & H).
    apply int_of_inv in Hn. destruct Hn as (-> & -> & Hr3).
    apply bind_inv in H. destruct H as (nb & w1 & Hre & H).
    unfold realloc, bind, next_alloc, ret in Hre.
    destruct nb as [nb|].
    + apply bind_inv in H. destruct H as (u1 & w2 & H1 & H).
      apply bind_inv in H. destruct H as (u2 & w3 & H2 & H).
      apply bind_inv in H. destruct H as (u3 & w4 & H3 & H).
      unfold modify in H1, H2, H3. inversion H1; inversion H2; inversion H3; subst.
      clear H1 H2 H3.
      apply add_the_string_inv in H.
      destruct H as (-> & (Hc & Hf & Hp & He) & Ha & Hbs & Htl & _).
      simpl in *.
      assert (Hw1 : gen w1 = gen w /\ events w1 = events w).
      { destruct (allocs w) as [|d rest]; [|destruct d]; inversion Hre; subst; simpl; auto. }
      destruct Hw1 as [Hg Hev]. rewrite Hg in *. rewrite Hev in *.
      repeat split; auto; try (intros; discriminate);
        intros; unfold MEM_CHUNK_SIZE in *; lia.
    + unfold ret in H. inversion H; subst.
      assert (Hw1 : gen w' = gen w /\ events w' = events w).
      { destruct (allocs w) as [|d rest]; [|destruct d]; inversion Hre; subst; simpl; auto. }
      destruct Hw1 as [Hg Hev]. unfold same_setup. rewrite Hg, Hev.
      repeat split; auto.
  - apply add_the_string_inv in H.
    destruct H as (-> & Hs & Ha & Hbs & Htl & _).
    apply Z.ltb_ge in Hcmp.
    repeat split; auto; try apply Hs; try (intros; discriminate); intros; lia.
Qed.

Lemma add_the_string_null (s : string) (len : Z) (w : world) :
  buf (gen w) = None -> add_the_string s len w = Fault.
Proof.
  intros Hb. unfold add_the_string, strcpy, store_chars.
  unfold bind, load. rewrite Hb. reflexivity.
Qed.

Lemma realloc_inv (p : option (list (option ascii))) (size : Z) (w : world)
    (nb : option (list (option ascii))) (w1 : world) :
  realloc p size w = Ok nb w1 ->
  gen w1 = gen w /\ events w1 = events w /\ allocs w1 = tl (allocs w) /\
  nb = (if next_served w
        then Some (resize (Z.to_nat size) (match p with Some b => b | None => [] end))
        else None).
Proof.
  unfold realloc, bind, next_alloc, ret, next_served.
  destruct (allocs w) as [|d al] eqn:E; intros H; inversion H; subst; simpl;
    repeat split; rewrite ?E; reflexivity.
Qed.

(* ------------------------------------------------------------------ *)
(** ** Start and finalization *)

(** [json_gen_str_start] always returns; the state it leaves. *)
Lemma str_start_runs (cb : option fnptr) (p : voidptr) (w : world) :
  exists w',
    json_gen_str_start cb p w = Ok tt w' /\
    comma_req (gen w') = false /\
    total_len (gen w') = 0 /\
    free_ptr (gen w') = 0 /\
    buf_size (gen w') = MEM_CHUNK_SIZE /\
    flush_cb (gen w') = cb /\
    priv (gen w') = p /\
    events w' = events w /\
    allocs w' = tl (allocs w) /\
    buf (gen w') = (if next_served w
                    then Some (repeat None (Z.to_nat MEM_CHUNK_SIZE))
                    else None).
Proof.
  destruct w as [g [|d al] ev]; [|destruct d];
    (eexists; split; [reflexivity|]); simpl; repeat split.
Qed.

(** A freshly started generator whose first block was allocated. *)
Lemma str_start_holds (cb : option fnptr) (p : voidptr) (w : world) :
  next_served w = true ->
  exists w',
    json_gen_str_start cb p w = Ok tt w' /\
    holds (gen w') [] /\
    comma_req (gen w') = false /\
    flush_cb (gen w') = cb /\
    priv (gen w') = p /\
    events w' = events w /\
    allocs w' = tl (allocs w).
Proof.
  intros Hs.
  destruct (str_start_runs cb p w)
    as (w' & Hrun & Hc & Htl & Hfp & Hbs & Hf & Hp & He & Ha & Hb).
  rewrite Hs in Hb.
  exists w'. repeat split; auto.
  exists (repeat None (Z.to_nat MEM_CHUNK_SIZE)). simpl.
  rewrite Hb, Htl, Hfp, Hbs. unfold MEM_CHUNK_SIZE, INT_MAX.
  repeat split; try reflexivity; try lia. constructor.
Qed.

Lemma c_string_at_terminated (txt : list ascii) (rest : list (option ascii)) :
  no_nul txt -> c_string_at (terminated txt rest) = Some txt.
Proof.
  unfold terminated. induction 1 as [|c cs Hc Hcs IH]; simpl.
  - reflexivity.
  - destruct (is_nul c) eqn:E.
    + exfalso. apply Hc. unfold is_nul in E.
      apply Ascii.eqb_eq in E. exact E.
    + rewrite IH. reflexivity.
Qed.

Lemma write_terminator (txt : list ascii) (rest : list (option ascii)) :
  rest <> [] ->
  write_cells (Z.of_nat (List.length txt)) [NUL] (map Some txt ++ rest)
  = Some (terminated txt rest).
Proof.
  intros Hne. rewrite write_cells_append.
  - unfold terminated. rewrite map_app, <- app_assoc. simpl.
    destruct rest; [contradiction|reflexivity].
  - destruct rest; [contradiction|simpl; lia].
Qed.

Lemma terminated_again (txt : list ascii) (rest : list (option ascii)) :
  terminated txt (Some NUL :: tl rest) = terminated txt rest.
Proof. reflexivity. Qed.

(** Finalization of a well-formed generator, in full. *)
Lemma str_end_layout (w : world) (txt : list ascii) (rest : list (option ascii)) :
  buf (gen w) = Some (map Some txt ++ rest) ->
  total_len (gen w) = Z.of_nat (List.length txt) ->
  free_ptr (gen w) = total_len (gen w) ->
  total_len (gen w) < buf_size (gen w) ->
  buf_size (gen w) = Z.of_nat (List.length txt + List.length rest) ->
  buf_size (gen w) <= INT_MAX ->
  json_gen_str_end w
  = Ok (total_len (gen w) + 1)
       (mk_world (set_buf (Some (terminated txt rest)) (gen w)) (allocs w)
          (events w ++ flush_events (flush_cb (gen w)) (terminated txt rest)
                         (priv (gen w)))).
Proof.
  destruct w as [[b bs fp tl cr cb pv] al ev]. simpl.
  intros -> -> -> Hlt Hbs Hmax.
  assert (Hne : rest <> []).
  { intros ->. simpl in Hbs. lia. }
  unfold json_gen_str_end, store_chars, call_flush.
  unfold bind, load, modify, emit, ret. simpl.
  replace (Z.of_nat (List.length txt) <? bs) with true
    by (symmetry; apply Z.ltb_lt; exact Hlt).
  simpl. rewrite (write_terminator txt rest Hne). simpl.
  unfold terminated at 1.
  change (map Some txt ++ Some NUL :: List.tl rest)
    with (map Some txt ++ (Some NUL :: List.tl rest)).
  rewrite (write_terminator txt (Some NUL :: List.tl rest)) by discriminate.
  rewrite terminated_again.
  assert (Hin : in_int (Z.of_nat (List.length txt) + 1) = true)
    by (apply in_int_true; unfold INT_MIN; lia).
  destruct cb as [f|]; simpl; unfold int_of; rewrite Hin;
    rewrite ?app_nil_r; reflexivity.
Qed.

Lemma holds_terminated (j : json_gen_str_t) (txt : list ascii)
    (rest : list (option ascii)) :
  buf j = Some (map Some txt ++ rest) ->
  holds j txt ->
  holds (set_buf (Some (terminated txt rest)) j) txt.
Proof.
  intros Hb (rest' & Hb' & Htl & Hfp & Hbs & Hlt & Hmax & Hnn).
  rewrite Hb in Hb'. inversion Hb' as [E]. apply app_inv_head in E. subst rest'.
  exists (Some NUL :: List.tl rest). simpl.
  repeat split; auto.
  destruct rest as [|c rest]; simpl in *; lia.
Qed.

Lemma nth_error_terminated (txt : list ascii) (rest : list (option ascii)) :
  nth_error (terminated txt rest) (List.length txt) = Some (Some NUL).
Proof.
  unfold terminated. rewrite nth_error_app2 by (rewrite length_map; lia).
  rewrite length_map, Nat.sub_diag. reflexivity.
Qed.

Lemma firstn_terminated (txt : list ascii) (rest : list (option ascii)) :
  firstn (List.length txt) (terminated txt rest) = map Some txt.
Proof.
  unfold terminated.
  rewrite firstn_app, length_map, Nat.sub_diag, firstn_O, app_nil_r.
  apply firstn_all2. rewrite length_map. lia.
Qed.

(** Finalization of a well-formed generator: the result, the state and the
    text a reader finds. *)
Lemma str_end_holds (w : world) (txt : list ascii) :
  holds (gen w) txt ->
  exists b' : list (option ascii),
    json_gen_str_end w
    = Ok (Z.of_nat (List.length txt) + 1)
         (mk_world (set_buf (Some b') (gen w)) (allocs w)
            (events w ++ flush_events (flush_cb (gen w)) b' (priv (gen w)))) /\
    holds (set_buf (Some b') (gen w)) txt /\
    c_string_at b' = Some txt /\
    nth_error b' (List.length txt) = Some (Some NUL) /\
    firstn (List.length txt) b' = map Some txt /\
    json_gen_str_end
      (mk_world (set_buf (Some b') (gen w)) (allocs w)
         (events w ++ flush_events (flush_cb (gen w)) b' (priv (gen w))))
    = Ok (Z.of_nat (List.length txt) + 1)
         (mk_world (set_buf (Some b') (gen w)) (allocs w)
            ((events w ++ flush_events (flush_cb (gen w)) b' (priv (gen w)))
               ++ flush_events (flush_cb (gen w)) b' (priv (gen w)))).
Proof.
  intros Hh. pose proof Hh as (rest & Hb & Htl & Hfp & Hbs & Hlt & Hmax & Hnn).
  exists (terminated txt rest).
  rewrite (str_end_layout w txt rest Hb Htl Hfp Hlt Hbs Hmax). rewrite Htl.
  split; [reflexivity|].
  split; [apply holds_terminated; assumption|].
  split; [apply c_string_at_terminated; assumption|].
  split; [apply nth_error_terminated|].
  split; [apply firstn_terminated|].
  set (w1 := mk_world (set_buf (Some (terminated txt rest)) (gen w)) (allocs w)
               (events w ++ flush_events (flush_cb (gen w)) (terminated txt rest)
                              (priv (gen w)))).
  assert (Hrest : rest <> []).
  { intros ->. simpl in Hbs. lia. }
  rewrite (str_end_layout w1 txt (Some NUL :: List.tl rest)); simpl.
  - rewrite terminated_again, Htl. reflexivity.
  - reflexivity.
  - exact Htl.
  - exact Hfp.
  - exact Hlt.
  - rewrite Hbs. destruct rest as [|c rest]; [contradiction|]. reflexivity.
  - exact Hmax.
Qed.

(** What finalization never touches. *)
Lemma str_end_inv (w : world) (r : Z) (w' : world) :
  json_gen_str_end w = Ok r w' ->
  r = total_len (gen w) + 1 /\
  total_len (gen w') = total_len (gen w) /\
  buf_size (gen w') = buf_size (gen w) /\
  free_ptr (gen w') = free_ptr (gen w) /\
  comma_req (gen w') = comma_req (gen w) /\
  flush_cb (gen w') = flush_cb (gen w) /\
  priv (gen w') = priv (gen w) /\
  allocs w' = allocs w.
Proof.
  destruct w as [[b bs fp tl cr cb pv] al ev].
  unfold json_gen_str_end, store_chars, call_flush.
  unfold bind, load, modify, emit, ret, undefined, int_of. simpl.
  destruct b as [b|]; simpl.
  - destruct (tl <? bs); simpl.
    + destruct (write_cells tl [NUL] b) as [b1|]; [|discriminate]. simpl.
      destruct (write_cells fp [NUL] b1) as [b2|]; [|discriminate]. simpl.
      destruct cb as [f|]; simpl; destruct (in_int (tl + 1)); try discriminate;
        intros H; inversion H; subst; simpl; repeat split.
    + destruct (write_cells fp [NUL] b) as [b2|]; [|discriminate]. simpl.
      destruct cb as [f|]; simpl; destruct (in_int (tl + 1)); try discriminate;
        intros H; inversion H; subst; simpl; repeat split.
  - destruct (in_int (tl + 1)); try discriminate.
    intros H; inversion H; subst; simpl; repeat split.
Qed.

(** [json_gen_free_buffer] clears the structure and, having cleared [buf]
    before testing it, makes no call of [free]. *)
Lemma free_buffer_clears (w : world) :
  json_gen_free_buffer w = Ok tt (mk_world zeroed (allocs w) (events w)).
Proof. reflexivity. Qed.

(** Finalization of a generator without a block: nothing is stored, nothing
    is called. *)
Lemma str_end_unallocated (w : world) :
  buf (gen w) = None -> total_len (gen w) = 0 -> json_gen_str_end w = Ok 1 w.
Proof.
  destruct w as [[b bs fp tl cr cb pv] al ev]. simpl. intros -> ->.
  reflexivity.
Qed.

(* ------------------------------------------------------------------ *)
(** ** Emission with every allocation served *)

Lemma emits_bind {A B : Type} (m : M A) (k : A -> M B)
    (c0 c1 c2 : bool) (f1 f2 : list ascii) (R1 : A -> Prop) (R2 : B -> Prop) :
  emits m c0 f1 c1 R1 ->
  (forall a, emits (k a) c1 f2 c2 R2) ->
  emits (bind m k) c0 (f1 ++ f2) c2 R2.
Proof.
  intros Hm Hk w txt Hh Hsv Hc Hmax.
  rewrite length_app in Hmax.
  destruct (Hm w txt Hh Hsv Hc)
    as (a & w1 & Hrun & _ & Hh1 & Hsv1 & Hc1 & Hf1 & Hp1 & He1).
  { lia. }
  destruct (Hk a w1 (txt ++ f1) Hh1 Hsv1 Hc1)
    as (b & w2 & Hrun2 & HR & Hh2 & Hsv2 & Hc2 & Hf2 & Hp2 & He2).
  { rewrite length_app. lia. }
  exists b, w2. unfold bind. rewrite Hrun.
  rewrite <- app_assoc in Hh2.
  repeat split; auto; congruence.
Qed.

Lemma emits_eq {A : Type} (m : M A) (c c' : bool) (f f' : list ascii)
    (R : A -> Prop) :
  emits m c f c' R -> f = f' -> emits m c f' c' R.
Proof. intros H E. subst. exact H. Qed.

Lemma emits_ret {A : Type} (a : A) (c : bool) : emits (ret a) c [] c (eq a).
Proof.
  intros w txt Hh Hsv Hc _. exists a, w. unfold ret.
  rewrite app_nil_r. repeat split; auto.
Qed.

Lemma emits_set_comma (b c : bool) : emits (modify (set_comma_req b)) c [] b any.
Proof.
  intros w txt Hh Hsv Hc _. eexists tt, _. unfold modify.
  split; [reflexivity|]. simpl. rewrite app_nil_r.
  repeat split; auto.
Qed.

Lemma emits_add_to_str (a : option string) (c : bool) :
  emits (json_gen_add_to_str a) c (arg_chars a) c succeeded.
Proof.
  intros w txt Hh Hsv Hc Hmax. destruct a as [s|]; simpl in *.
  - destruct (add_to_str_serving w txt s Hh Hsv) as (w' & Hrun & Hh' & Hsv' & Hc' & Hf & Hp & He).
    { unfold strlen. lia. }
    exists 0, w'. unfold succeeded. repeat split; auto; congruence.
  - exists 0, w. unfold ret, succeeded. rewrite app_nil_r. repeat split; auto.
Qed.

Lemma emits_handle_comma (c : bool) :
  emits json_gen_handle_comma c (separator c) c any.
Proof.
  intros w txt Hh Hsv Hc Hmax.
  unfold json_gen_handle_comma, bind at 1, load. rewrite Hc.
  destruct c; simpl separator in *.
  - destruct (emits_bind (json_gen_add_to_str (Some ","%string)) (fun _ => ret tt)
                true true true [COMMA] [] succeeded (eq tt)
                (emits_add_to_str (Some ","%string) true)
                (fun _ => emits_ret tt true) w txt Hh Hsv Hc)
      as (a & w' & Hrun & _ & H).
    { simpl in *. lia. }
    exists a, w'. split; [exact Hrun|]. split; [exact I|exact H].
  - exists tt, w. unfold ret. rewrite app_nil_r. unfold any. repeat split; auto.
Qed.

Ltac emits_chain :=
  repeat first
    [ apply emits_add_to_str
    | apply emits_handle_comma
    | apply emits_set_comma
    | apply emits_ret
    | eapply emits_bind; [|intro] ].

Lemma emits_handle_name (name : option string) (c : bool) :
  emits (json_gen_handle_name name) c (name_text name) c succeeded.
Proof.
  unfold json_gen_handle_name.
  eapply emits_eq; [emits_chain | reflexivity].
Qed.

Ltac emits_calls_chain :=
  repeat first
    [ apply emits_add_to_str
    | apply emits_handle_comma
    | apply emits_handle_name
    | apply emits_set_comma
    | apply emits_ret
    | eapply emits_bind; [|intro] ].

Lemma emits_scalar (o : scalar_op) (c : bool) :
  emits (run_scalar o) c (separator c ++ scalar_text o) true succeeded.
Proof.
  destruct o as [name [|]|[|]|name v|v|name v|v|name v|v|name v|v|name| |name v|v];
    cbn [run_scalar scalar_text];
    unfold json_gen_obj_set_bool, json_gen_arr_set_bool, json_gen_set_bool,
      json_gen_obj_set_int, json_gen_arr_set_int, json_gen_set_int,
      json_gen_obj_set_int64, json_gen_arr_set_int64, json_gen_set_int64,
      json_gen_obj_set_float, json_gen_arr_set_float, json_gen_set_float,
      json_gen_obj_set_string, json_gen_arr_set_string, json_gen_set_string,
      json_gen_obj_set_null, json_gen_arr_set_null, json_gen_set_null,
      json_gen_obj_start_long_string, json_gen_arr_start_long_string,
      json_gen_set_long_string, quoted, bool_text;
    (eapply emits_eq;
     [ emits_calls_chain
     | cbn [arg_chars app]; rewrite ?app_nil_r, <- ?app_assoc; reflexivity ]).
Qed.

Lemma emits_open (o : open_op) (c : bool) :
  emits (run_open o) c (separator c ++ open_text o) false succeeded.
Proof.
  destruct o as [| |name|name]; cbn [run_open open_text];
    unfold json_gen_start_object, json_gen_start_array,
      json_gen_push_object, json_gen_push_array;
    (eapply emits_eq;
     [ emits_calls_chain
     | cbn [arg_chars app]; rewrite ?app_nil_r, <- ?app_assoc; reflexivity ]).
Qed.

Lemma emits_close (o : close_op) (c : bool) :
  emits (run_close o) c (close_text o) true succeeded.
Proof.
  destruct o; cbn [run_close close_text];
    unfold json_gen_end_object, json_gen_end_array,
      json_gen_pop_object, json_gen_pop_array;
    (eapply emits_eq; [ emits_calls_chain | reflexivity ]).
Qed.

Lemma emits_raw (o : raw_op) (c : bool) :
  emits (run_raw o) c (separator c ++ raw_text o) true succeeded.
Proof.
  destruct o as [name s|name s]; cbn [run_raw raw_text];
    unfold json_gen_push_object_str, json_gen_push_array_str;
    (eapply emits_eq;
     [ emits_calls_chain
     | cbn [arg_chars app]; rewrite ?app_nil_r, <- ?app_assoc; reflexivity ]).
Qed.

Lemma emits_ext {A : Type} (m m' : M A) (c c' : bool) (f : list ascii)
    (R : A -> Prop) :
  (forall w, m w = m' w) -> emits m c f c' R -> emits m' c f c' R.
Proof.
  intros E H w txt Hh Hsv Hc Hmax.
  destruct (H w txt Hh Hsv Hc Hmax) as (a & w' & Hrun & Hrest).
  exists a, w'. rewrite <- E. split; assumption.
Qed.

Lemma emits_weaken {A : Type} (m : M A) (c c' : bool) (f : list ascii)
    (R : A -> Prop) :
  emits m c f c' R -> emits m c f c' any.
Proof.
  intros H w txt Hh Hsv Hc Hmax.
  destruct (H w txt Hh Hsv Hc Hmax) as (a & w' & Hrun & _ & Hrest).
  exists a, w'. split; [assumption|]. split; [exact I|assumption].
Qed.

Lemma run_emissions_app (es1 es2 : list emission) (w : world) :
  run_emissions (es1 ++ es2) w = (run_emissions es1 ;; run_emissions es2) w.
Proof.
  revert w. induction es1 as [|e es1 IH]; intros w; simpl.
  - reflexivity.
  - unfold bind. destruct (run_emission e w) as [r w1|]; [|reflexivity].
    rewrite IH. reflexivity.
Qed.

Lemma emits_app (es1 es2 : list emission) (c0 c1 c2 : bool) (f1 f2 : list ascii) :
  emits (run_emissions es1) c0 f1 c1 any ->
  emits (run_emissions es2) c1 f2 c2 any ->
  emits (run_emissions (es1 ++ es2)) c0 (f1 ++ f2) c2 any.
Proof.
  intros H1 H2.
  apply (emits_ext (run_emissions es1 ;; run_emissions es2)).
  - intros w. symmetry. apply run_emissions_app.
  - eapply emits_bind; [exact H1 | intros _; exact H2].
Qed.

Lemma emits_one (e : emission) (c c' : bool) (f : list ascii) (R : Z -> Prop) :
  emits (run_emission e) c f c' R -> emits (run_emissions [e]) c f c' any.
Proof.
  intros H. simpl.
  eapply emits_eq.
  - eapply emits_bind; [exact H | intros _; apply emits_weaken with (R := eq tt); apply emits_ret].
  - apply app_nil_r.
Qed.

(** The chunks and the closing quote of a long string. *)
Lemma emits_chunks (chunks : list (option string)) (c : bool) :
  emits (run_emissions (map AddToLongString chunks ++ [EndLongString])) c
    (flat_map arg_chars chunks ++ [DQUOTE]) c any.
Proof.
  induction chunks as [|v chunks IH]; simpl.
  - apply (emits_one EndLongString c c [DQUOTE] succeeded).
    simpl. unfold json_gen_end_long_string.
    apply (emits_add_to_str (Some lit_quote) c).
  - eapply emits_eq.
    + eapply emits_bind; [|intros _; exact IH].
      unfold json_gen_add_to_long_string. apply emits_add_to_str.
    + rewrite <- app_assoc. reflexivity.
Qed.

(** Induction on siblings that reaches the children of a container. *)
Lemma sibling_nested_ind (P : sibling -> Prop) :
  (forall o, P (Value o)) ->
  (forall o chunks, P (LongValue o chunks)) ->
  (forall o, P (Fragment o)) ->
  (forall o children c, Forall P children -> P (Container o children c)) ->
  forall s, P s.
Proof.
  intros HV HL HF HC. fix IH 1. intros [o|o chunks|o|o children c].
  - apply HV.
  - apply HL.
  - apply HF.
  - apply HC. induction children as [|s rest IHrest]; constructor.
    + apply IH.
    + exact IHrest.
Qed.

Lemma emits_row_from (ss : list sibling) :
  Forall (fun s => forall c,
            emits (run_emissions (calls s)) c (separator c ++ render s) true any) ss ->
  forall c,
    emits (run_emissions (flat_map calls ss)) c (row c ss)
      (match ss with [] => c | _ => true end) any.
Proof.
  induction 1 as [|s rest Hs Hrest IH]; intros c.
  - simpl. apply emits_weaken with (R := eq tt). apply emits_ret.
  - simpl flat_map. unfold row.
    assert (IH' : emits (run_emissions (flat_map calls rest)) true
                    (row true rest) true any).
    { specialize (IH true). destruct rest; exact IH. }
    eapply emits_eq.
    + eapply emits_app; [apply Hs | exact IH'].
    + destruct rest as [|s2 rest]; simpl; rewrite <- ?app_assoc; reflexivity.
Qed.

Lemma emits_calls (s : sibling) :
  forall c, emits (run_emissions (calls s)) c (separator c ++ render s) true any.
Proof.
  induction s as [o|o chunks|o|o children cl IH] using sibling_nested_ind; intros c.
  - apply (emits_one (Scalar o) c true _ succeeded). apply emits_scalar.
  - change (calls (LongValue o chunks))
      with ([Scalar o] ++ (map AddToLongString chunks ++ [EndLongString])).
    eapply emits_eq.
    + eapply emits_app;
        [ apply (emits_one (Scalar o) c true _ succeeded); apply emits_scalar
        | apply emits_chunks ].
    + simpl. rewrite <- app_assoc. reflexivity.
  - apply (emits_one (Raw o) c true _ succeeded). apply emits_raw.
  - change (calls (Container o children cl))
      with ([Open o] ++ (flat_map calls children ++ [Close cl])).
    eapply emits_eq.
    + eapply emits_app;
        [ apply (emits_one (Open o) c false _ succeeded); apply emits_open
        | eapply emits_app;
          [ apply (emits_row_from children IH false)
          | apply (emits_one (Close cl) _ true _ succeeded); apply emits_close ] ].
    + simpl. rewrite <- !app_assoc. f_equal. f_equal.
      destruct children as [|s rest]; reflexivity.
Qed.

Lemma emits_row (ss : list sibling) (c : bool) :
  emits (run_emissions (flat_map calls ss)) c (row c ss)
    (match ss with [] => c | _ => true end) any.
Proof.
  apply emits_row_from. apply Forall_forall. intros s _. apply emits_calls.
Qed.

Lemma behind_commas_flat_map (ss : list sibling) :
  behind_commas ss = flat_map (fun s => COMMA :: render s) ss.
Proof.
  unfold behind_commas. induction ss as [|s ss IH]; simpl.
  - reflexivity.
  - rewrite IH. reflexivity.
Qed.

Lemma row_separated (ss : list sibling) : row false ss = separated (map render ss).
Proof. destruct ss as [|s ss]; reflexivity. Qed.

(* ------------------------------------------------------------------ *)
(** ** What every call preserves *)

Lemma moves_bind {A B : Type} (c1 c2 : option bool) (m : M A) (k : A -> M B) :
  moves c1 m -> (forall a, moves c2 (k a)) -> moves (then_flag c1 c2) (bind m k).
Proof.
  intros Hm Hk w b w' H.
  apply bind_inv in H. destruct H as (a & w1 & H1 & H2).
  destruct (Hm _ _ _ H1) as (Hc1 & Hf1 & Hp1 & He1 & Hi1).
  destruct (Hk a _ _ _ H2) as (Hc2 & Hf2 & Hp2 & He2 & Hi2).
  repeat split; try congruence; auto.
  rewrite Hc2, Hc1. destruct c2; reflexivity.
Qed.

Lemma moves_eq {A : Type} (c c' : option bool) (m : M A) :
  moves c m -> c = c' -> moves c' m.
Proof. intros H E. subst. exact H. Qed.

Lemma moves_ret {A : Type} (a : A) : moves None (ret a).
Proof.
  intros w b w' H. unfold ret in H. inversion H; subst. repeat split; auto.
Qed.

Lemma moves_set_comma (b : bool) : moves (Some b) (modify (set_comma_req b)).
Proof.
  intros w u w' H. unfold modify in H. inversion H; subst. simpl.
  repeat split; auto.
Qed.

Lemma moves_add_to_str (a : option string) : moves None (json_gen_add_to_str a).
Proof.
  intros w r w' H. apply add_to_str_inv in H.
  destruct H as ((Hc & Hf & Hp & He) & _ & _ & Hi). repeat split; auto.
Qed.

Lemma moves_handle_comma : moves None json_gen_handle_comma.
Proof.
  intros w u w' H. unfold json_gen_handle_comma in H.
  apply bind_inv in H. destruct H as (j & w1 & Hl & H).
  unfold load in Hl. inversion Hl; subst j w1. clear Hl.
  assert (Hk : moves None
                 (if comma_req (gen w)
                  then json_gen_add_to_str (Some ","%string) ;; ret tt
                  else ret tt)).
  { destruct (comma_req (gen w)).
    - apply (moves_bind None None); [apply moves_add_to_str|].
      intros _. apply moves_ret.
    - apply moves_ret. }
  exact (Hk w u w' H).
Qed.

Ltac moves_chain :=
  repeat first
    [ apply moves_add_to_str
    | apply moves_handle_comma
    | apply moves_set_comma
    | apply moves_ret
    | eapply moves_bind; [|intro] ].

Lemma moves_handle_name (name : option string) :
  moves None (json_gen_handle_name name).
Proof.
  unfold json_gen_handle_name.
  eapply moves_eq; [moves_chain | reflexivity].
Qed.

Ltac moves_calls_chain :=
  repeat first
    [ apply moves_add_to_str
    | apply moves_handle_comma
    | apply moves_handle_name
    | apply moves_set_comma
    | apply moves_ret
    | eapply moves_bind; [|intro] ].

Lemma moves_scalar (o : scalar_op) : moves (Some true) (run_scalar o).
Proof.
  destruct o as [name [|]|[|]|name v|v|name v|v|name v|v|name v|v|name| |name v|v];
    cbn [run_scalar];
    unfold json_gen_obj_set_bool, json_gen_arr_set_bool, json_gen_set_bool,
      json_gen_obj_set_int, json_gen_arr_set_int, json_gen_set_int,
      json_gen_obj_set_int64, json_gen_arr_set_int64, json_gen_set_int64,
      json_gen_obj_set_float, json_gen_arr_set_float, json_gen_set_float,
      json_gen_obj_set_string, json_gen_arr_set_string, json_gen_set_string,
      json_gen_obj_set_null, json_gen_arr_set_null, json_gen_set_null,
      json_gen_obj_start_long_string, json_gen_arr_start_long_string,
      json_gen_set_long_string;
    (eapply moves_eq; [moves_calls_chain | reflexivity]).
Qed.

Lemma moves_open (o : open_op) : moves (Some false) (run_open o).
Proof.
  destruct o; cbn [run_open];
    unfold json_gen_start_object, json_gen_start_array,
      json_gen_push_object, json_gen_push_array;
    (eapply moves_eq; [moves_calls_chain | reflexivity]).
Qed.

Lemma moves_close (o : close_op) : moves (Some true) (run_close o).
Proof.
  destruct o; cbn [run_close];
    unfold json_gen_end_object, json_gen_end_array,
      json_gen_pop_object, json_gen_pop_array;
    (eapply moves_eq; [moves_calls_chain | reflexivity]).
Qed.

Lemma moves_raw (o : raw_op) : moves (Some true) (run_raw o).
Proof.
  destruct o; cbn [run_raw];
    unfold json_gen_push_object_str, json_gen_push_array_str;
    (eapply moves_eq; [moves_calls_chain | reflexivity]).
Qed.

Lemma moves_emission (e : emission) : moves (emission_flag e) (run_emission e).
Proof.
  destruct e as [o|o|o|o|v|]; cbn [run_emission emission_flag].
  - apply moves_scalar.
  - apply moves_open.
  - apply moves_close.
  - apply moves_raw.
  - apply moves_add_to_str.
  - apply moves_add_to_str.
Qed.

Lemma answers_bind {A : Type} (m : M A) (k : A -> M Z) :
  (forall a, answers (k a)) -> answers (bind m k).
Proof.
  intros Hk w r w' H. apply bind_inv in H. destruct H as (a & w1 & _ & H).
  exact (Hk a _ _ _ H).
Qed.

Lemma answers_add_to_str (a : option string) : answers (json_gen_add_to_str a).
Proof. intros w r w' H. apply add_to_str_inv in H. apply H. Qed.

Ltac answers_chain :=
  repeat first
    [ apply answers_add_to_str
    | apply answers_bind; intro ].

Lemma answers_emission (e : emission) : answers (run_emission e).
Proof.
  destruct e as [o|o|o|o|v|]; cbn [run_emission].
  - destruct o as [name [|]|[|]|name v|v|name v|v|name v|v|name v|v|name| |name v|v];
      cbn [run_scalar];
      unfold json_gen_obj_set_bool, json_gen_arr_set_bool, json_gen_set_bool,
        json_gen_obj_set_int, json_gen_arr_set_int, json_gen_set_int,
        json_gen_obj_set_int64, json_gen_arr_set_int64, json_gen_set_int64,
        json_gen_obj_set_float, json_gen_arr_set_float, json_gen_set_float,
        json_gen_obj_set_string, json_gen_arr_set_string, json_gen_set_string,
        json_gen_obj_set_null, json_gen_arr_set_null, json_gen_set_null,
        json_gen_obj_start_long_string, json_gen_arr_start_long_string,
        json_gen_set_long_string;
      answers_chain.
  - destruct o; cbn [run_open];
      unfold json_gen_start_object, json_gen_start_array,
        json_gen_push_object, json_gen_push_array; answers_chain.
  - destruct o; cbn [run_close];
      unfold json_gen_end_object, json_gen_end_array,
        json_gen_pop_object, json_gen_pop_array; answers_chain.
  - destruct o; cbn [run_raw];
      unfold json_gen_push_object_str, json_gen_push_array_str; answers_chain.
  - apply answers_add_to_str.
  - apply answers_add_to_str.
Qed.

Lemma reachable_setup (cb : option fnptr) (p : voidptr) (w : world) :
  reachable cb p w ->
  flush_cb (gen w) = cb /\ priv (gen w) = p /\
  total_len (gen w) < buf_size (gen w).
Proof.
  induction 1 as [w w' Hs | w e r w' Hr IH He | w r w' Hr IH He].
  - destruct (str_start_runs cb p w) as (w2 & Hrun & _ & Htl & _ & Hbs & Hf & Hp & _).
    rewrite Hrun in Hs. inversion Hs; subst w2.
    rewrite Htl, Hbs. unfold MEM_CHUNK_SIZE. repeat split; auto; lia.
  - destruct (moves_emission e _ _ _ He) as (_ & Hf & Hp & _ & Hi).
    destruct IH as (IHf & IHp & IHi). repeat split; try congruence; auto.
  - apply str_end_inv in He. destruct He as (_ & Htl & Hbs & _ & _ & Hf & Hp & _).
    destruct IH as (IHf & IHp & IHi). repeat split; try congruence; lia.
Qed.

(* ------------------------------------------------------------------ *)
(** ** Reachable generators are well-formed *)

Lemma holds_grown (j : json_gen_str_t) (txt : list ascii) (n : Z)
    (b : list (option ascii)) :
  holds j txt -> buf j = Some b -> buf_size j < n -> n <= INT_MAX ->
  holds (set_free_ptr (total_len j)
           (set_buf_size n (set_buf (Some (resize (Z.to_nat n) b)) j))) txt.
Proof.
  intros (rest & Hb & Htl & Hfp & Hbs & Hlt & Hmax & Hnn) Hb' Hn Hnmax.
  rewrite Hb in Hb'. inversion Hb'; subst b.
  rewrite resize_grow by (rewrite length_app, length_map; lia).
  rewrite <- app_assoc.
  exists (rest ++ repeat None (Z.to_nat n - List.length (map Some txt ++ rest))).
  simpl. repeat split; auto; try lia.
  rewrite !length_app, repeat_length, length_map. lia.
Qed.

Lemma holds_first_block (j : json_gen_str_t) (n : Z) :
  unallocated j -> buf_size j < n -> n <= INT_MAX ->
  holds (set_free_ptr (total_len j)
           (set_buf_size n (set_buf (Some (resize (Z.to_nat n) [])) j))) [].
Proof.
  intros (Hb & Htl & Hfp & Hbs) Hn Hnmax.
  exists (repeat None (Z.to_nat n)). unfold resize. simpl.
  rewrite firstn_nil, Nat.sub_0_r, repeat_length, Htl.
  unfold MEM_CHUNK_SIZE in *.
  repeat split; auto; try lia. constructor.
Qed.

Lemma add_to_str_sound (a : option string) : keeps_sound (json_gen_add_to_str a).
Proof.
  intros w r w' Hs H. destruct a as [s|]; simpl in H.
  2:{ unfold ret in H. inversion H; subst. exact Hs. }
  apply bind_inv in H. destruct H as (len & w1 & Hlen & H).
  apply int_of_inv in Hlen. destruct Hlen as (-> & -> & Hr1).
  apply bind_inv in H. destruct H as (j & w1 & Hj & H).
  unfold load in Hj. inversion Hj; subst j w1. clear Hj.
  apply bind_inv in H. destruct H as (req & w1 & Hreq & H).
  apply int_of_inv in Hreq. destruct Hreq as (-> & -> & Hr2).
  destruct (buf_size (gen w) <? total_len (gen w) + strlen s + 1) eqn:Hcmp.
  - apply Z.ltb_lt in Hcmp.
    apply bind_inv in H. destruct H as (nsz & w1 & Hn & H).
    apply int_of_inv in Hn. destruct Hn as (-> & -> & Hr3).
    apply bind_inv in H. destruct H as (nb & w1 & Hre & H).
    apply realloc_inv in Hre. destruct Hre as (Hg & _ & _ & Hnb).
    destruct (next_served w); subst nb.
    + apply bind_inv in H. destruct H as (u1 & w2 & H1 & H).
      apply bind_inv in H. destruct H as (u2 & w3 & H2 & H).
      apply bind_inv in H. destruct H as (u3 & w4 & H3 & H).
      unfold modify in H1, H2, H3. inversion H1; inversion H2; inversion H3; subst.
      clear H1 H2 H3. simpl in H. rewrite Hg in H.
      set (n := total_len (gen w) + strlen s + 1 + MEM_CHUNK_SIZE) in *.
      match type of H with
      | add_the_string _ _ ?x = _ => set (w4 := x) in *
      end.
      assert (Hh4 : exists txt, holds (gen w4) txt
                                /\ Z.of_nat (List.length txt) = total_len (gen w)).
      { destruct Hs as [(txt & Hh)|Hu].
        - exists txt. split.
          + pose proof Hh as (rest & Hb & _).
            unfold w4. simpl. rewrite Hb.
            apply (holds_grown (gen w) txt n _ Hh Hb);
              unfold n, MEM_CHUNK_SIZE in *; lia.
          + destruct (holds_range _ _ Hh) as (Htl & _). lia.
        - exists []. split.
          + pose proof Hu as (Hb & _).
            unfold w4. simpl. rewrite Hb.
            apply (holds_first_block (gen w) n Hu);
              unfold n, MEM_CHUNK_SIZE in *; lia.
          + destruct Hu as (_ & Htl & _). simpl. lia. }
      destruct Hh4 as (txt & Hh4 & Htxt).
      destruct (add_the_string_holds w4 txt s Hh4) as (w5 & Hrun & Hh5 & _).
      { unfold w4. simpl. unfold n, MEM_CHUNK_SIZE in *. lia. }
      rewrite Hrun in H. inversion H; subst. left. eexists. exact Hh5.
    + unfold ret in H. inversion H; subst. rewrite Hg. exact Hs.
  - apply Z.ltb_ge in Hcmp.
    destruct Hs as [(txt & Hh)|Hu].
    + destruct (add_the_string_holds w txt s Hh) as (w5 & Hrun & Hh5 & _).
      { destruct (holds_range _ _ Hh) as (Htl & _). lia. }
      rewrite Hrun in H. inversion H; subst. left. eexists. exact Hh5.
    + destruct Hu as (Hb & _).
      rewrite (add_the_string_null s (strlen s) w Hb) in H. discriminate.
Qed.

Lemma keeps_sound_bind {A B : Type} (m : M A) (k : A -> M B) :
  keeps_sound m -> (forall a, keeps_sound (k a)) -> keeps_sound (bind m k).
Proof.
  intros Hm Hk w b w' Hs H.
  apply bind_inv in H. destruct H as (a & w1 & H1 & H2).
  exact (Hk a w1 b w' (Hm w a w1 Hs H1) H2).
Qed.

Lemma keeps_sound_ret {A : Type} (a : A) : keeps_sound (ret a).
Proof. intros w b w' Hs H. unfold ret in H. inversion H; subst. exact Hs. Qed.

Lemma keeps_sound_set_comma (b : bool) : keeps_sound (modify (set_comma_req b)).
Proof.
  intros w u w' Hs H. unfold modify in H. inversion H; subst. simpl.
  destruct Hs as [(txt & Hh)|Hu]; [left; exists txt|right]; assumption.
Qed.

Lemma keeps_sound_handle_comma : keeps_sound json_gen_handle_comma.
Proof.
  intros w u w' Hs H. unfold json_gen_handle_comma in H.
  apply bind_inv in H. destruct H as (j & w1 & Hl & H).
  unfold load in Hl. inversion Hl; subst j w1. clear Hl.
  assert (Hk : keeps_sound
                 (if comma_req (gen w)
                  then json_gen_add_to_str (Some ","%string) ;; ret tt
                  else ret tt)).
  { destruct (comma_req (gen w)).
    - apply keeps_sound_bind; [apply add_to_str_sound|].
      intros _. apply keeps_sound_ret.
    - apply keeps_sound_ret. }
  exact (Hk w u w' Hs H).
Qed.

Ltac keeps_sound_chain :=
  repeat first
    [ apply add_to_str_sound
    | apply keeps_sound_handle_comma
    | apply keeps_sound_set_comma
    | apply keeps_sound_ret
    | apply keeps_sound_bind; [|intro] ].

Lemma emission_sound (e : emission) : keeps_sound (run_emission e).
Proof.
  destruct e as [o|o|o|o|v|]; cbn [run_emission].
  - destruct o as [name [|]|[|]|name v|v|name v|v|name v|v|name v|v|name| |name v|v];
      cbn [run_scalar];
      unfold json_gen_obj_set_bool, json_gen_arr_set_bool, json_gen_set_bool,
        json_gen_obj_set_int, json_gen_arr_set_int, json_gen_set_int,
        json_gen_obj_set_int64, json_gen_arr_set_int64, json_gen_set_int64,
        json_gen_obj_set_float, json_gen_arr_set_float, json_gen_set_float,
        json_gen_obj_set_string, json_gen_arr_set_string, json_gen_set_string,
        json_gen_obj_set_null, json_gen_arr_set_null, json_gen_set_null,
        json_gen_obj_start_long_string, json_gen_arr_start_long_string,
        json_gen_set_long_string, json_gen_handle_name;
      keeps_sound_chain.
  - destruct o; cbn [run_open];
      unfold json_gen_start_object, json_gen_start_array,
        json_gen_push_object, json_gen_push_array, json_gen_handle_name;
      keeps_sound_chain.
  - destruct o; cbn [run_close];
      unfold json_gen_end_object, json_gen_end_array,
        json_gen_pop_object, json_gen_pop_array; keeps_sound_chain.
  - destruct o; cbn [run_raw];
      unfold json_gen_push_object_str, json_gen_push_array_str,
        json_gen_handle_name; keeps_sound_chain.
  - apply add_to_str_sound.
  - apply add_to_str_sound.
Qed.

Lemma str_end_sound : keeps_sound json_gen_str_end.
Proof.
  intros w r w' Hs H. destruct Hs as [(txt & Hh)|Hu].
  - destruct (str_end_holds w txt Hh) as (b' & Hrun & Hh' & _).
    rewrite Hrun in H. inversion H; subst. left. exists txt. exact Hh'.
  - destruct Hu as (Hb & Htl & Hfp & Hbs).
    destruct w as [[b bs fp tl cr cb pv] al ev]. simpl in *. subst.
    unfold json_gen_str_end, bind, load, ret, int_of in H. simpl in H.
    inversion H; subst. right. repeat split.
Qed.

(** Every reachable generator is well-formed, or still without a block
    because the [malloc] of [json_gen_str_start] was refused and no append
    has obtained one since. *)
Lemma reachable_sound (cb : option fnptr) (p : voidptr) (w : world) :
  reachable cb p w -> sound (gen w).
Proof.
  induction 1 as [w w' Hs | w e r w' Hr IH He | w r w' Hr IH He].
  - destruct (str_start_runs cb p w)
      as (w2 & Hrun & _ & Htl & Hfp & Hbs & _ & _ & _ & _ & Hb).
    rewrite Hrun in Hs. inversion Hs; subst w2.
    destruct (next_served w).
    + left. exists []. exists (repeat None (Z.to_nat MEM_CHUNK_SIZE)).
      rewrite Hb, Htl, Hfp, Hbs. unfold MEM_CHUNK_SIZE, INT_MAX. simpl.
      repeat split; try reflexivity; try lia. constructor.
    + right. repeat split; assumption.
  - exact (emission_sound e w r w' IH He).
  - exact (str_end_sound w r w' IH He).
Qed.

(** A reachable generator that has a block is well-formed. *)
Lemma reachable_holds (cb : option fnptr) (p : voidptr) (w : world) :
  reachable cb p w -> buf (gen w) <> None -> exists txt, holds (gen w) txt.
Proof.
  intros Hr Hb. destruct (reachable_sound cb p w Hr) as [H|(Hn & _)].
  - exact H.
  - contradiction.
Qed.

(* ------------------------------------------------------------------ *)
(** ** Every emission returns *)

Lemma returns_bind {A B : Type} (m : M A) (k : A -> M B) (n1 n2 : nat) :
  returns m n1 -> (forall a, returns (k a) n2) -> returns (bind m k) (n1 + n2).
Proof.
  intros Hm Hk w txt Hh Hmax.
  destruct (Hm w txt Hh) as (a & w1 & txt1 & Hrun1 & Hh1 & Hl1); [lia|].
  destruct (Hk a w1 txt1 Hh1) as (b & w2 & txt2 & Hrun2 & Hh2 & Hl2); [lia|].
  exists b, w2, txt2. unfold bind. rewrite Hrun1.
  split; [exact Hrun2|]. split; [exact Hh2|lia].
Qed.

Lemma returns_le {A : Type} (m : M A) (n n' : nat) :
  returns m n -> (n <= n')%nat -> returns m n'.
Proof.
  intros Hm Hle w txt Hh Hmax.
  destruct (Hm w txt Hh) as (a & w1 & txt1 & Hrun1 & Hh1 & Hl1); [lia|].
  exists a, w1, txt1. split; [exact Hrun1|]. split; [exact Hh1|lia].
Qed.

Lemma returns_ret {A : Type} (a : A) : returns (ret a) 0.
Proof.
  intros w txt Hh _. exists a, w, txt. unfold ret.
  split; [reflexivity|]. split; [exact Hh|lia].
Qed.

Lemma returns_set_comma (b : bool) : returns (modify (set_comma_req b)) 0.
Proof.
  intros w txt Hh _. eexists tt, _, txt. unfold modify.
  split; [reflexivity|]. split; [exact Hh|lia].
Qed.

Lemma returns_add_to_str (a : option string) :
  returns (json_gen_add_to_str a) (List.length (arg_chars a)).
Proof.
  intros w txt Hh Hmax. destruct a as [s|]; simpl in *.
  2:{ exists 0, w, txt. unfold ret. split; [reflexivity|]. split; [exact Hh|lia]. }
  destruct (holds_range _ _ Hh) as (Htl & _).
  assert (Hlen : strlen s = Z.of_nat (List.length (c_chars s))) by reflexivity.
  destruct (Z_lt_le_dec (buf_size (gen w)) (total_len (gen w) + strlen s + 1))
    as [Hneed|Hroom].
  - destruct (next_served w) eqn:Hs.
    + destruct (add_to_str_grow w txt s Hh Hneed) as (w' & Hrun & Hh' & _);
        [lia|exact Hs|].
      exists 0, w', (txt ++ c_chars s). split; [exact Hrun|].
      split; [exact Hh'|rewrite length_app; lia].
    + destruct (add_to_str_refused w txt s Hh Hneed) as (w' & Hrun & Hg & _);
        [lia|exact Hs|].
      exists (-1), w', txt. split; [exact Hrun|].
      split; [rewrite Hg; exact Hh|lia].
  - destruct (add_to_str_room w txt s Hh Hroom) as (w' & Hrun & Hh' & _).
    exists 0, w', (txt ++ c_chars s). split; [exact Hrun|].
    split; [exact Hh'|rewrite length_app; lia].
Qed.

Lemma returns_handle_comma : returns json_gen_handle_comma 1.
Proof.
  intros w txt Hh Hmax.
  unfold json_gen_handle_comma, bind at 1, load.
  destruct (comma_req (gen w)).
  - apply (returns_bind (json_gen_add_to_str (Some ","%string)) (fun _ => ret tt) 1 0
             (returns_add_to_str (Some ","%string)) (fun _ => returns_ret tt) w txt Hh).
    simpl. lia.
  - apply (returns_le (ret tt) 0 1 (returns_ret tt)); [lia|exact Hh|exact Hmax].
Qed.

Ltac returns_chain :=
  repeat first
    [ apply returns_add_to_str
    | apply returns_handle_comma
    | apply returns_set_comma
    | apply returns_ret
    | eapply returns_bind; [|intro] ].

Ltac returns_budget :=
  cbn [arg_chars emission_text scalar_text open_text close_text raw_text];
  unfold name_text, quoted, bool_text;
  change (c_chars lit_quote) with [DQUOTE];
  repeat (rewrite ?length_app; cbn [List.length]);
  lia.

(** Every emission on a well-formed generator returns, served or refused,
    as long as the committed length, the text of the emission, its
    separator, the terminator and the slack stay within [int]. *)
Lemma emission_returns (e : emission) :
  returns (run_emission e) (S (List.length (emission_text e))).
Proof.
  destruct e as [o|o|o|o|v|]; cbn [run_emission].
  - destruct o as [name [|]|[|]|name v|v|name v|v|name v|v|name v|v|name| |name v|v];
      cbn [run_scalar];
      unfold json_gen_obj_set_bool, json_gen_arr_set_bool, json_gen_set_bool,
        json_gen_obj_set_int, json_gen_arr_set_int, json_gen_set_int,
        json_gen_obj_set_int64, json_gen_arr_set_int64, json_gen_set_int64,
        json_gen_obj_set_float, json_gen_arr_set_float, json_gen_set_float,
        json_gen_obj_set_string, json_gen_arr_set_string, json_gen_set_string,
        json_gen_obj_set_null, json_gen_arr_set_null, json_gen_set_null,
        json_gen_obj_start_long_string, json_gen_arr_start_long_string,
        json_gen_set_long_string, json_gen_handle_name;
      (eapply returns_le; [returns_chain | returns_budget]).
  - destruct o; cbn [run_open];
      unfold json_gen_start_object, json_gen_start_array,
        json_gen_push_object, json_gen_push_array, json_gen_handle_name;
      (eapply returns_le; [returns_chain | returns_budget]).
  - destruct o; cbn [run_close];
      unfold json_gen_end_object, json_gen_end_array,
        json_gen_pop_object, json_gen_pop_array;
      (eapply returns_le; [returns_chain | returns_budget]).
  - destruct o; cbn [run_raw];
      unfold json_gen_push_object_str, json_gen_push_array_str,
        json_gen_handle_name;
      (eapply returns_le; [returns_chain | returns_budget]).
  - unfold json_gen_add_to_long_string.
    eapply returns_le; [returns_chain | returns_budget].
  - unfold json_gen_end_long_string.
    eapply returns_le; [returns_chain | returns_budget].
Qed.

(* ------------------------------------------------------------------ *)
(** ** The last append of an emission *)

Lemma bind_assoc {A B C : Type} (m : M A) (k : A -> M B) (h : B -> M C) (w : world) :
  bind (bind m k) h w = bind m (fun a => bind (k a) h) w.
Proof. unfold bind. destruct (m w) as [a w1|]; reflexivity. Qed.

Lemma bind_ext {A B : Type} (m : M A) (k k' : A -> M B) (w : world) :
  (forall a w1, k a w1 = k' a w1) -> bind m k w = bind m k' w.
Proof. intros E. unfold bind. destruct (m w) as [a w1|]; [apply E|reflexivity]. Qed.

Ltac split_run :=
  repeat (rewrite bind_assoc; apply bind_ext; intros ? ?);
  try reflexivity.

(** An emission is its lead-in followed by its last append. *)
Lemma emission_split (e : emission) (w : world) :
  run_emission e w
  = (lead_in e ;; json_gen_add_to_str (last_fragment e)) w.
Proof.
  destruct e as [o|o|o|o|v|]; cbn [run_emission].
  - destruct o as [name [|]|[|]|name v|v|name v|v|name v|v|name v|v|name| |name v|v];
      cbn [run_scalar lead_in scalar_lead_in last_fragment];
      unfold json_gen_obj_set_bool, json_gen_arr_set_bool, json_gen_set_bool,
        json_gen_obj_set_int, json_gen_arr_set_int, json_gen_set_int,
        json_gen_obj_set_int64, json_gen_arr_set_int64, json_gen_set_int64,
        json_gen_obj_set_float, json_gen_arr_set_float, json_gen_set_float,
        json_gen_obj_set_string, json_gen_arr_set_string, json_gen_set_string,
        json_gen_obj_set_null, json_gen_arr_set_null, json_gen_set_null,
        json_gen_obj_start_long_string, json_gen_arr_start_long_string,
        json_gen_set_long_string;
      symmetry; split_run;
      try (unfold bind, ret;
           repeat match goal with
                  | |- context [match ?m ?x with Ok _ _ => _ | Fault => _ end] =>
                      destruct (m x)
                  end; reflexivity).
  - destruct o as [| |name|name]; cbn [run_open lead_in last_fragment];
      unfold json_gen_start_object, json_gen_start_array,
        json_gen_push_object, json_gen_push_array;
      symmetry; split_run.
  - destruct o; reflexivity.
  - destruct o as [name s|name s]; cbn [run_raw lead_in last_fragment];
      unfold json_gen_push_object_str, json_gen_push_array_str;
      symmetry; split_run.
  - reflexivity.
  - reflexivity.
Qed.

(* ------------------------------------------------------------------ *)
(** ** The test of the repository *)

(** The model passes the test of the repository: the calls of [test.c]
    leave [expected_str] in the buffer. *)
Lemma test_c_passes :
  exists (r : Z) (w' : world),
    (json_gen_str_start None 0 ;; run_emissions test_c_calls ;; json_gen_str_end) boot
    = Ok r w' /\
    buffer_text w' = Some expected_str /\
    r = Z.of_nat (String.length expected_str) + 1.
Proof.
  eexists. eexists. split; [vm_compute; reflexivity|].
  split; vm_compute; reflexivity.
Qed.

(** Where [long] has 32 bits, [%ld] does not print the value of [test.c]. *)
Lemma int64_text_narrow_long :
  snprintf_ld 64 (to_signed 64 test_int64) = test_int64_text /\
  snprintf_ld 32 (to_signed 64 test_int64) = "504445190"%string.
Proof. split; vm_compute; reflexivity. Qed.

(* ------------------------------------------------------------------ *)
(** ** The claims *)

(** C1, as amended: after [json_gen_str_start] with the first block
    allocated and every later request served, the calls start_object,
    obj_set_bool("a", true), push_array("b"), start_array, arr_set_int(1),
    arr_set_int(2), arr_set_null, end_array, pop_array, end_object and the
    finalization leave the text [{"a":true,"b":[[1,2,null]]}] in the buffer
    (the array pushed under "b" and the array started inside it both open a
    bracket), and the finalization returns the length of that text plus
    one. *)
Theorem scenario_text_produced (cb : option fnptr) (p : voidptr) (w : world) :
  serving w ->
  exists w',
    (json_gen_str_start cb p ;; run_emissions scenario ;; json_gen_str_end) w
    = Ok (Z.of_nat (String.length scenario_text) + 1) w' /\
    buffer_text w' = Some scenario_text.
Proof.
  intros Hsv.
  destruct (str_start_holds cb p w (serving_next w Hsv))
    as (w1 & Hstart & Hh1 & Hc1 & _ & _ & _ & Ha1).
  assert (Hsv1 : serving w1) by (eapply serving_tl; eassumption).
  destruct (emits_calls scenario_tree false w1 [] Hh1 Hsv1 Hc1)
    as (u & w2 & Hrun & _ & Hh2 & _).
  { vm_compute. discriminate. }
  destruct (str_end_holds w2 _ Hh2) as (b' & Hend & Hh3 & Hstr & _).
  eexists. split.
  - unfold bind. rewrite Hstart.
    change (run_emissions scenario) with (run_emissions (calls scenario_tree)).
    rewrite Hrun. rewrite Hend. reflexivity.
  - unfold buffer_text. simpl. rewrite Hstr. reflexivity.
Qed.

Lemma scenario_text_produced_witness :
  exists w',
    (json_gen_str_start (Some 7) 9 ;; run_emissions scenario ;; json_gen_str_end)
      boot
    = Ok (Z.of_nat (String.length scenario_text) + 1) w' /\
    buffer_text w' = Some scenario_text.
Proof.
  apply (scenario_text_produced (Some 7) 9 boot).
  unfold serving. simpl. constructor.
Defined.

(** C1, refuted as stated: on the machine [boot] the scenario does not leave
    the text [{"a":true,"b":[1,2,null]}], and the finalization does not
    return the length of that text plus one. *)
Lemma scenario_claimed_text_refuted :
  exists (r : Z) (w' : world),
    (json_gen_str_start None 0 ;; run_emissions scenario ;; json_gen_str_end) boot
    = Ok r w' /\
    buffer_text w' <> Some scenario_claimed /\
    r <> Z.of_nat (String.length scenario_claimed) + 1.
Proof.
  eexists. eexists. split; [vm_compute; reflexivity|].
  split; vm_compute; discriminate.
Qed.

(** C2: inside a container that was just opened (no separator pending),
    emitting N >= 2 siblings (scalars, long strings, raw fragments or
    complete containers) with every allocation served commits the text of
    the first sibling as it is and the text of each of the N - 1 others
    behind exactly one comma: no comma before the first, none after the
    last, one between any two neighbours. *)
Theorem separator_correctness (ss : list sibling) (w : world) (txt : list ascii) :
  (2 <= List.length ss)%nat ->
  holds (gen w) txt ->
  comma_req (gen w) = false ->
  serving w ->
  Z.of_nat (List.length txt)
    + Z.of_nat (List.length (separated (map render ss))) + 1 + MEM_CHUNK_SIZE
    <= INT_MAX ->
  exists (first : sibling) (others : list sibling) (w' : world),
    ss = first :: others /\
    List.length others = (List.length ss - 1)%nat /\
    run_emissions (flat_map calls ss) w = Ok tt w' /\
    holds (gen w')
      (txt ++ render first ++ flat_map (fun s => COMMA :: render s) others) /\
    comma_req (gen w') = true.
Proof.
  intros Hn Hh Hc Hsv Hmax.
  destruct ss as [|first others]; [simpl in Hn; lia|].
  rewrite <- row_separated in Hmax.
  destruct (emits_row (first :: others) false w txt Hh Hsv Hc Hmax)
    as ([] & w' & Hrun & _ & Hh' & _ & Hc' & _).
  exists first, others, w'.
  split; [reflexivity|].
  split; [simpl; lia|].
  split; [exact Hrun|].
  split; [|exact Hc'].
  unfold row in Hh'. simpl separator in Hh'. simpl app in Hh'.
  rewrite behind_commas_flat_map in Hh'. exact Hh'.
Qed.

Lemma separator_correctness_witness :
  exists (first : sibling) (others : list sibling) (w' : world),
    three_siblings = first :: others /\
    List.length others = (List.length three_siblings - 1)%nat /\
    run_emissions (flat_map calls three_siblings) in_array = Ok tt w' /\
    holds (gen w')
      (c_chars "[" ++ render first ++ flat_map (fun s => COMMA :: render s) others) /\
    comma_req (gen w') = true.
Proof.
  apply (separator_correctness three_siblings in_array (c_chars "[")).
  - simpl. lia.
  - exists (Some NUL :: repeat None 248). vm_compute.
    repeat split; try discriminate. repeat constructor; discriminate.
  - reflexivity.
  - unfold serving. simpl. constructor.
  - vm_compute. discriminate.
Defined.

(** C3: the separator flag is false right after [json_gen_str_start] and
    after every call that opens a container, and true after every scalar
    encoder, every raw fragment and every call that closes a container,
    whatever the machine and the arguments were. *)
Theorem separator_flag_after :
  (forall cb p w, exists w',
      json_gen_str_start cb p w = Ok tt w' /\ comma_req (gen w') = false) /\
  (forall o w r w', run_open o w = Ok r w' -> comma_req (gen w') = false) /\
  (forall o w r w', run_scalar o w = Ok r w' -> comma_req (gen w') = true) /\
  (forall o w r w', run_raw o w = Ok r w' -> comma_req (gen w') = true) /\
  (forall o w r w', run_close o w = Ok r w' -> comma_req (gen w') = true).
Proof.
  split; [|split; [|split; [|split]]].
  - intros cb p w.
    destruct (str_start_runs cb p w) as (w' & Hrun & Hc & _).
    exists w'. split; assumption.
  - intros o w r w' H. apply (moves_open o w r w' H).
  - intros o w r w' H. apply (moves_scalar o w r w' H).
  - intros o w r w' H. apply (moves_raw o w r w' H).
  - intros o w r w' H. apply (moves_close o w r w' H).
Qed.

Lemma separator_flag_after_witness :
  comma_req (gen fresh) = false /\
  comma_req (gen (after (run_open (PushArray (Some "arr"%string))) fresh)) = false /\
  comma_req (gen (after (run_scalar (ArrSetInt 25)) in_array)) = true /\
  comma_req (gen (after (run_scalar (ArrSetString (Some long_value))) tight_array))
    = true /\
  comma_req (gen (after (run_raw (PushObjectStr (Some "o"%string) (Some "{}"%string)))
                    fresh)) = true /\
  comma_req (gen (after (run_close EndArray) in_array)) = true.
Proof.
  destruct separator_flag_after as (Hstart & Hopen & Hscalar & Hraw & Hclose).
  split; [|split; [|split; [|split; [|split]]]].
  - destruct (Hstart (Some 7) 9 boot) as (w' & Hrun & Hc).
    unfold fresh, after. rewrite Hrun. exact Hc.
  - apply (Hopen (PushArray (Some "arr"%string)) fresh 0). vm_compute. reflexivity.
  - apply (Hscalar (ArrSetInt 25) in_array 0). vm_compute. reflexivity.
  - apply (Hscalar (ArrSetString (Some long_value)) tight_array 0).
    vm_compute. reflexivity.
  - apply (Hraw (PushObjectStr (Some "o"%string) (Some "{}"%string)) fresh 0).
    vm_compute. reflexivity.
  - apply (Hclose EndArray in_array 0). vm_compute. reflexivity.
Defined.

(** C4: when an append needs more than the capacity (committed length +
    fragment length + 1 > capacity), a served request leaves a block of
    exactly that required length plus 250 cells, the capacity field equal to
    it, the committed characters where they were and the fragment behind
    them; a refused request makes the append return -1 and leaves the whole
    generator (committed length, buffer, capacity) as it was. *)
Theorem growth_policy (w : world) (txt : list ascii) (s : string) :
  holds (gen w) txt ->
  buf_size (gen w) < total_len (gen w) + strlen s + 1 ->
  total_len (gen w) + strlen s + 1 + MEM_CHUNK_SIZE <= INT_MAX ->
  if next_served w
  then exists (w' : world) (b' : list (option ascii)),
         json_gen_add_to_str (Some s) w = Ok 0 w' /\
         buf (gen w') = Some b' /\
         Z.of_nat (List.length b') = total_len (gen w) + strlen s + 1 + 250 /\
         buf_size (gen w') = total_len (gen w) + strlen s + 1 + 250 /\
         firstn (List.length txt) b' = map Some txt /\
         holds (gen w') (txt ++ c_chars s)
  else exists w' : world,
         json_gen_add_to_str (Some s) w = Ok (-1) w' /\
         gen w' = gen w.
Proof.
  intros Hh Hneed Hmax. destruct (next_served w) eqn:Hs.
  - destruct (add_to_str_grow w txt s Hh Hneed Hmax Hs)
      as (w' & Hrun & Hh' & Hbs & _).
    destruct (holds_prefix _ _ _ Hh') as (b' & Hb & Hlen & Hpre).
    exists w', b'. unfold MEM_CHUNK_SIZE in Hbs.
    repeat split; auto. rewrite Hlen. exact Hbs.
  - destruct (add_to_str_refused w txt s Hh Hneed Hmax Hs)
      as (w' & Hrun & Hg & _).
    exists w'. split; assumption.
Qed.

Lemma growth_policy_witness :
  (exists (w' : world) (b' : list (option ascii)),
     json_gen_add_to_str (Some long_value) fresh = Ok 0 w' /\
     buf (gen w') = Some b' /\
     Z.of_nat (List.length b') = total_len (gen fresh) + strlen long_value + 1 + 250 /\
     buf_size (gen w') = total_len (gen fresh) + strlen long_value + 1 + 250 /\
     firstn (List.length (@nil ascii)) b' = map Some [] /\
     holds (gen w') ([] ++ c_chars long_value)) /\
  (exists w' : world,
     json_gen_add_to_str (Some long_value) fresh_tight = Ok (-1) w' /\
     gen w' = gen fresh_tight).
Proof.
  split.
  - apply (growth_policy fresh [] long_value).
    + exists (repeat None 250). vm_compute.
      repeat split; try discriminate. constructor.
    + vm_compute. reflexivity.
    + vm_compute. discriminate.
  - apply (growth_policy fresh_tight [] long_value).
    + exists (repeat None 250). vm_compute.
      repeat split; try discriminate. constructor.
    + vm_compute. reflexivity.
    + vm_compute. discriminate.
Defined.

(** C5, as amended: an emission returns the result of its last append and
    nothing else: whenever it returns [r], its lead-in (separator, key,
    opening quote, string content; their results are dropped) ran to some
    machine from which the last append returned that same [r], which is 0 or
    -1; when it is -1 the last append wrote nothing. *)
Theorem result_is_last_append (e : emission) (w : world) (r : Z) (w' : world) :
  run_emission e w = Ok r w' ->
  exists w1 : world,
    lead_in e w = Ok tt w1 /\
    json_gen_add_to_str (last_fragment e) w1 = Ok r w' /\
    (r = 0 \/ r = -1) /\
    (r = -1 -> gen w' = gen w1).
Proof.
  intros H. rewrite emission_split in H.
  apply bind_inv in H. destruct H as ([] & w1 & Hlead & Hlast).
  exists w1. split; [exact Hlead|]. split; [exact Hlast|].
  apply add_to_str_inv in Hlast. destruct Hlast as (_ & H01 & Hfail & _).
  split; assumption.
Qed.

Lemma result_is_last_append_witness :
  exists w' w1 : world,
    run_emission (Scalar (ArrSetBool true)) tight_member = Ok (-1) w' /\
    lead_in (Scalar (ArrSetBool true)) tight_member = Ok tt w1 /\
    json_gen_add_to_str (last_fragment (Scalar (ArrSetBool true))) w1 = Ok (-1) w' /\
    (-1 = 0 \/ -1 = -1) /\
    (-1 = -1 -> gen w' = gen w1).
Proof.
  eexists.
  assert (Hrun : run_emission (Scalar (ArrSetBool true)) tight_member
                 = Ok (-1) (after (run_emission (Scalar (ArrSetBool true))) tight_member))
    by (vm_compute; reflexivity).
  destruct (result_is_last_append _ _ _ _ Hrun) as (w1 & H1 & H2 & H3 & H4).
  exists w1. split; [exact Hrun|]. repeat split; assumption.
Defined.

(** C5, refuted as stated: in an array just opened, with the heap refusing
    to grow the block, [json_gen_arr_set_string] of a 300-character value
    appends the opening quote, fails to append the value (that append
    returns -1), appends the closing quote and returns 0; the buffer then
    holds an opening bracket and two quotes. *)
Lemma dropped_failure_returns_success :
  exists w1 w2 w3 : world,
    (json_gen_handle_comma ;; modify (set_comma_req true) ;;
     json_gen_add_to_str (Some lit_quote)) tight_array = Ok 0 w1 /\
    json_gen_add_to_str (Some long_value) w1 = Ok (-1) w2 /\
    json_gen_add_to_str (Some lit_quote) w2 = Ok 0 w3 /\
    json_gen_arr_set_string (Some long_value) tight_array = Ok 0 w3 /\
    buffer_text w3 = Some ("[" ++ lit_quote ++ lit_quote)%string.
Proof.
  eexists. eexists. eexists.
  split; [vm_compute; reflexivity|].
  split; [vm_compute; reflexivity|].
  split; [vm_compute; reflexivity|].
  split; vm_compute; reflexivity.
Qed.

(** C6, as amended: every scalar encoder (bool, int, int64, float, string,
    null, long-string begin, as object member or array element) returns 0 or
    -1 and leaves the separator flag true in both cases, whatever the flag
    was before: the flag is set before the text is appended. *)
Theorem scalar_flag_set_regardless (o : scalar_op) (w : world) (r : Z) (w' : world) :
  run_scalar o w = Ok r w' ->
  (r = 0 \/ r = -1) /\ comma_req (gen w') = true.
Proof.
  intros H. split.
  - exact (answers_emission (Scalar o) w r w' H).
  - apply (moves_scalar o w r w' H).
Qed.

Lemma scalar_flag_set_regardless_witness :
  (-1 = 0 \/ -1 = -1) /\
  comma_req (gen (after (run_scalar (ArrSetBool true)) tight_member)) = true.
Proof.
  apply (scalar_flag_set_regardless (ArrSetBool true) tight_member (-1)).
  vm_compute. reflexivity.
Defined.

(** C6, refuted as stated: in an array just opened under a long key the flag
    is false; with the heap refusing to grow the block,
    [json_gen_arr_set_bool] fails (returns -1) and the flag is true
    afterwards. *)
Lemma failed_encoder_changes_flag :
  comma_req (gen tight_member) = false /\
  exists w' : world,
    json_gen_arr_set_bool true tight_member = Ok (-1) w' /\
    comma_req (gen w') = true /\
    comma_req (gen w') <> comma_req (gen tight_member).
Proof.
  split; [vm_compute; reflexivity|].
  eexists. split; [vm_compute; reflexivity|].
  split; [reflexivity|]. vm_compute. discriminate.
Qed.

(** C7, as amended: for every generator started with callback [cb] and
    context [p].  When it has its buffer, finalization stores the terminator
    at the committed length, calls the callback once when there is one
    (never otherwise) with the buffer, whose string is the committed text,
    and with [p], makes no call of [free] and leaves the buffer allocated
    with the committed text in place.  When it has none (the [malloc] of the
    start was refused), finalization stores nothing and calls nothing, the
    callback being registered or not.  In both cases it returns the
    committed length plus one. *)
Theorem finalize_contract (cb : option fnptr) (p : voidptr) (w : world) :
  reachable cb p w ->
  match buf (gen w) with
  | Some _ =>
      exists (txt : list ascii) (b' : list (option ascii)),
        holds (gen w) txt /\
        json_gen_str_end w
        = Ok (total_len (gen w) + 1)
             (mk_world (set_buf (Some b') (gen w)) (allocs w)
                (events w ++ match cb with
                             | Some f => [EvFlush f b' p]
                             | None => []
                             end)) /\
        nth_error b' (Z.to_nat (total_len (gen w))) = Some (Some NUL) /\
        c_string_at b' = Some txt /\
        holds (set_buf (Some b') (gen w)) txt
  | None =>
      flush_cb (gen w) = cb /\
      total_len (gen w) = 0 /\
      json_gen_str_end w = Ok (total_len (gen w) + 1) w
  end.
Proof.
  intros Hr.
  destruct (reachable_setup cb p w Hr) as (Hf & Hp & _).
  destruct (buf (gen w)) as [b|] eqn:Hb.
  - destruct (reachable_holds cb p w Hr) as (txt & Hh).
    { rewrite Hb. discriminate. }
    destruct (holds_range _ _ Hh) as (Htl & _).
    destruct (str_end_holds w txt Hh) as (b' & Hrun & Hh' & Hstr & Hnth & _).
    exists txt, b'. rewrite Hrun, Hf, Hp, Htl, Nat2Z.id.
    repeat split; assumption.
  - destruct (reachable_sound cb p w Hr) as [(txt & rest & Hsome & _)|(_ & Htl & _)].
    + rewrite Hb in Hsome. discriminate.
    + split; [exact Hf|]. split; [exact Htl|].
      rewrite Htl. apply str_end_unallocated; assumption.
Qed.

Lemma finalize_contract_witness :
  exists (txt : list ascii) (b' : list (option ascii)),
    holds (gen fresh) txt /\
    json_gen_str_end fresh
    = Ok (total_len (gen fresh) + 1)
         (mk_world (set_buf (Some b') (gen fresh)) (allocs fresh)
            (events fresh ++ [EvFlush 7 b' 9])) /\
    nth_error b' (Z.to_nat (total_len (gen fresh))) = Some (Some NUL) /\
    c_string_at b' = Some txt /\
    holds (set_buf (Some b') (gen fresh)) txt.
Proof.
  apply (finalize_contract (Some 7) 9 fresh).
  apply (reach_start (Some 7) 9 boot). vm_compute. reflexivity.
Defined.

(** C7, refuted as stated: [json_gen_str_start] with the callback 7 and the
    context 9, its [malloc] refused, returns and leaves an initialized
    generator with the callback registered and no buffer; finalization there
    returns 1, stores no terminator and makes no call of the callback. *)
Lemma refused_start_finalize_calls_nothing :
  json_gen_str_start (Some 7) 9 boot_refused = Ok tt fresh_refused /\
  reachable (Some 7) 9 fresh_refused /\
  flush_cb (gen fresh_refused) = Some 7 /\
  exists w' : world,
    json_gen_str_end fresh_refused = Ok 1 w' /\
    buf (gen w') = None /\
    events w' = [] /\
    (forall mem ctx, ~ In (EvFlush 7 mem ctx) (events w')).
Proof.
  split; [vm_compute; reflexivity|].
  split; [apply (reach_start (Some 7) 9 boot_refused); vm_compute; reflexivity|].
  split; [vm_compute; reflexivity|].
  eexists. split; [vm_compute; reflexivity|].
  split; [reflexivity|]. split; [reflexivity|].
  intros mem ctx [].
Qed.



(** C9: with every allocation served, the 64-bit encoders append exactly the
    text [-102030405060708090] for the value -102030405060708090, sign and
    all digits: behind the pending separator for an array element, behind
    the separator and the quoted key for an object member ([long] being the
    64-bit type of [LONG_BITS]). *)
Theorem int64_text_exact (name : option string) (w : world) (txt : list ascii) :
  holds (gen w) txt ->
  serving w ->
  Z.of_nat (List.length txt) + Z.of_nat (List.length (arg_chars name)) + 24
    + MEM_CHUNK_SIZE <= INT_MAX ->
  (exists w',
     json_gen_arr_set_int64 (-102030405060708090) w = Ok 0 w' /\
     holds (gen w')
       (txt ++ separator (comma_req (gen w))
            ++ list_ascii_of_string "-102030405060708090")) /\
  (exists w',
     json_gen_obj_set_int64 name (-102030405060708090) w = Ok 0 w' /\
     holds (gen w')
       (txt ++ separator (comma_req (gen w)) ++ name_text name
            ++ list_ascii_of_string "-102030405060708090")).
Proof.
  intros Hh Hsv Hmax. split.
  - destruct (emits_scalar (ArrSetInt64 (-102030405060708090)) (comma_req (gen w))
                w txt Hh Hsv eq_refl) as (r & w' & Hrun & Hr & Hh' & _).
    { rewrite length_app.
      change (List.length (scalar_text (ArrSetInt64 (-102030405060708090))))
        with 19%nat.
      destruct (comma_req (gen w)); simpl List.length; lia. }
    exists w'. unfold succeeded in Hr. subst r. split; [exact Hrun|exact Hh'].
  - destruct (emits_scalar (ObjSetInt64 name (-102030405060708090))
                (comma_req (gen w)) w txt Hh Hsv eq_refl)
      as (r & w' & Hrun & Hr & Hh' & _).
    { cbn [scalar_text]. rewrite !length_app.
      change (List.length
                (c_chars (snprintf_ld LONG_BITS (to_signed 64 (-102030405060708090)))))
        with 19%nat.
      unfold name_text. simpl List.length. rewrite length_app. simpl List.length.
      destruct (comma_req (gen w)); simpl List.length; lia. }
    exists w'. unfold succeeded in Hr. subst r. split; [exact Hrun|].
    exact Hh'.
Qed.

Lemma int64_text_exact_witness :
  (exists w',
     json_gen_arr_set_int64 (-102030405060708090) in_array = Ok 0 w' /\
     holds (gen w')
       (c_chars "[" ++ separator (comma_req (gen in_array))
            ++ list_ascii_of_string "-102030405060708090")) /\
  (exists w',
     json_gen_obj_set_int64 (Some "first_int64"%string) (-102030405060708090) in_array
     = Ok 0 w' /\
     holds (gen w')
       (c_chars "[" ++ separator (comma_req (gen in_array))
            ++ name_text (Some "first_int64"%string)
            ++ list_ascii_of_string "-102030405060708090")).
Proof.
  apply (int64_text_exact (Some "first_int64"%string) in_array (c_chars "[")).
  - exists (Some NUL :: repeat None 248). vm_compute.
    repeat split; try discriminate. repeat constructor; discriminate.
  - unfold serving. simpl. constructor.
  - vm_compute. discriminate.
Defined.

(** C10, as amended: finalizing a generator started with callback [cb] and
    context [p] changes neither the committed length nor the separator flag
    nor a committed character; a second finalization right after the first
    returns the same value and leaves the generator, buffer included,
    exactly as the first left it.  When the generator has its buffer, each
    of the two makes the same single callback call when a callback is
    registered; when it has none (the [malloc] of the start was refused),
    neither makes any call and the machine is left as it was. *)
Theorem finalize_twice (cb : option fnptr) (p : voidptr) (w : world) :
  reachable cb p w ->
  exists (r : Z) (w1 w2 : world),
    r = total_len (gen w) + 1 /\
    json_gen_str_end w = Ok r w1 /\
    json_gen_str_end w1 = Ok r w2 /\
    total_len (gen w1) = total_len (gen w) /\
    comma_req (gen w1) = comma_req (gen w) /\
    gen w2 = gen w1 /\
    match buf (gen w) with
    | Some _ =>
        exists (txt : list ascii) (b1 : list (option ascii)),
          holds (gen w) txt /\
          holds (gen w1) txt /\
          buf (gen w1) = Some b1 /\
          events w1 = events w ++ flush_events cb b1 p /\
          events w2 = events w1 ++ flush_events cb b1 p
    | None => w1 = w /\ w2 = w
    end.
Proof.
  intros Hr.
  destruct (reachable_setup cb p w Hr) as (Hf & Hp & _).
  destruct (reachable_sound cb p w Hr) as [(txt & Hh)|(Hb & Htl & _)].
  - destruct (str_end_holds w txt Hh) as (b' & Hrun1 & Hh' & _ & _ & _ & Hrun2).
    destruct (holds_range _ _ Hh) as (Hlen & _).
    pose proof Hh as (rest & Hsome & _).
    eexists. eexists. eexists.
    split; [rewrite Hlen; reflexivity|].
    split; [exact Hrun1|]. split; [exact Hrun2|].
    rewrite Hsome. simpl. rewrite Hf, Hp.
    repeat split. exists txt, b'. repeat split; assumption.
  - pose proof (str_end_unallocated w Hb Htl) as Hrun.
    exists 1, w, w. rewrite Hb, Htl. repeat split; assumption.
Qed.

Lemma finalize_twice_witness :
  exists (r : Z) (w1 w2 : world),
    r = total_len (gen fresh) + 1 /\
    json_gen_str_end fresh = Ok r w1 /\
    json_gen_str_end w1 = Ok r w2 /\
    total_len (gen w1) = total_len (gen fresh) /\
    comma_req (gen w1) = comma_req (gen fresh) /\
    gen w2 = gen w1 /\
    exists (txt : list ascii) (b1 : list (option ascii)),
      holds (gen fresh) txt /\
      holds (gen w1) txt /\
      buf (gen w1) = Some b1 /\
      events w1 = events fresh ++ flush_events (Some 7) b1 9 /\
      events w2 = events w1 ++ flush_events (Some 7) b1 9.
Proof.
  apply (finalize_twice (Some 7) 9 fresh).
  apply (reach_start (Some 7) 9 boot). vm_compute. reflexivity.
Defined.

(** C10, refuted as stated: on the initialized generator a start with the
    callback 7 and a refused [malloc] leaves, two finalizations in a row
    both return 1 and the callback, though registered, is called by neither
    of them. *)
Lemma refused_start_finalize_twice_calls_nothing :
  reachable (Some 7) 9 fresh_refused /\
  flush_cb (gen fresh_refused) = Some 7 /\
  exists w1 w2 : world,
    json_gen_str_end fresh_refused = Ok 1 w1 /\
    json_gen_str_end w1 = Ok 1 w2 /\
    events w1 = events fresh_refused /\
    events w2 = events fresh_refused /\
    (forall mem ctx, ~ In (EvFlush 7 mem ctx) (events w2)).
Proof.
  split; [apply (reach_start (Some 7) 9 boot_refused); vm_compute; reflexivity|].
  split; [vm_compute; reflexivity|].
  eexists. eexists. split; [vm_compute; reflexivity|].
  split; [vm_compute; reflexivity|].
  split; [reflexivity|]. split; [reflexivity|].
  intros mem ctx [].
Qed.

(* ------------------------------------------------------------------ *)
(** ** Further properties: appends *)

Lemma c_string_at_text (txt : list ascii) (r : list (option ascii)) :
  no_nul txt -> c_string_at (map Some txt ++ Some NUL :: r) = Some txt.
Proof. intros H. exact (c_string_at_terminated txt (None :: r) H). Qed.

(** The copy of [add_the_string] when the block has room leaves a
    terminated string. *)
Lemma add_the_string_readable (w : world) (txt : list ascii) (s : string) :
  holds (gen w) txt ->
  Z.of_nat (List.length txt) + strlen s + 1 <= buf_size (gen w) ->
  exists w',
    add_the_string s (strlen s) w = Ok 0 w' /\
    readable (gen w') (txt ++ c_chars s) /\
    buf_size (gen w') = buf_size (gen w) /\
    same_setup w w' /\
    allocs w' = allocs w.
Proof.
  intros Hh Hroom.
  destruct (add_the_string_holds w txt s Hh Hroom) as (w' & Hrun & Hh' & Hbs & Hset & Hal).
  exists w'. split; [exact Hrun|]. split; [|auto].
  split; [exact Hh'|].
  destruct w as [[b bs fp tl cr cb pv] al ev]. simpl in *.
  destruct Hh as (rest & Hb & Htl & Hfp & Hbs0 & Hlt & Hmax & Hnn).
  simpl in *. subst b tl fp.
  assert (Hlen : (List.length (c_chars s ++ [NUL]) <= List.length rest)%nat).
  { rewrite length_app. simpl. unfold strlen in Hroom. lia. }
  revert Hrun.
  unfold add_the_string, strcpy, store_chars, bind, load, modify. simpl.
  rewrite (write_cells_append txt (c_chars s ++ [NUL]) rest Hlen). simpl.
  rewrite int_of_ok by (unfold strlen, INT_MIN in *; lia).
  unfold ret. intros Hrun. inversion Hrun; subst w'. simpl.
  eexists. split; [reflexivity|].
  rewrite app_assoc, map_app, <- app_assoc. simpl.
  apply c_string_at_text. apply no_nul_app; [assumption|apply c_chars_no_nul].
Qed.

(** The two ways an append to a well-formed generator ends. *)
Lemma add_to_str_cases (a : option string) (w : world) (txt : list ascii)
    (r : Z) (w' : world) :
  holds (gen w) txt ->
  json_gen_add_to_str a w = Ok r w' ->
  (r = 0 /\
   holds (gen w') (txt ++ arg_chars a) /\
   (a <> None -> readable (gen w') (txt ++ arg_chars a)) /\
   buf_size (gen w) <= buf_size (gen w') /\
   (readable (gen w) txt -> readable (gen w') (txt ++ arg_chars a))) \/
  (r = -1 /\ gen w' = gen w /\ next_served w = false /\
   buf_size (gen w) < total_len (gen w) + Z.of_nat (List.length (arg_chars a)) + 1).
Proof.
  intros Hh H. destruct a as [s|]; simpl in H.
  2:{ unfold ret in H. inversion H; subst. left. simpl. rewrite app_nil_r.
      split; [reflexivity|]. split; [exact Hh|].
      split; [intros C; exfalso; apply C; reflexivity|].
      split; [lia|]. intros Hr; exact Hr. }
  destruct (holds_range _ _ Hh) as (Htl & Hr0 & Hmax0).
  apply bind_inv in H. destruct H as (len & w1 & Hlen & H).
  apply int_of_inv in Hlen. destruct Hlen as (-> & -> & Hr1).
  apply bind_inv in H. destruct H as (j & w1 & Hj & H).
  unfold load in Hj. inversion Hj; subst j w1. clear Hj.
  apply bind_inv in H. destruct H as (req & w1 & Hreq & H).
  apply int_of_inv in Hreq. destruct Hreq as (-> & -> & Hr2).
  destruct (buf_size (gen w) <? total_len (gen w) + strlen s + 1) eqn:Hcmp.
  - apply Z.ltb_lt in Hcmp.
    apply bind_inv in H. destruct H as (nsz & w1 & Hn & H).
    apply int_of_inv in Hn. destruct Hn as (-> & -> & Hr3).
    apply bind_inv in H. destruct H as (nb & w1 & Hre & H).
    apply realloc_inv in Hre. destruct Hre as (Hg & _ & _ & Hnb).
    destruct (next_served w) eqn:Hsv; subst nb.
    + apply bind_inv in H. destruct H as (u1 & w2 & H1 & H).
      apply bind_inv in H. destruct H as (u2 & w3 & H2 & H).
      apply bind_inv in H. destruct H as (u3 & w4 & H3 & H).
      unfold modify in H1, H2, H3. inversion H1; inversion H2; inversion H3; subst.
      clear H1 H2 H3. simpl in H. rewrite Hg in H.
      set (n := total_len (gen w) + strlen s + 1 + MEM_CHUNK_SIZE) in *.
      match type of H with
      | add_the_string _ _ ?x = _ => set (w4 := x) in *
      end.
      assert (Hh4 : holds (gen w4) txt).
      { pose proof Hh as (rest & Hb & _).
        unfold w4. simpl. rewrite Hb.
        apply (holds_grown (gen w) txt n _ Hh Hb);
          unfold n, MEM_CHUNK_SIZE in *; lia. }
      destruct (add_the_string_readable w4 txt s Hh4) as (w5 & Hrun & Hr5 & Hbs5 & _).
      { unfold w4. simpl. unfold n, MEM_CHUNK_SIZE in *. lia. }
      rewrite Hrun in H. inversion H; subst. left. simpl.
      split; [reflexivity|]. split; [apply Hr5|]. split; [intros _; exact Hr5|].
      split; [|intros _; exact Hr5].
      rewrite Hbs5. unfold w4. simpl. unfold n, MEM_CHUNK_SIZE. lia.
    + unfold ret in H. inversion H; subst. right. simpl.
      repeat split; auto; unfold strlen in Hcmp; exact Hcmp.
  - apply Z.ltb_ge in Hcmp.
    destruct (add_the_string_readable w txt s Hh) as (w5 & Hrun & Hr5 & Hbs5 & _).
    { lia. }
    rewrite Hrun in H. inversion H; subst. left. simpl.
    split; [reflexivity|]. split; [apply Hr5|]. split; [intros _; exact Hr5|].
    split; [lia|intros _; exact Hr5].
Qed.

(** X1 (json_gen_add_to_str): an append to a well-formed generator is all
    or nothing.  When it returns 0 the whole fragment stands behind the old
    text, a terminator behind it, and the capacity has not shrunk; when it
    returns -1 the generator is exactly as before, and this happens only
    when the fragment did not fit and the allocator refused to grow the
    block.  No other result exists. *)
Theorem append_all_or_nothing (s : string) (w : world) (txt : list ascii)
    (r : Z) (w' : world) :
  holds (gen w) txt ->
  json_gen_add_to_str (Some s) w = Ok r w' ->
  (r = 0 /\
   readable (gen w') (txt ++ c_chars s) /\
   buf_size (gen w) <= buf_size (gen w')) \/
  (r = -1 /\
   gen w' = gen w /\
   next_served w = false /\
   buf_size (gen w) < total_len (gen w) + strlen s + 1).
Proof.
  intros Hh H.
  destruct (add_to_str_cases (Some s) w txt r w' Hh H)
    as [(Hr & _ & Hrd & Hbs & _)|(Hr & Hg & Hsv & Hneed)].
  - left. split; [exact Hr|]. split; [apply Hrd; discriminate|exact Hbs].
  - right. repeat split; assumption.
Qed.

Lemma append_all_or_nothing_witness :
  (0 = 0 /\
   readable (gen (after (json_gen_add_to_str (Some long_value)) fresh))
     ([] ++ c_chars long_value) /\
   buf_size (gen fresh)
   <= buf_size (gen (after (json_gen_add_to_str (Some long_value)) fresh))) \/
  (0 = -1 /\
   gen (after (json_gen_add_to_str (Some long_value)) fresh) = gen fresh /\
   next_served fresh = false /\
   buf_size (gen fresh) < total_len (gen fresh) + strlen long_value + 1).
Proof.
  apply (append_all_or_nothing long_value fresh []).
  - exists (repeat None 250). vm_compute.
    repeat split; try discriminate. constructor.
  - vm_compute. reflexivity.
Defined.

(** X2 (json_gen_add_to_str): a null pointer or an empty string appends
    nothing and cannot fail: on a well-formed generator the call returns 0
    without consulting the allocator, whatever the allocator would answer,
    and the committed text, the capacity and the flag are the old ones (an
    empty string still stores a terminator behind the text). *)
Theorem append_of_nothing (a : option string) (w : world) (txt : list ascii) :
  holds (gen w) txt ->
  arg_chars a = [] ->
  exists w',
    json_gen_add_to_str a w = Ok 0 w' /\
    holds (gen w') txt /\
    total_len (gen w') = total_len (gen w) /\
    buf_size (gen w') = buf_size (gen w) /\
    comma_req (gen w') = comma_req (gen w) /\
    allocs w' = allocs w /\
    events w' = events w /\
    (a = None -> w' = w).
Proof.
  intros Hh Ha. destruct a as [s|].
  - simpl in Ha.
    destruct (holds_range _ _ Hh) as (Htl & Hr & _).
    destruct (add_to_str_room w txt s Hh) as (w' & Hrun & Hh' & Hbs & Hset & Hal).
    { unfold strlen. rewrite Ha. simpl. lia. }
    rewrite Ha, app_nil_r in Hh'.
    exists w'. destruct Hset as (Hc & _ & _ & He).
    destruct (holds_range _ _ Hh') as (Htl' & _).
    repeat split; auto; try congruence; discriminate.
  - exists w. unfold json_gen_add_to_str, ret.
    repeat split; auto.
Qed.

Lemma append_of_nothing_witness :
  exists w',
    json_gen_add_to_str (Some ""%string) tight_member = Ok 0 w' /\
    holds (gen w') (c_chars ("{" ++ lit_quote ++ long_name ++ lit_quote ++ ":[")) /\
    total_len (gen w') = total_len (gen tight_member) /\
    buf_size (gen w') = buf_size (gen tight_member) /\
    comma_req (gen w') = comma_req (gen tight_member) /\
    allocs w' = allocs tight_member /\
    events w' = events tight_member /\
    (Some ""%string = None -> w' = tight_member).
Proof.
  apply (append_of_nothing (Some ""%string) tight_member).
  - exists [Some NUL; None]. vm_compute.
    repeat split; try discriminate. repeat constructor; discriminate.
  - reflexivity.
Defined.

(** X3 (json_gen_get_empty_len, json_gen_add_to_str): on a well-formed
    generator [json_gen_get_empty_len] returns the capacity minus the
    committed length minus one, which is not negative, and it is the exact
    threshold of the growth test: a fragment no longer than it is appended
    with the allocator untouched (so the call cannot fail and the capacity
    stays), a longer one makes the call consume one allocation request. *)
Theorem empty_len_is_threshold (s : string) (w : world) (txt : list ascii) :
  holds (gen w) txt ->
  total_len (gen w) + strlen s + 1 + MEM_CHUNK_SIZE <= INT_MAX ->
  exists (room : Z) (r : Z) (w' : world),
    json_gen_get_empty_len w = Ok room w /\
    room = buf_size (gen w) - total_len (gen w) - 1 /\
    0 <= room /\
    json_gen_add_to_str (Some s) w = Ok r w' /\
    (strlen s <= room ->
     r = 0 /\ allocs w' = allocs w /\ buf_size (gen w') = buf_size (gen w) /\
     holds (gen w') (txt ++ c_chars s)) /\
    (room < strlen s -> allocs w' = tl (allocs w)).
Proof.
  intros Hh Hmax.
  pose proof Hh as (rest & Hb & Htl & Hfp & Hbs & Hlt & Hbmax & Hnn).
  exists (buf_size (gen w) - total_len (gen w) - 1).
  assert (Hlen : json_gen_get_empty_len w
                 = Ok (buf_size (gen w) - total_len (gen w) - 1) w).
  { unfold json_gen_get_empty_len, bind, load. rewrite Hfp.
    apply int_of_ok. unfold INT_MIN. lia. }
  destruct (Z_lt_le_dec (buf_size (gen w)) (total_len (gen w) + strlen s + 1))
    as [Hneed|Hroom].
  - destruct (next_served w) eqn:Hsv.
    + destruct (add_to_str_grow w txt s Hh Hneed Hmax Hsv)
        as (w' & Hrun & _ & _ & _ & Hal).
      exists 0, w'. repeat split; auto; try lia.
    + destruct (add_to_str_refused w txt s Hh Hneed Hmax Hsv)
        as (w' & Hrun & _ & _ & Hal).
      exists (-1), w'. repeat split; auto; try lia.
  - destruct (add_to_str_room w txt s Hh Hroom)
      as (w' & Hrun & Hh' & Hbs' & _ & Hal).
    exists 0, w'. repeat split; auto; try lia.
Qed.

Lemma empty_len_is_threshold_witness :
  exists (room : Z) (r : Z) (w' : world),
    json_gen_get_empty_len fresh_tight = Ok room fresh_tight /\
    room = buf_size (gen fresh_tight) - total_len (gen fresh_tight) - 1 /\
    0 <= room /\
    json_gen_add_to_str (Some fill_value) fresh_tight = Ok r w' /\
    (strlen fill_value <= room ->
     r = 0 /\ allocs w' = allocs fresh_tight /\
     buf_size (gen w') = buf_size (gen fresh_tight) /\
     holds (gen w') ([] ++ c_chars fill_value)) /\
    (room < strlen fill_value -> allocs w' = tl (allocs fresh_tight)).
Proof.
  apply (empty_len_is_threshold fill_value fresh_tight []).
  - exists (repeat None 250). vm_compute.
    repeat split; try discriminate. constructor.
  - vm_compute. discriminate.
Defined.

(* ------------------------------------------------------------------ *)
(** ** Further properties: what the emissions keep *)

(** A property of computations that sequencing keeps and that the building
    blocks of the emissions have holds of every emission and of its
    lead-in. *)
Lemma emission_closure (P : forall A : Type, M A -> Prop) :
  (forall (A B : Type) (m : M A) (k : A -> M B),
      P A m -> (forall a, P B (k a)) -> P B (bind m k)) ->
  (forall (A : Type) (a : A), P A (ret a)) ->
  (forall a, P Z (json_gen_add_to_str a)) ->
  (forall b, P unit (modify (set_comma_req b))) ->
  P unit json_gen_handle_comma ->
  forall e, P Z (run_emission e) /\ P unit (lead_in e).
Proof.
  intros Hbind Hret Hadd Hset Hcomma e.
  assert (Hname : forall name, P Z (json_gen_handle_name name)).
  { intros name. unfold json_gen_handle_name.
    repeat first [ apply Hadd | apply Hbind; [|intro] ]. }
  split.
  - destruct e as [o|o|o|o|v|]; cbn [run_emission].
    + destruct o as [name [|]|[|]|name v|v|name v|v|name v|v|name v|v|name| |name v|v];
        cbn [run_scalar];
        unfold json_gen_obj_set_bool, json_gen_arr_set_bool, json_gen_set_bool,
          json_gen_obj_set_int, json_gen_arr_set_int, json_gen_set_int,
          json_gen_obj_set_int64, json_gen_arr_set_int64, json_gen_set_int64,
          json_gen_obj_set_float, json_gen_arr_set_float, json_gen_set_float,
          json_gen_obj_set_string, json_gen_arr_set_string, json_gen_set_string,
          json_gen_obj_set_null, json_gen_arr_set_null, json_gen_set_null,
          json_gen_obj_start_long_string, json_gen_arr_start_long_string,
          json_gen_set_long_string;
        repeat first [ apply Hadd | apply Hcomma | apply Hname | apply Hset
                     | apply Hbind; [|intro] ].
    + destruct o; cbn [run_open];
        unfold json_gen_start_object, json_gen_start_array,
          json_gen_push_object, json_gen_push_array;
        repeat first [ apply Hadd | apply Hcomma | apply Hname | apply Hset
                     | apply Hbind; [|intro] ].
    + destruct o; cbn [run_close];
        unfold json_gen_end_object, json_gen_end_array,
          json_gen_pop_object, json_gen_pop_array;
        repeat first [ apply Hadd | apply Hcomma | apply Hname | apply Hset
                     | apply Hbind; [|intro] ].
    + destruct o; cbn [run_raw];
        unfold json_gen_push_object_str, json_gen_push_array_str;
        repeat first [ apply Hadd | apply Hcomma | apply Hname | apply Hset
                     | apply Hbind; [|intro] ].
    + apply Hadd.
    + apply Hadd.
  - destruct e as [o|o|o|o|v|]; cbn [lead_in].
    + destruct o; cbn [scalar_lead_in];
        repeat first [ apply Hadd | apply Hcomma | apply Hname | apply Hset
                     | apply Hret | apply Hbind; [|intro] ].
    + destruct o;
        repeat first [ apply Hadd | apply Hcomma | apply Hname | apply Hset
                     | apply Hret | apply Hbind; [|intro] ].
    + apply Hset.
    + destruct o;
        repeat first [ apply Hadd | apply Hcomma | apply Hname | apply Hset
                     | apply Hret | apply Hbind; [|intro] ].
    + apply Hret.
    + apply Hret.
Qed.

Lemma extends_bind {A B : Type} (m : M A) (k : A -> M B) :
  extends m -> (forall a, extends (k a)) -> extends (bind m k).
Proof.
  intros Hm Hk w b w' txt Hh H.
  apply bind_inv in H. destruct H as (a & w1 & H1 & H2).
  destruct (Hm w a w1 txt Hh H1) as (more1 & Hh1 & Hb1 & Hr1).
  destruct (Hk a w1 b w' (txt ++ more1) Hh1 H2) as (more2 & Hh2 & Hb2 & Hr2).
  exists (more1 ++ more2). rewrite app_assoc.
  split; [exact Hh2|]. split; [lia|]. intros Hr. apply Hr2, Hr1, Hr.
Qed.

Lemma extends_ret {A : Type} (a : A) : extends (ret a).
Proof.
  intros w b w' txt Hh H. unfold ret in H. inversion H; subst.
  exists []. rewrite app_nil_r. split; [exact Hh|]. split; [lia|auto].
Qed.

Lemma extends_set_comma (b : bool) : extends (modify (set_comma_req b)).
Proof.
  intros w u w' txt Hh H. unfold modify in H. inversion H; subst. simpl.
  exists []. rewrite app_nil_r. split; [exact Hh|]. split; [lia|].
  intros [Hh0 Hb]. split; [exact Hh|exact Hb].
Qed.

Lemma extends_add_to_str (a : option string) : extends (json_gen_add_to_str a).
Proof.
  intros w r w' txt Hh H.
  destruct (add_to_str_cases a w txt r w' Hh H)
    as [(_ & Hh' & _ & Hbs & Hrd)|(_ & Hg & _)].
  - exists (arg_chars a). split; [exact Hh'|]. split; [exact Hbs|exact Hrd].
  - exists []. rewrite app_nil_r, Hg. split; [exact Hh|]. split; [lia|auto].
Qed.

Lemma extends_handle_comma : extends json_gen_handle_comma.
Proof.
  intros w u w' txt Hh H. unfold json_gen_handle_comma in H.
  apply bind_inv in H. destruct H as (j & w1 & Hl & H).
  unfold load in Hl. inversion Hl; subst j w1. clear Hl.
  assert (Hk : extends
                 (if comma_req (gen w)
                  then json_gen_add_to_str (Some ","%string) ;; ret tt
                  else ret tt)).
  { destruct (comma_req (gen w)).
    - apply extends_bind; [apply extends_add_to_str|].
      intros _. apply extends_ret.
    - apply extends_ret. }
  exact (Hk w u w' txt Hh H).
Qed.

Lemma extends_emission (e : emission) :
  extends (run_emission e) /\ extends (lead_in e).
Proof.
  apply (emission_closure (@extends)).
  - intros A B m k. apply extends_bind.
  - intros A a. apply extends_ret.
  - apply extends_add_to_str.
  - apply extends_set_comma.
  - apply extends_handle_comma.
Qed.

Lemma grows_bind {A B : Type} (m : M A) (k : A -> M B) :
  grows m -> (forall a, grows (k a)) -> grows (bind m k).
Proof.
  intros Hm Hk w b w' H.
  apply bind_inv in H. destruct H as (a & w1 & H1 & H2).
  destruct (Hm w a w1 H1). destruct (Hk a w1 b w' H2). lia.
Qed.

Lemma grows_ret {A : Type} (a : A) : grows (ret a).
Proof. intros w b w' H. unfold ret in H. inversion H; subst. lia. Qed.

Lemma grows_set_comma (b : bool) : grows (modify (set_comma_req b)).
Proof. intros w u w' H. unfold modify in H. inversion H; subst. simpl. lia. Qed.

Lemma grows_add_to_str (a : option string) : grows (json_gen_add_to_str a).
Proof.
  intros w r w' H. destruct a as [s|]; simpl in H.
  2:{ unfold ret in H. inversion H; subst. lia. }
  pose proof (strlen_nonneg s) as Hs.
  apply bind_inv in H. destruct H as (len & w1 & Hlen & H).
  apply int_of_inv in Hlen. destruct Hlen as (-> & -> & Hr1).
  apply bind_inv in H. destruct H as (j & w1 & Hj & H).
  unfold load in Hj. inversion Hj; subst j w1. clear Hj.
  apply bind_inv in H. destruct H as (req & w1 & Hreq & H).
  apply int_of_inv in Hreq. destruct Hreq as (-> & -> & Hr2).
  destruct (buf_size (gen w) <? total_len (gen w) + strlen s + 1) eqn:Hcmp.
  - apply Z.ltb_lt in Hcmp.
    apply bind_inv in H. destruct H as (nsz & w1 & Hn & H).
    apply int_of_inv in Hn. destruct Hn as (-> & -> & Hr3).
    apply bind_inv in H. destruct H as (nb & w1 & Hre & H).
    apply realloc_inv in Hre. destruct Hre as (Hg & _ & _ & Hnb).
    destruct nb as [nb|].
    + apply bind_inv in H. destruct H as (u1 & w2 & H1 & H).
      apply bind_inv in H. destruct H as (u2 & w3 & H2 & H).
      apply bind_inv in H. destruct H as (u3 & w4 & H3 & H).
      unfold modify in H1, H2, H3. inversion H1; inversion H2; inversion H3; subst.
      clear H1 H2 H3.
      apply add_the_string_inv in H.
      destruct H as (_ & _ & _ & Hbs & Htl & _). simpl in *.
      rewrite Hg in *. unfold MEM_CHUNK_SIZE in *. lia.
    + unfold ret in H. inversion H; subst. rewrite Hg. lia.
  - apply add_the_string_inv in H.
    destruct H as (_ & _ & _ & Hbs & Htl & _). lia.
Qed.

Lemma grows_handle_comma : grows json_gen_handle_comma.
Proof.
  intros w u w' H. unfold json_gen_handle_comma in H.
  apply bind_inv in H. destruct H as (j & w1 & Hl & H).
  unfold load in Hl. inversion Hl; subst j w1. clear Hl.
  assert (Hk : grows
                 (if comma_req (gen w)
                  then json_gen_add_to_str (Some ","%string) ;; ret tt
                  else ret tt)).
  { destruct (comma_req (gen w)).
    - apply grows_bind; [apply grows_add_to_str|].
      intros _. apply grows_ret.
    - apply grows_ret. }
  exact (Hk w u w' H).
Qed.

Lemma grows_emission (e : emission) : grows (run_emission e).
Proof.
  apply (emission_closure (@grows)).
  - intros A B m k. apply grows_bind.
  - intros A a. apply grows_ret.
  - apply grows_add_to_str.
  - apply grows_set_comma.
  - apply grows_handle_comma.
Qed.

(** X4 (all emission functions): memory safety.  On a well-formed generator
    every emission returns, whatever the allocator answers to each request:
    it makes no store outside the block, no store through a null pointer
    and no overflowing [int] computation, provided the committed length,
    the text of the call, its separator, the terminator and the slack of
    250 stay within [INT_MAX].  It returns 0 or -1, leaves a well-formed
    generator, and commits at most its own text and one comma. *)
Theorem emission_never_faults (e : emission) (w : world) (txt : list ascii) :
  holds (gen w) txt ->
  Z.of_nat (List.length txt) + Z.of_nat (S (List.length (emission_text e))) + 1
    + MEM_CHUNK_SIZE <= INT_MAX ->
  exists (r : Z) (w' : world) (txt' : list ascii),
    run_emission e w = Ok r w' /\
    (r = 0 \/ r = -1) /\
    holds (gen w') txt' /\
    (List.length txt <= List.length txt'
     <= List.length txt + S (List.length (emission_text e)))%nat.
Proof.
  intros Hh Hmax.
  destruct (emission_returns e w txt Hh Hmax) as (r & w' & txt' & Hrun & Hh' & Hlen).
  exists r, w', txt'. split; [exact Hrun|].
  split; [exact (answers_emission e w r w' Hrun)|]. split; assumption.
Qed.

Lemma emission_never_faults_witness :
  exists (r : Z) (w' : world) (txt' : list ascii),
    run_emission (Scalar (ObjSetString (Some long_name) (Some long_value))) tight_array
    = Ok r w' /\
    (r = 0 \/ r = -1) /\
    holds (gen w') txt' /\
    (List.length (c_chars "[") <= List.length txt'
     <= List.length (c_chars "[")
        + S (List.length
               (emission_text
                  (Scalar (ObjSetString (Some long_name) (Some long_value))))))%nat.
Proof.
  apply (emission_never_faults
           (Scalar (ObjSetString (Some long_name) (Some long_value)))
           tight_array (c_chars "[")).
  - exists (Some NUL :: repeat None 248). vm_compute.
    repeat split; try discriminate. repeat constructor; discriminate.
  - vm_compute. discriminate.
Defined.

Lemma str_end_grows : grows json_gen_str_end.
Proof.
  intros w r w' H. apply str_end_inv in H.
  destruct H as (_ & Htl & Hbs & _). lia.
Qed.

(** X5 (json_gen_str_start and every call after it): the shape of every
    state a caller can reach.  Either the generator is well-formed (the
    block has exactly [buf_size] cells, the cursor and the committed length
    coincide and lie strictly inside it, and no committed character is NUL),
    or the [malloc] of [json_gen_str_start] was refused and nothing has been
    committed since.  In both cases the capacity field is at least 250 and
    the callback and the context are those given at the start. *)
Theorem reachable_generator_shape (cb : option fnptr) (p : voidptr) (w : world) :
  reachable cb p w ->
  ((exists txt, holds (gen w) txt) \/ unallocated (gen w)) /\
  MEM_CHUNK_SIZE <= buf_size (gen w) /\
  flush_cb (gen w) = cb /\
  priv (gen w) = p.
Proof.
  intros Hr. split; [exact (reachable_sound cb p w Hr)|].
  split; [|destruct (reachable_setup cb p w Hr) as (Hf & Hp & _); split; assumption].
  induction Hr as [w w' Hs | w e r w' Hr IH He | w r w' Hr IH He].
  - destruct (str_start_runs cb p w) as (w2 & Hrun & _ & _ & _ & Hbs & _).
    rewrite Hrun in Hs. inversion Hs; subst w2. rewrite Hbs. lia.
  - destruct (grows_emission e w r w' He). lia.
  - destruct (str_end_grows w r w' He). lia.
Qed.

Lemma reachable_generator_shape_witness :
  ((exists txt, holds (gen fresh_tight) txt) \/ unallocated (gen fresh_tight)) /\
  MEM_CHUNK_SIZE <= buf_size (gen fresh_tight) /\
  flush_cb (gen fresh_tight) = Some 7 /\
  priv (gen fresh_tight) = 9.
Proof.
  apply (reachable_generator_shape (Some 7) 9 fresh_tight).
  apply (reach_start (Some 7) 9 boot_tight). vm_compute. reflexivity.
Defined.

(** X7 (all emission functions): emissions only append.  Whatever the
    allocator answers, an emission that returns from a well-formed generator
    leaves every committed character where it was, with whatever it managed
    to append behind them, and a capacity that is not smaller; a failed call
    loses nothing of what was committed before it. *)
Theorem emission_append_only (e : emission) (w : world) (txt : list ascii)
    (r : Z) (w' : world) :
  holds (gen w) txt ->
  run_emission e w = Ok r w' ->
  exists more : list ascii,
    holds (gen w') (txt ++ more) /\
    buf_size (gen w) <= buf_size (gen w').
Proof.
  intros Hh H.
  destruct (proj1 (extends_emission e) w r w' txt Hh H) as (more & Hh' & Hbs & _).
  exists more. split; assumption.
Qed.

Lemma emission_append_only_witness :
  exists more : list ascii,
    holds (gen (after (run_emission (Scalar (ArrSetString (Some long_value))))
                  tight_array))
      (c_chars "[" ++ more) /\
    buf_size (gen tight_array)
    <= buf_size (gen (after (run_emission (Scalar (ArrSetString (Some long_value))))
                        tight_array)).
Proof.
  apply (emission_append_only (Scalar (ArrSetString (Some long_value)))
           tight_array (c_chars "[") 0).
  - exists (Some NUL :: repeat None 248). vm_compute.
    repeat split; try discriminate. repeat constructor; discriminate.
  - vm_compute. reflexivity.
Defined.

(** X8 (json_gen_add_to_str through every emission): the buffer can be read
    between calls.  [strcpy] stores a terminator with every fragment, so
    after an emission that returned 0 and whose last append was not of a
    null pointer the block, read as a C string, is exactly the committed
    text, with no finalization; and once the block reads so, it still does
    after every later emission, failed ones included. *)
Theorem buffer_readable_between_calls (e : emission) (w : world)
    (txt : list ascii) (r : Z) (w' : world) :
  holds (gen w) txt ->
  run_emission e w = Ok r w' ->
  readable (gen w) txt \/ (r = 0 /\ last_fragment e <> None) ->
  exists more : list ascii, readable (gen w') (txt ++ more).
Proof.
  intros Hh H [Hr|[Hr Hlast]].
  - destruct (proj1 (extends_emission e) w r w' txt Hh H) as (more & _ & _ & Hrd).
    exists more. exact (Hrd Hr).
  - subst r. rewrite emission_split in H.
    apply bind_inv in H. destruct H as ([] & w1 & Hlead & Hadd).
    destruct (proj2 (extends_emission e) w tt w1 txt Hh Hlead) as (more & Hh1 & _).
    destruct (add_to_str_cases _ w1 _ 0 w' Hh1 Hadd)
      as [(_ & _ & Hrd & _)|(C & _)]; [|discriminate].
    exists (more ++ arg_chars (last_fragment e)). rewrite app_assoc.
    exact (Hrd Hlast).
Qed.

Lemma buffer_readable_between_calls_witness :
  exists more : list ascii,
    readable (gen (after (run_emission (Open StartObject)) fresh)) ([] ++ more).
Proof.
  apply (buffer_readable_between_calls (Open StartObject) fresh [] 0).
  - exists (repeat None 250). vm_compute.
    repeat split; try discriminate. constructor.
  - vm_compute. reflexivity.
  - right. split; [reflexivity|discriminate].
Defined.

(* ------------------------------------------------------------------ *)
(** ** Further properties: the document as a transcript *)

Lemma emits_emission (e : emission) (c : bool) :
  emits (run_emission e) c (emission_output c e)
    (flag_after (emission_flag e) c) succeeded.
Proof.
  destruct e as [o|o|o|o|v|]; unfold emission_output;
    cbn [run_emission runs_separator emission_text emission_flag flag_after app].
  - apply emits_scalar.
  - apply emits_open.
  - apply emits_close.
  - apply emits_raw.
  - apply emits_add_to_str.
  - apply (emits_add_to_str (Some lit_quote)).
Qed.

Lemma emits_transcript (es : list emission) :
  forall c, emits (run_emissions es) c (transcript c es) (final_flag c es) any.
Proof.
  induction es as [|e es IH]; intros c; simpl.
  - apply emits_weaken with (R := eq tt). apply emits_ret.
  - eapply emits_bind; [apply emits_emission | intros _; apply IH].
Qed.

(** X6 (json_gen_str_start, every emission, json_gen_str_end,
    json_gen_get_json_string): the document is the transcript of the calls.
    For any sequence of emissions whatever, balanced or not, issued after a
    start with every allocation served, finalization returns the length of
    the transcript plus one, the accessor returns a block whose string is
    the transcript (each key, value and raw fragment verbatim, a comma
    exactly where the flag left by the previous call asks for one), and the
    callback, when registered, was called once, with that block. *)
Theorem document_is_transcript (cb : option fnptr) (p : voidptr)
    (es : list emission) (w : world) :
  serving w ->
  Z.of_nat (List.length (transcript false es)) + 1 + MEM_CHUNK_SIZE <= INT_MAX ->
  exists (b : list (option ascii)) (w' : world),
    session cb p es w
    = Ok (Z.of_nat (List.length (transcript false es)) + 1, Some b) w' /\
    c_string_at b = Some (transcript false es) /\
    comma_req (gen w') = final_flag false es /\
    events w' = events w ++ flush_events cb b p.
Proof.
  intros Hsv Hmax.
  destruct (str_start_holds cb p w (serving_next w Hsv))
    as (w1 & Hstart & Hh1 & Hc1 & Hf1 & Hp1 & He1 & Ha1).
  assert (Hsv1 : serving w1) by (eapply serving_tl; eassumption).
  destruct (emits_transcript es false w1 [] Hh1 Hsv1 Hc1)
    as (u & w2 & Hrun & _ & Hh2 & _ & Hc2 & Hf2 & Hp2 & He2).
  { simpl. lia. }
  destruct (str_end_holds w2 _ Hh2) as (b' & Hend & Hh3 & Hstr & _).
  exists b'. eexists. split.
  - unfold session, bind. rewrite Hstart, Hrun, Hend. reflexivity.
  - simpl. split; [exact Hstr|]. split; [exact Hc2|].
    rewrite He2, He1, Hf2, Hf1, Hp2, Hp1. reflexivity.
Qed.

Lemma document_is_transcript_witness :
  exists (b : list (option ascii)) (w' : world),
    session (Some 7) 9 stray_calls boot
    = Ok (Z.of_nat (List.length (transcript false stray_calls)) + 1, Some b) w' /\
    c_string_at b = Some (transcript false stray_calls) /\
    comma_req (gen w') = final_flag false stray_calls /\
    events w' = events boot ++ flush_events (Some 7) b 9.
Proof.
  apply (document_is_transcript (Some 7) 9 stray_calls boot).
  - unfold serving. simpl. constructor.
  - vm_compute. discriminate.
Defined.

(* ------------------------------------------------------------------ *)
(** ** Further properties: a generator without a block *)

Lemma truncate_length (n : nat) (s : string) :
  (String.length (truncate n s) <= n)%nat.
Proof.
  revert s. induction n as [|n IH]; intros s; simpl; [lia|].
  destruct s as [|c s]; simpl; [lia|]. specialize (IH s). lia.
Qed.

Lemma c_chars_length (s : string) :
  (List.length (c_chars s) <= String.length s)%nat.
Proof.
  induction s as [|c s IH]; simpl; [lia|].
  destruct (is_nul c); simpl; lia.
Qed.

Lemma snprintf_size_strlen (size : Z) (s : string) :
  1 <= size -> strlen (snprintf_size size s) <= size - 1.
Proof.
  intros Hs. unfold strlen, snprintf_size.
  pose proof (c_chars_length (truncate (Z.to_nat (size - 1)) s)).
  pose proof (truncate_length (Z.to_nat (size - 1)) s). lia.
Qed.

Lemma stops_add_to_str (s : string) :
  strlen s + 1 <= MEM_CHUNK_SIZE -> stops (json_gen_add_to_str (Some s)).
Proof.
  intros Hlen w (Hb & Htl & Hfp & Hbs).
  pose proof (strlen_nonneg s) as Hs.
  unfold json_gen_add_to_str, bind at 1.
  rewrite int_of_ok by (unfold INT_MIN, INT_MAX, MEM_CHUNK_SIZE in *; lia).
  unfold bind at 1. unfold load at 1. unfold bind at 1.
  rewrite int_of_ok by (unfold INT_MIN, INT_MAX, MEM_CHUNK_SIZE in *; lia).
  replace (buf_size (gen w) <? total_len (gen w) + strlen s + 1) with false
    by (symmetry; apply Z.ltb_ge; lia).
  apply add_the_string_null. exact Hb.
Qed.

Lemma stops_bind {A B : Type} (m : M A) (k : A -> M B) :
  stops m -> stops (bind m k).
Proof. intros Hm w Hu. unfold bind. rewrite (Hm w Hu). reflexivity. Qed.

Lemma stops_after {A B : Type} (m : M A) (k : A -> M B) :
  idles m -> (forall a, stops (k a)) -> stops (bind m k).
Proof.
  intros Hm Hk w Hu. destruct (Hm w Hu) as (a & w1 & Hrun & Hu1).
  unfold bind. rewrite Hrun. exact (Hk a w1 Hu1).
Qed.

Lemma idles_set_comma (b : bool) : idles (modify (set_comma_req b)).
Proof.
  intros w Hu. eexists tt, _. split; [reflexivity|]. exact Hu.
Qed.

(** On a generator without a block the separator rule either does nothing
    or stores through the null pointer. *)
Lemma handle_comma_unallocated {B : Type} (k : unit -> M B) :
  (forall a, stops (k a)) -> stops (bind json_gen_handle_comma k).
Proof.
  intros Hk w Hu. unfold json_gen_handle_comma, bind at 1.
  unfold bind at 1. unfold load.
  destruct (comma_req (gen w)).
  - unfold bind at 1.
    rewrite (stops_add_to_str ","%string) by (try exact Hu; vm_compute; discriminate).
    reflexivity.
  - unfold ret. exact (Hk tt w Hu).
Qed.

Lemma stops_handle_name (name : option string) : stops (json_gen_handle_name name).
Proof.
  unfold json_gen_handle_name. apply stops_bind.
  apply stops_add_to_str. vm_compute. discriminate.
Qed.

(** Every emission but the one that appends a chunk of a long string starts
    with an append of a short text, which a generator without a block
    cannot take. *)
Lemma stops_emission (e : emission) :
  (forall v, e <> AddToLongString v) -> stops (run_emission e).
Proof.
  intros Hne.
  assert (Hint : forall s, strlen (snprintf_size MAX_INT_IN_STR s) + 1 <= MEM_CHUNK_SIZE).
  { intros s. pose proof (snprintf_size_strlen MAX_INT_IN_STR s).
    unfold MAX_INT_IN_STR, MEM_CHUNK_SIZE in *. lia. }
  assert (Hflt : forall s, strlen (snprintf_size MAX_FLOAT_IN_STR s) + 1 <= MEM_CHUNK_SIZE).
  { intros s. pose proof (snprintf_size_strlen MAX_FLOAT_IN_STR s).
    unfold MAX_FLOAT_IN_STR, MEM_CHUNK_SIZE in *. lia. }
  destruct e as [o|o|o|o|v|]; cbn [run_emission].
  - destruct o as [name [|]|[|]|name v|v|name v|v|name v|v|name v|v|name| |name v|v];
      cbn [run_scalar];
      unfold json_gen_obj_set_bool, json_gen_arr_set_bool, json_gen_set_bool,
        json_gen_obj_set_int, json_gen_arr_set_int, json_gen_set_int,
        json_gen_obj_set_int64, json_gen_arr_set_int64, json_gen_set_int64,
        json_gen_obj_set_float, json_gen_arr_set_float, json_gen_set_float,
        json_gen_obj_set_string, json_gen_arr_set_string, json_gen_set_string,
        json_gen_obj_set_null, json_gen_arr_set_null, json_gen_set_null,
        json_gen_obj_start_long_string, json_gen_arr_start_long_string,
        json_gen_set_long_string, snprintf_d, snprintf_ld, snprintf_f;
      repeat first
        [ apply handle_comma_unallocated; intro
        | apply stops_bind; apply stops_handle_name
        | apply stops_after; [apply idles_set_comma | intro]
        | apply stops_add_to_str; first [apply Hint | apply Hflt | vm_compute; discriminate]
        | apply stops_bind; apply stops_add_to_str; vm_compute; discriminate ].
  - destruct o; cbn [run_open];
      unfold json_gen_start_object, json_gen_start_array,
        json_gen_push_object, json_gen_push_array;
      repeat first
        [ apply handle_comma_unallocated; intro
        | apply stops_bind; apply stops_handle_name
        | apply stops_after; [apply idles_set_comma | intro]
        | apply stops_add_to_str; vm_compute; discriminate ].
  - destruct o; cbn [run_close];
      unfold json_gen_end_object, json_gen_end_array,
        json_gen_pop_object, json_gen_pop_array;
      repeat first
        [ apply stops_after; [apply idles_set_comma | intro]
        | apply stops_add_to_str; vm_compute; discriminate ].
  - destruct o; cbn [run_raw];
      unfold json_gen_push_object_str, json_gen_push_array_str;
      repeat first
        [ apply handle_comma_unallocated; intro
        | apply stops_bind; apply stops_handle_name ].
  - exfalso. exact (Hne v eq_refl).
  - unfold json_gen_end_long_string. apply stops_add_to_str. vm_compute. discriminate.
Qed.

(** X9 (json_gen_str_start, json_gen_str_end, every emission): the start
    does not test what [malloc] returns.  When the request is refused the
    start still returns, with a null buffer and a capacity field of 250;
    finalizing that generator returns 1, stores nothing and does not call
    the callback, registered or not; and every emission other than
    [json_gen_add_to_long_string] stores through the null pointer. *)
Theorem refused_start_leaves_no_buffer (cb : option fnptr) (p : voidptr) (w : world) :
  next_served w = false ->
  exists w1 : world,
    json_gen_str_start cb p w = Ok tt w1 /\
    buf (gen w1) = None /\
    buf_size (gen w1) = 250 /\
    flush_cb (gen w1) = cb /\
    json_gen_str_end w1 = Ok 1 w1 /\
    (forall e, (forall v, e <> AddToLongString v) -> run_emission e w1 = Fault).
Proof.
  intros Hsv.
  destruct (str_start_runs cb p w)
    as (w1 & Hrun & _ & Htl & Hfp & Hbs & Hf & _ & _ & _ & Hb).
  rewrite Hsv in Hb.
  exists w1. split; [exact Hrun|]. split; [exact Hb|]. split; [exact Hbs|].
  split; [exact Hf|]. split; [exact (str_end_unallocated w1 Hb Htl)|].
  intros e Hne. apply (stops_emission e Hne). repeat split; assumption.
Qed.

Lemma refused_start_leaves_no_buffer_witness :
  exists w1 : world,
    json_gen_str_start (Some 7) 9 (mk_world zeroed [false] []) = Ok tt w1 /\
    buf (gen w1) = None /\
    buf_size (gen w1) = 250 /\
    flush_cb (gen w1) = Some 7 /\
    json_gen_str_end w1 = Ok 1 w1 /\
    (forall e, (forall v, e <> AddToLongString v) -> run_emission e w1 = Fault).
Proof.
  apply (refused_start_leaves_no_buffer (Some 7) 9 (mk_world zeroed [false] [])).
  reflexivity.
Defined.

(** X10 (json_gen_free_buffer, then json_gen_str_end and
    json_gen_add_to_str): the release clears the structure before it tests
    [buf], so it never calls [free], whatever block the generator held.
    Afterwards finalization returns 1 and calls nothing, and, the capacity
    field being 0, the next append of a string asks the allocator for a new
    block: when served it commits the fragment in a block of its length plus
    251 cells, with no callback registered any more. *)
Theorem release_clears_without_free (s : string) (w : world) :
  next_served w = true ->
  strlen s + 1 + MEM_CHUNK_SIZE <= INT_MAX ->
  exists w1 w2 : world,
    json_gen_free_buffer w = Ok tt w1 /\
    gen w1 = zeroed /\
    events w1 = events w /\
    json_gen_str_end w1 = Ok 1 w1 /\
    json_gen_add_to_str (Some s) w1 = Ok 0 w2 /\
    readable (gen w2) (c_chars s) /\
    buf_size (gen w2) = strlen s + 1 + 250 /\
    flush_cb (gen w2) = None /\
    events w2 = events w.
Proof.
  intros Hsv Hmax.
  pose proof (strlen_nonneg s) as Hs.
  exists (mk_world zeroed (allocs w) (events w)).
  set (n := strlen s + 1 + MEM_CHUNK_SIZE).
  set (w4 := mk_world (mk_jstr (Some (repeat None (Z.to_nat n))) n 0 0 false None 0)
               (tl (allocs w)) (events w)).
  assert (Hh4 : holds (gen w4) []).
  { exists (repeat None (Z.to_nat n)). unfold w4. simpl.
    rewrite repeat_length. unfold n, MEM_CHUNK_SIZE in *.
    repeat split; try reflexivity; try lia. constructor. }
  destruct (add_the_string_readable w4 [] s Hh4) as (w5 & Hrun & Hr5 & Hbs5 & Hset & _).
  { unfold w4. simpl. unfold n, MEM_CHUNK_SIZE. lia. }
  exists w5.
  split; [reflexivity|]. split; [reflexivity|]. split; [reflexivity|].
  split; [reflexivity|].
  split.
  - rewrite <- Hrun.
    unfold json_gen_add_to_str, bind at 1.
    rewrite int_of_ok by (unfold INT_MIN, MEM_CHUNK_SIZE in *; lia).
    unfold bind at 1. unfold load at 1. unfold bind at 1.
    rewrite int_of_ok by (simpl; unfold INT_MIN, MEM_CHUNK_SIZE in *; lia).
    replace (buf_size (gen (mk_world zeroed (allocs w) (events w)))
             <? total_len (gen (mk_world zeroed (allocs w) (events w))) + strlen s + 1)
      with true by (symmetry; apply Z.ltb_lt; simpl; lia).
    unfold bind at 1.
    rewrite int_of_ok by (simpl; unfold INT_MIN, MEM_CHUNK_SIZE in *; lia).
    unfold realloc, next_alloc, bind, ret, modify. cbv beta.
    unfold next_served in Hsv. unfold w4, n, resize.
    destruct (allocs w) as [|d al]; [|subst d]; simpl;
      rewrite firstn_nil, Nat.sub_0_r; reflexivity.
  - destruct Hset as (_ & Hf & _ & He).
    split; [exact Hr5|]. split; [rewrite Hbs5; unfold w4, n, MEM_CHUNK_SIZE; simpl; lia|].
    split; [rewrite Hf; reflexivity|rewrite He; reflexivity].
Qed.

Lemma release_clears_without_free_witness :
  exists w1 w2 : world,
    json_gen_free_buffer in_array = Ok tt w1 /\
    gen w1 = zeroed /\
    events w1 = events in_array /\
    json_gen_str_end w1 = Ok 1 w1 /\
    json_gen_add_to_str (Some "{"%string) w1 = Ok 0 w2 /\
    readable (gen w2) (c_chars "{") /\
    buf_size (gen w2) = strlen "{" + 1 + 250 /\
    flush_cb (gen w2) = None /\
    events w2 = events in_array.
Proof.
  apply (release_clears_without_free "{"%string in_array).
  - reflexivity.
  - vm_compute. discriminate.
Defined.

(* ------------------------------------------------------------------ *)
(** ** Further properties: long strings *)

(** X11 (json_gen_obj_start_long_string, json_gen_arr_start_long_string,
    json_gen_add_to_long_string, json_gen_end_long_string against
    json_gen_obj_set_string, json_gen_arr_set_string): a long string built
    from a first fragment and any number of chunks commits the same text,
    and leaves the same flag, as the single call that sets a string whose
    characters are the fragments in a row; as object member or as array
    element, null fragments counting for nothing. *)
Theorem long_string_is_string (name : option (option string))
    (first : option string) (chunks : list (option string)) (val : string)
    (w : world) (txt : list ascii) :
  c_chars val = arg_chars first ++ flat_map arg_chars chunks ->
  holds (gen w) txt ->
  serving w ->
  Z.of_nat (List.length txt)
    + Z.of_nat (List.length (emission_output (comma_req (gen w))
                               (string_call name (Some val))))
    + 1 + MEM_CHUNK_SIZE <= INT_MAX ->
  exists (w1 w2 : world) (text : list ascii),
    run_emissions (long_string_calls name first chunks) w = Ok tt w1 /\
    run_emission (string_call name (Some val)) w = Ok 0 w2 /\
    text = txt ++ emission_output (comma_req (gen w)) (string_call name (Some val)) /\
    holds (gen w1) text /\
    holds (gen w2) text /\
    comma_req (gen w1) = true /\
    comma_req (gen w2) = true.
Proof.
  intros Hval Hh Hsv Hmax.
  set (begin := match name with
                | Some key => ObjStartLongString key first
                | None => ArrStartLongString first
                end).
  assert (Htext : separator (comma_req (gen w)) ++ render (LongValue begin chunks)
                  = emission_output (comma_req (gen w)) (string_call name (Some val))).
  { unfold emission_output, string_call, begin.
    destruct name as [key|]; cbn [runs_separator emission_text scalar_text render];
      unfold quoted; cbn [arg_chars]; rewrite Hval;
      rewrite <- ?app_assoc; cbn [app]; rewrite <- ?app_assoc; reflexivity. }
  destruct (emits_calls (LongValue begin chunks) (comma_req (gen w)) w txt Hh Hsv eq_refl)
    as ([] & w1 & Hrun1 & _ & Hh1 & _ & Hc1 & _).
  { rewrite Htext. exact Hmax. }
  destruct (emits_emission (string_call name (Some val)) (comma_req (gen w))
              w txt Hh Hsv eq_refl Hmax)
    as (r & w2 & Hrun2 & Hr & Hh2 & _ & Hc2 & _).
  unfold succeeded in Hr. subst r.
  exists w1, w2, (txt ++ emission_output (comma_req (gen w)) (string_call name (Some val))).
  split; [exact Hrun1|]. split; [exact Hrun2|]. split; [reflexivity|].
  split; [rewrite <- Htext; exact Hh1|]. split; [exact Hh2|].
  split; [exact Hc1|].
  destruct name; exact Hc2.
Qed.

Lemma long_string_is_string_witness :
  exists (w1 w2 : world) (text : list ascii),
    run_emissions
      (long_string_calls (Some (Some "k"%string)) (Some "ab"%string)
         [Some "cd"%string; None; Some "e"%string]) in_array = Ok tt w1 /\
    run_emission (string_call (Some (Some "k"%string)) (Some "abcde"%string)) in_array
    = Ok 0 w2 /\
    text = c_chars "["
           ++ emission_output (comma_req (gen in_array))
                (string_call (Some (Some "k"%string)) (Some "abcde"%string)) /\
    holds (gen w1) text /\
    holds (gen w2) text /\
    comma_req (gen w1) = true /\
    comma_req (gen w2) = true.
Proof.
  apply (long_string_is_string (Some (Some "k"%string)) (Some "ab"%string)
           [Some "cd"%string; None; Some "e"%string] "abcde"%string
           in_array (c_chars "[")).
  - reflexivity.
  - exists (Some NUL :: repeat None 248). vm_compute.
    repeat split; try discriminate. repeat constructor; discriminate.
  - unfold serving. simpl. constructor.
  - vm_compute. discriminate.
Defined.

(* ------------------------------------------------------------------ *)
(** ** Further properties: the text of numbers *)

Lemma usize_nb_digits (d : Decimal.uint) :
  DecimalPos.Unsigned.usize d = N.of_nat (Decimal.nb_digits d).
Proof.
  induction d; simpl DecimalPos.Unsigned.usize; simpl Decimal.nb_digits;
    rewrite ?IHd; lia.
Qed.

Lemma string_of_uint_length (d : Decimal.uint) :
  String.length (NilEmpty.string_of_uint d) = Decimal.nb_digits d.
Proof. induction d; simpl; congruence. Qed.

(** A little-endian number without a zero at its top is at least the power
    of ten of its size, and every little-endian number is below the next
    one. *)
Lemma of_lu_bounds (d : Decimal.uint) :
  (DecimalPos.Unsigned.of_lu d < 10 ^ DecimalPos.Unsigned.usize d)%N /\
  (DecimalFacts.nztail d = d -> d <> Decimal.Nil ->
   10 ^ (DecimalPos.Unsigned.usize d - 1) <= DecimalPos.Unsigned.of_lu d)%N.
Proof.
  induction d as [|d IH|d IH|d IH|d IH|d IH|d IH|d IH|d IH|d IH|d IH];
    [ split; [simpl; lia | intros _ H; contradiction] | .. ];
    destruct IH as [IHu IHl];
    cbn [DecimalPos.Unsigned.usize DecimalPos.Unsigned.of_lu];
    rewrite N.pow_succ_r';
    (split; [lia|]);
    intros Hn _;
    replace (N.succ (DecimalPos.Unsigned.usize d) - 1)%N
      with (DecimalPos.Unsigned.usize d) by lia;
    (destruct (Decimal.uint_eq_dec d Decimal.Nil) as [->|Hd];
     [ simpl in *; try discriminate; lia
     | assert (Hn' : DecimalFacts.nztail d = d)
         by (simpl in Hn; destruct (DecimalFacts.nztail d); congruence);
       specialize (IHl Hn' Hd);
       replace (DecimalPos.Unsigned.usize d)
         with (N.succ (DecimalPos.Unsigned.usize d - 1))
         by (destruct d; simpl in *; try contradiction; lia);
       rewrite N.pow_succ_r'; lia ]).
Qed.

Lemma to_little_uint_value (p : positive) :
  DecimalPos.Unsigned.of_lu (Pos.to_little_uint p) = Npos p.
Proof.
  rewrite <- DecimalPos.Unsigned.of_lu_rev.
  exact (DecimalPos.Unsigned.of_to p).
Qed.

Lemma to_little_uint_normal (p : positive) :
  DecimalFacts.nztail (Pos.to_little_uint p) = Pos.to_little_uint p /\
  Pos.to_little_uint p <> Decimal.Nil.
Proof.
  pose proof (DecimalPos.Unsigned.to_of_lu (Pos.to_little_uint p)) as H.
  rewrite to_little_uint_value in H. simpl in H. unfold DecimalFacts.lnorm in H.
  pose proof (to_little_uint_value p) as Hv.
  destruct (DecimalFacts.nztail (Pos.to_little_uint p)) eqn:E.
  - rewrite H in Hv. simpl in Hv. discriminate.
  - split; [symmetry; exact H | rewrite H; discriminate].
  - split; [symmetry; exact H | rewrite H; discriminate].
  - split; [symmetry; exact H | rewrite H; discriminate].
  - split; [symmetry; exact H | rewrite H; discriminate].
  - split; [symmetry; exact H | rewrite H; discriminate].
  - split; [symmetry; exact H | rewrite H; discriminate].
  - split; [symmetry; exact H | rewrite H; discriminate].
  - split; [symmetry; exact H | rewrite H; discriminate].
  - split; [symmetry; exact H | rewrite H; discriminate].
  - split; [symmetry; exact H | rewrite H; discriminate].
Qed.

(** The number of decimal digits of a positive number, against its value. *)
Lemma digits_bounds (p : positive) :
  let n := N.of_nat (Decimal.nb_digits (Pos.to_uint p)) in
  (10 ^ (n - 1) <= Npos p < 10 ^ n)%N /\ (1 <= n)%N.
Proof.
  unfold Pos.to_uint. rewrite DecimalFacts.nb_digits_rev, <- usize_nb_digits.
  destruct (to_little_uint_normal p) as [Hn Hd].
  destruct (of_lu_bounds (Pos.to_little_uint p)) as [Hu Hl].
  specialize (Hl Hn Hd). rewrite to_little_uint_value in *.
  split; [split; assumption|].
  destruct (Pos.to_little_uint p); simpl; try contradiction; lia.
Qed.

Lemma decimal_pos_length (p : positive) :
  String.length (decimal (Zpos p)) = Decimal.nb_digits (Pos.to_uint p).
Proof.
  unfold decimal. simpl. unfold NilZero.string_of_uint.
  pose proof (DecimalPos.Unsigned.to_uint_nonnil p) as Hn.
  destruct (Pos.to_uint p) eqn:E; try contradiction;
    rewrite string_of_uint_length; reflexivity.
Qed.

Lemma decimal_neg_length (p : positive) :
  String.length (decimal (Zneg p)) = S (Decimal.nb_digits (Pos.to_uint p)).
Proof.
  unfold decimal. simpl. f_equal. unfold NilZero.string_of_uint.
  pose proof (DecimalPos.Unsigned.to_uint_nonnil p) as Hn.
  destruct (Pos.to_uint p) eqn:E; try contradiction;
    rewrite string_of_uint_length; reflexivity.
Qed.

(** A number below [10 ^ k] in absolute value prints on at most [k] digits
    and a sign. *)
Lemma decimal_length_le (z : Z) (k : nat) :
  (1 <= k)%nat -> Z.abs z < 10 ^ Z.of_nat k ->
  (String.length (decimal z) <= S k)%nat.
Proof.
  intros Hk Hz. destruct z as [|p|p].
  - simpl. lia.
  - rewrite decimal_pos_length.
    destruct (digits_bounds p) as [[Hl _] H1].
    assert (H : (10 ^ (N.of_nat (Decimal.nb_digits (Pos.to_uint p)) - 1)
                 < 10 ^ N.of_nat k)%N).
    { eapply N.le_lt_trans; [exact Hl|]. simpl in Hz. lia. }
    apply N.pow_lt_mono_r_iff in H; lia.
  - rewrite decimal_neg_length.
    destruct (digits_bounds p) as [[Hl _] H1].
    assert (H : (10 ^ (N.of_nat (Decimal.nb_digits (Pos.to_uint p)) - 1)
                 < 10 ^ N.of_nat k)%N).
    { eapply N.le_lt_trans; [exact Hl|]. simpl in Hz. lia. }
    apply N.pow_lt_mono_r_iff in H; lia.
Qed.

(** A number from [10 ^ k] on prints on more than [k] digits. *)
Lemma decimal_length_gt (z : Z) (k : nat) :
  10 ^ Z.of_nat k <= z -> (k < String.length (decimal z))%nat.
Proof.
  intros Hz. destruct z as [|p|p]; try (pose proof (Z.pow_pos_nonneg 10 (Z.of_nat k)); lia).
  rewrite decimal_pos_length.
  destruct (digits_bounds p) as [[_ Hu] H1].
  assert (H : (10 ^ N.of_nat k < 10 ^ N.of_nat (Decimal.nb_digits (Pos.to_uint p)))%N).
  { eapply N.le_lt_trans; [|exact Hu]. lia. }
  apply N.pow_lt_mono_r_iff in H; lia.
Qed.

Lemma truncate_all (n : nat) (s : string) :
  (String.length s <= n)%nat -> truncate n s = s.
Proof.
  revert s. induction n as [|n IH]; intros s Hs.
  - destruct s; [reflexivity|simpl in Hs; lia].
  - destruct s as [|c s]; [reflexivity|]. simpl. f_equal. apply IH.
    simpl in Hs. lia.
Qed.

Lemma truncate_app (n : nat) (s t : string) :
  (n <= String.length s)%nat -> truncate n (s ++ t) = truncate n s.
Proof.
  revert s. induction n as [|n IH]; intros s Hs.
  - destruct s; reflexivity.
  - destruct s as [|c s]; [simpl in Hs; lia|]. simpl. f_equal. apply IH.
    simpl in Hs. lia.
Qed.

Lemma to_signed_small (w z : Z) :
  0 < w -> - 2 ^ (w - 1) <= z < 2 ^ (w - 1) -> to_signed w z = z.
Proof.
  intros Hw Hz. unfold to_signed.
  assert (E : 2 ^ w = 2 * 2 ^ (w - 1)).
  { replace w with (Z.succ (w - 1)) at 1 by lia. apply Z.pow_succ_r. lia. }
  rewrite Z.mod_small by lia. lia.
Qed.

Lemma uint_text_chars (d : Decimal.uint) :
  c_chars (NilEmpty.string_of_uint d)
  = list_ascii_of_string (NilEmpty.string_of_uint d).
Proof. induction d; simpl; rewrite ?IHd; reflexivity. Qed.

(** The decimal text of a number has no NUL: all of it is appended. *)
Lemma decimal_chars (z : Z) :
  c_chars (decimal z) = list_ascii_of_string (decimal z).
Proof.
  unfold decimal.
  destruct (Z.to_int z) as [d|d]; simpl;
    unfold NilZero.string_of_uint;
    destruct d; try reflexivity; simpl; f_equal; rewrite ?uint_text_chars;
    reflexivity.
Qed.

(** Reading the decimal text gives the number back. *)
Lemma decimal_parses (z : Z) :
  option_map Z.of_int (NilZero.int_of_string (decimal z)) = Some z.
Proof.
  unfold decimal. rewrite NilZero.isi.
  - simpl. f_equal. apply DecimalZ.of_to.
  - destruct z; simpl; try discriminate.
    intros E. inversion E as [E']. exact (DecimalPos.Unsigned.to_uint_nonnil _ E').
  - destruct z; simpl; try discriminate.
    intros E. inversion E as [E']. exact (DecimalPos.Unsigned.to_uint_nonnil _ E').
Qed.

(** No [int] and no 64-bit integer is cut by [snprintf] into the 24
    characters of [MAX_INT_IN_STR]. *)
Lemma snprintf_d_exact (val : Z) :
  INT_MIN <= val <= INT_MAX -> snprintf_d val = decimal val.
Proof.
  intros Hv. unfold snprintf_d, snprintf_size, INT_BITS.
  rewrite to_signed_small by (unfold INT_MIN, INT_MAX in *; simpl; lia).
  apply truncate_all.
  pose proof (decimal_length_le val 10) as H.
  unfold MAX_INT_IN_STR. simpl Z.to_nat.
  assert (Habs : Z.abs val < 10 ^ Z.of_nat 10)
    by (unfold INT_MIN, INT_MAX in *; simpl; lia).
  specialize (H ltac:(lia) Habs). lia.
Qed.

Lemma snprintf_ld_exact (val : Z) :
  - 2 ^ 63 <= val < 2 ^ 63 ->
  snprintf_ld LONG_BITS (to_signed 64 val) = decimal val.
Proof.
  intros Hv. unfold snprintf_ld, snprintf_size, LONG_BITS.
  assert (E : to_signed 64 val = val).
  { apply to_signed_small; [lia|]. change (64 - 1) with 63. exact Hv. }
  rewrite !E. apply truncate_all.
  pose proof (decimal_length_le val 19) as H.
  unfold MAX_INT_IN_STR. simpl Z.to_nat.
  assert (Habs : Z.abs val < 10 ^ Z.of_nat 19).
  { change (2 ^ 63) with 9223372036854775808 in Hv.
    change (10 ^ Z.of_nat 19) with 10000000000000000000. lia. }
  specialize (H ltac:(lia) Habs). lia.
Qed.

Lemma string_app_length (s t : string) :
  String.length (s ++ t) = (String.length s + String.length t)%nat.
Proof. induction s; simpl; congruence. Qed.

Lemma string_app_assoc (s t u : string) :
  ((s ++ t) ++ u = s ++ (t ++ u))%string.
Proof. induction s; simpl; congruence. Qed.

Lemma string_app_chars (s t : string) :
  list_ascii_of_string (s ++ t)
  = list_ascii_of_string s ++ list_ascii_of_string t.
Proof. induction s; simpl; congruence. Qed.

(** A text without NUL is a C string of all its characters. *)
Lemma c_chars_plain (s : string) :
  no_nul (list_ascii_of_string s) -> c_chars s = list_ascii_of_string s.
Proof.
  induction s as [|c s IH]; intros H; [reflexivity|].
  simpl in *. inversion H as [|? ? Hc Hs]; subst.
  unfold is_nul. destruct (Ascii.eqb c NUL) eqn:E.
  - apply Ascii.eqb_eq in E. contradiction.
  - f_equal. apply IH. exact Hs.
Qed.

Lemma decimal_no_nul (z : Z) : no_nul (list_ascii_of_string (decimal z)).
Proof. rewrite <- decimal_chars. apply c_chars_no_nul. Qed.






Lemma sign_text_no_nul (neg : bool) : no_nul (list_ascii_of_string (sign_text neg)).
Proof. destruct neg; simpl; repeat constructor; discriminate. Qed.

Lemma no_nul_chars_app (s t : string) :
  no_nul (list_ascii_of_string s) -> no_nul (list_ascii_of_string t) ->
  no_nul (list_ascii_of_string (s ++ t)).
Proof. intros. rewrite string_app_chars. apply no_nul_app; assumption. Qed.


Lemma truncate_no_nul (n : nat) (s : string) :
  no_nul (list_ascii_of_string s) ->
  no_nul (list_ascii_of_string (truncate n s)).
Proof.
  revert s. induction n as [|n IH]; intros s H.
  - destruct s; constructor.
  - destruct s as [|c s]; [constructor|]. simpl in *.
    inversion H; subst. constructor; [assumption|apply IH; assumption].
Qed.


(** A number whose text [s] is a C string of at most 29 characters is
    appended whole, behind the separator and the key. *)
Lemma number_emitted (o : scalar_op) (name : option (option string))
    (s : string) (w : world) (txt : list ascii) :
  scalar_text o = key_text name ++ c_chars s ->
  no_nul (list_ascii_of_string s) ->
  (String.length s <= 29)%nat ->
  holds (gen w) txt ->
  serving w ->
  Z.of_nat (List.length txt) + Z.of_nat (List.length (key_text name)) + 31
    + MEM_CHUNK_SIZE <= INT_MAX ->
  exists w' : world,
    run_scalar o w = Ok 0 w' /\
    holds (gen w')
      (txt ++ separator (comma_req (gen w)) ++ key_text name
           ++ list_ascii_of_string s).
Proof.
  intros Ho Hn Hl Hh Hsv Hmax.
  destruct (emits_scalar o (comma_req (gen w)) w txt Hh Hsv eq_refl)
    as (r & w' & Hrun & Hr & Hh' & _).
  { rewrite Ho, !length_app. pose proof (c_chars_length s).
    destruct (comma_req (gen w)); simpl List.length; lia. }
  unfold succeeded in Hr. subst r. exists w'. split; [exact Hrun|].
  rewrite Ho, c_chars_plain in Hh' by exact Hn. exact Hh'.
Qed.

(** X12 (json_gen_set_int, json_gen_obj_set_int, json_gen_arr_set_int):
    with every allocation served, setting an [int] appends, behind the
    separator and the key, a text of at most 11 characters that is never cut
    by the 24 characters of the conversion buffer, and that reads back as
    the value set. *)
Theorem int_reads_back (name : option (option string)) (val : Z)
    (w : world) (txt : list ascii) :
  INT_MIN <= val <= INT_MAX ->
  holds (gen w) txt ->
  serving w ->
  Z.of_nat (List.length txt) + Z.of_nat (List.length (key_text name)) + 31
    + MEM_CHUNK_SIZE <= INT_MAX ->
  exists (w' : world) (digits : string),
    run_scalar (int_call name val) w = Ok 0 w' /\
    holds (gen w')
      (txt ++ separator (comma_req (gen w)) ++ key_text name
           ++ list_ascii_of_string digits) /\
    (String.length digits <= 11)%nat /\
    option_map Z.of_int (NilZero.int_of_string digits) = Some val.
Proof.
  intros Hv Hh Hsv Hmax.
  assert (Hlen : (String.length (decimal val) <= 11)%nat).
  { apply (decimal_length_le val 10); [lia|].
    unfold INT_MIN, INT_MAX in Hv.
    change (10 ^ Z.of_nat 10) with 10000000000. lia. }
  destruct (number_emitted (int_call name val) name (decimal val) w txt)
    as (w' & Hrun & Hh'); auto.
  - destruct name; cbn [int_call scalar_text key_text app];
      rewrite snprintf_d_exact by exact Hv; reflexivity.
  - apply decimal_no_nul.
  - lia.
  - exists w', (decimal val). split; [exact Hrun|]. split; [exact Hh'|].
    split; [exact Hlen|apply decimal_parses].
Qed.

Lemma int_reads_back_witness :
  exists (w' : world) (digits : string),
    run_scalar (int_call (Some (Some "n"%string)) INT_MIN) in_array = Ok 0 w' /\
    holds (gen w')
      (c_chars "[" ++ separator (comma_req (gen in_array))
         ++ key_text (Some (Some "n"%string))
         ++ list_ascii_of_string digits) /\
    (String.length digits <= 11)%nat /\
    option_map Z.of_int (NilZero.int_of_string digits) = Some INT_MIN.
Proof.
  apply (int_reads_back (Some (Some "n"%string)) INT_MIN in_array (c_chars "[")).
  - unfold INT_MIN, INT_MAX. lia.
  - exists (Some NUL :: repeat None 248). vm_compute.
    repeat split; try discriminate. repeat constructor; discriminate.
  - unfold serving. simpl. constructor.
  - vm_compute. discriminate.
Defined.

(** X13 (json_gen_set_int64, json_gen_obj_set_int64,
    json_gen_arr_set_int64): with every allocation served and [long] of 64
    bits, setting a 64-bit integer appends, behind the separator and the
    key, a text of at most 20 characters that is never cut by the 24
    characters of the conversion buffer, and that reads back as the value
    set. *)
Theorem int64_reads_back (name : option (option string)) (val : Z)
    (w : world) (txt : list ascii) :
  - 2 ^ 63 <= val < 2 ^ 63 ->
  holds (gen w) txt ->
  serving w ->
  Z.of_nat (List.length txt) + Z.of_nat (List.length (key_text name)) + 31
    + MEM_CHUNK_SIZE <= INT_MAX ->
  exists (w' : world) (digits : string),
    run_scalar (int64_call name val) w = Ok 0 w' /\
    holds (gen w')
      (txt ++ separator (comma_req (gen w)) ++ key_text name
           ++ list_ascii_of_string digits) /\
    (String.length digits <= 20)%nat /\
    option_map Z.of_int (NilZero.int_of_string digits) = Some val.
Proof.
  intros Hv Hh Hsv Hmax.
  assert (Hlen : (String.length (decimal val) <= 20)%nat).
  { apply (decimal_length_le val 19); [lia|].
    change (2 ^ 63) with 9223372036854775808 in Hv.
    change (10 ^ Z.of_nat 19) with 10000000000000000000. lia. }
  destruct (number_emitted (int64_call name val) name (decimal val) w txt)
    as (w' & Hrun & Hh'); auto.
  - destruct name; cbn [int64_call scalar_text key_text app];
      rewrite snprintf_ld_exact by exact Hv; reflexivity.
  - apply decimal_no_nul.
  - lia.
  - exists w', (decimal val). split; [exact Hrun|]. split; [exact Hh'|].
    split; [exact Hlen|apply decimal_parses].
Qed.

Lemma int64_reads_back_witness :
  exists (w' : world) (digits : string),
    run_scalar (int64_call None (- 2 ^ 63)) in_array = Ok 0 w' /\
    holds (gen w')
      (c_chars "[" ++ separator (comma_req (gen in_array)) ++ key_text None
         ++ list_ascii_of_string digits) /\
    (String.length digits <= 20)%nat /\
    option_map Z.of_int (NilZero.int_of_string digits) = Some (- 2 ^ 63).
Proof.
  apply (int64_reads_back None (- 2 ^ 63) in_array (c_chars "[")).
  - change (2 ^ 63) with 9223372036854775808. lia.
  - exists (Some NUL :: repeat None 248). vm_compute.
    repeat split; try discriminate. repeat constructor; discriminate.
  - unfold serving. simpl. constructor.
  - vm_compute. discriminate.
Defined.




(** X15 (json_gen_set_float, json_gen_obj_set_float,
    json_gen_arr_set_float): a finite value of magnitude [10 ^ 28] or more
    is cut by the 30 characters of the conversion buffer: what is appended
    is the first 29 characters of its sign and of the digits of its integer
    value, without the last digits, the point and the fraction. *)
Theorem float_cut_short (name : option (option string))
    (neg : bool) (m : positive) (e : Z) (w : world) (txt : list ascii) :
  0 <= e ->
  magnitude_below (10 ^ 28) m e = false ->
  holds (gen w) txt ->
  serving w ->
  Z.of_nat (List.length txt) + Z.of_nat (List.length (key_text name)) + 31
    + MEM_CHUNK_SIZE <= INT_MAX ->
  exists (w' : world) (text : string),
    run_scalar (float_call name (S754_finite neg m e)) w = Ok 0 w' /\
    holds (gen w')
      (txt ++ separator (comma_req (gen w)) ++ key_text name
           ++ list_ascii_of_string text) /\
    text = truncate 29 (sign_text neg ++ decimal (Z.pos m * 2 ^ e)) /\
    String.length text = 29%nat /\
    (29 <= String.length (decimal (Z.pos m * 2 ^ e)))%nat.
Proof.
  intros He Hm Hh Hsv Hmax.
  unfold magnitude_below in Hm.
  replace (0 <=? e) with true in Hm by (symmetry; apply Z.leb_le; exact He).
  apply Z.ltb_ge in Hm.
  set (v := Z.pos m * 2 ^ e) in *.
  assert (Hdl : (28 < String.length (decimal v))%nat).
  { apply decimal_length_gt. exact Hm. }
  set (text := truncate 29 (sign_text neg ++ decimal v)).
  assert (Hlong : (29 <= String.length (sign_text neg ++ decimal v))%nat).
  { rewrite string_app_length. lia. }
  assert (Htl : String.length text = 29%nat).
  { unfold text. clearbody v. clear - Hlong.
    generalize dependent (sign_text neg ++ decimal v)%string.
    generalize 29%nat as k. induction k as [|k IH]; intros s Hs.
    - destruct s; reflexivity.
    - destruct s as [|c s]; [simpl in Hs; lia|]. simpl. f_equal. apply IH.
      simpl in Hs. lia. }
  assert (E : snprintf_f (S754_finite neg m e) = text).
  { unfold snprintf_f, snprintf_size, format_f. cbv zeta.
    replace (0 <=? e) with true by (symmetry; apply Z.leb_le; exact He).
    rewrite Z.div_mul by (unfold JSON_FLOAT_PRECISION; lia).
    fold v. rewrite <- string_app_assoc.
    change (Z.to_nat (MAX_FLOAT_IN_STR - 1)) with 29%nat.
    apply truncate_app. exact Hlong. }
  destruct (number_emitted (float_call name (S754_finite neg m e)) name text w txt)
    as (w' & Hrun & Hh'); auto.
  - destruct name; cbn [float_call scalar_text key_text app]; rewrite E;
      reflexivity.
  - unfold text. apply truncate_no_nul, no_nul_chars_app;
      [apply sign_text_no_nul|apply decimal_no_nul].
  - lia.
  - exists w', text. repeat split; auto.
Qed.

Lemma float_cut_short_witness :
  exists (w' : world) (text : string),
    run_scalar (float_call None flt_max) in_array = Ok 0 w' /\
    holds (gen w')
      (c_chars "[" ++ separator (comma_req (gen in_array)) ++ key_text None
         ++ list_ascii_of_string text) /\
    text = truncate 29 (sign_text false ++ decimal (16777215 * 2 ^ 104)) /\
    String.length text = 29%nat /\
    (29 <= String.length (decimal (16777215 * 2 ^ 104)))%nat.
Proof.
  apply (float_cut_short None false 16777215 104 in_array (c_chars "[")).
  - lia.
  - reflexivity.
  - exists (Some NUL :: repeat None 248). vm_compute.
    repeat split; try discriminate. repeat constructor; discriminate.
  - unfold serving. simpl. constructor.
  - vm_compute. discriminate.
Defined.

(* ------------------------------------------------------------------ *)
(** ** Further properties: output that fits the block *)

Lemma fits_bind {A B : Type} (m : M A) (k : A -> M B)
    (c0 c1 c2 : bool) (f1 f2 : list ascii) (R1 : A -> Prop) (R2 : B -> Prop) :
  fits m c0 f1 c1 R1 ->
  (forall a, fits (k a) c1 f2 c2 R2) ->
  fits (bind m k) c0 (f1 ++ f2) c2 R2.
Proof.
  intros Hm Hk w txt Hh Hc Hroom.
  rewrite length_app in Hroom.
  destruct (Hm w txt Hh Hc)
    as (a & w1 & Hrun & _ & Hh1 & Hc1 & Hs1 & Ha1 & Hf1 & Hp1 & He1).
  { lia. }
  destruct (Hk a w1 (txt ++ f1) Hh1 Hc1)
    as (b & w2 & Hrun2 & HR & Hh2 & Hc2 & Hs2 & Ha2 & Hf2 & Hp2 & He2).
  { rewrite length_app. lia. }
  exists b, w2. unfold bind. rewrite Hrun.
  rewrite <- app_assoc in Hh2.
  repeat split; auto; congruence.
Qed.

Lemma fits_eq {A : Type} (m : M A) (c c' : bool) (f f' : list ascii)
    (R : A -> Prop) :
  fits m c f c' R -> f = f' -> fits m c f' c' R.
Proof. intros H E. subst. exact H. Qed.

Lemma fits_weaken {A : Type} (m : M A) (c c' : bool) (f : list ascii)
    (R : A -> Prop) :
  fits m c f c' R -> fits m c f c' any.
Proof.
  intros H w txt Hh Hc Hroom.
  destruct (H w txt Hh Hc Hroom) as (a & w' & Hrun & _ & Hrest).
  exists a, w'. split; [assumption|]. split; [exact I|assumption].
Qed.

Lemma fits_ret {A : Type} (a : A) (c : bool) : fits (ret a) c [] c (eq a).
Proof.
  intros w txt Hh Hc _. exists a, w. unfold ret.
  rewrite app_nil_r. repeat split; auto.
Qed.

Lemma fits_set_comma (b c : bool) : fits (modify (set_comma_req b)) c [] b any.
Proof.
  intros w txt Hh Hc _. eexists tt, _. unfold modify.
  split; [reflexivity|]. simpl. rewrite app_nil_r.
  repeat split; auto.
Qed.

Lemma fits_add_to_str (a : option string) (c : bool) :
  fits (json_gen_add_to_str a) c (arg_chars a) c succeeded.
Proof.
  intros w txt Hh Hc Hroom. destruct a as [s|]; simpl in *.
  - destruct (add_to_str_room w txt s Hh)
      as (w' & Hrun & Hh' & Hs & (Hc' & Hf & Hp & He) & Ha).
    { destruct Hh as (rest & _ & Htl & _). unfold strlen. lia. }
    exists 0, w'. unfold succeeded. repeat split; auto; congruence.
  - exists 0, w. unfold ret, succeeded. rewrite app_nil_r. repeat split; auto.
Qed.

Lemma fits_handle_comma (c : bool) :
  fits json_gen_handle_comma c (separator c) c any.
Proof.
  intros w txt Hh Hc Hroom.
  unfold json_gen_handle_comma, bind at 1, load. rewrite Hc.
  destruct c; simpl separator in *.
  - destruct (fits_bind (json_gen_add_to_str (Some ","%string)) (fun _ => ret tt)
                true true true [COMMA] [] succeeded (eq tt)
                (fits_add_to_str (Some ","%string) true)
                (fun _ => fits_ret tt true) w txt Hh Hc)
      as (a & w' & Hrun & _ & H).
    { simpl in *. lia. }
    exists a, w'. split; [exact Hrun|]. split; [exact I|exact H].
  - exists tt, w. unfold ret. rewrite app_nil_r. unfold any. repeat split; auto.
Qed.

Ltac fits_chain :=
  repeat first
    [ apply fits_add_to_str
    | apply fits_handle_comma
    | apply fits_set_comma
    | apply fits_ret
    | eapply fits_bind; [|intro] ].

Lemma fits_handle_name (name : option string) (c : bool) :
  fits (json_gen_handle_name name) c (name_text name) c succeeded.
Proof.
  unfold json_gen_handle_name.
  eapply fits_eq; [fits_chain | reflexivity].
Qed.

Ltac fits_calls_chain :=
  repeat first
    [ apply fits_add_to_str
    | apply fits_handle_comma
    | apply fits_handle_name
    | apply fits_set_comma
    | apply fits_ret
    | eapply fits_bind; [|intro] ].

Lemma fits_scalar (o : scalar_op) (c : bool) :
  fits (run_scalar o) c (separator c ++ scalar_text o) true succeeded.
Proof.
  destruct o as [name [|]|[|]|name v|v|name v|v|name v|v|name v|v|name| |name v|v];
    cbn [run_scalar scalar_text];
    unfold json_gen_obj_set_bool, json_gen_arr_set_bool, json_gen_set_bool,
      json_gen_obj_set_int, json_gen_arr_set_int, json_gen_set_int,
      json_gen_obj_set_int64, json_gen_arr_set_int64, json_gen_set_int64,
      json_gen_obj_set_float, json_gen_arr_set_float, json_gen_set_float,
      json_gen_obj_set_string, json_gen_arr_set_string, json_gen_set_string,
      json_gen_obj_set_null, json_gen_arr_set_null, json_gen_set_null,
      json_gen_obj_start_long_string, json_gen_arr_start_long_string,
      json_gen_set_long_string, quoted, bool_text;
    (eapply fits_eq;
     [ fits_calls_chain
     | cbn [arg_chars app]; rewrite ?app_nil_r, <- ?app_assoc; reflexivity ]).
Qed.

Lemma fits_open (o : open_op) (c : bool) :
  fits (run_open o) c (separator c ++ open_text o) false succeeded.
Proof.
  destruct o as [| |name|name]; cbn [run_open open_text];
    unfold json_gen_start_object, json_gen_start_array,
      json_gen_push_object, json_gen_push_array;
    (eapply fits_eq;
     [ fits_calls_chain
     | cbn [arg_chars app]; rewrite ?app_nil_r, <- ?app_assoc; reflexivity ]).
Qed.

Lemma fits_close (o : close_op) (c : bool) :
  fits (run_close o) c (close_text o) true succeeded.
Proof.
  destruct o; cbn [run_close close_text];
    unfold json_gen_end_object, json_gen_end_array,
      json_gen_pop_object, json_gen_pop_array;
    (eapply fits_eq; [ fits_calls_chain | reflexivity ]).
Qed.

Lemma fits_raw (o : raw_op) (c : bool) :
  fits (run_raw o) c (separator c ++ raw_text o) true succeeded.
Proof.
  destruct o as [name s|name s]; cbn [run_raw raw_text];
    unfold json_gen_push_object_str, json_gen_push_array_str;
    (eapply fits_eq;
     [ fits_calls_chain
     | cbn [arg_chars app]; rewrite ?app_nil_r, <- ?app_assoc; reflexivity ]).
Qed.

Lemma fits_emission (e : emission) (c : bool) :
  fits (run_emission e) c (emission_output c e)
    (flag_after (emission_flag e) c) succeeded.
Proof.
  destruct e as [o|o|o|o|v|]; unfold emission_output;
    cbn [run_emission runs_separator emission_text emission_flag flag_after app].
  - apply fits_scalar.
  - apply fits_open.
  - apply fits_close.
  - apply fits_raw.
  - apply fits_add_to_str.
  - apply (fits_add_to_str (Some lit_quote)).
Qed.

Lemma fits_transcript (es : list emission) :
  forall c, fits (run_emissions es) c (transcript c es) (final_flag c es) any.
Proof.
  induction es as [|e es IH]; intros c; simpl.
  - apply fits_weaken with (R := eq tt). apply fits_ret.
  - eapply fits_bind; [apply fits_emission | intros _; apply IH].
Qed.

Lemma transcript_app (es1 es2 : list emission) (c : bool) :
  transcript c (es1 ++ es2)
  = transcript c es1 ++ transcript (final_flag c es1) es2.
Proof.
  revert c. induction es1 as [|e es1 IH]; intros c; simpl; [reflexivity|].
  rewrite IH, app_assoc. reflexivity.
Qed.

(** X16 (json_gen_add_to_str under every emission): a sequence of calls
    whose whole output, with a terminator, fits behind the committed text in
    the block the generator has makes no request to the allocator, so that
    nothing the allocator could answer matters: every call of the sequence
    returns 0, the output is committed whole, the block keeps its size and
    no external call is made. *)
Theorem output_within_block_needs_no_heap (es : list emission) (w : world)
    (txt : list ascii) :
  holds (gen w) txt ->
  Z.of_nat (List.length txt)
    + Z.of_nat (List.length (transcript (comma_req (gen w)) es)) + 1
    <= buf_size (gen w) ->
  (exists w' : world,
     run_emissions es w = Ok tt w' /\
     holds (gen w') (txt ++ transcript (comma_req (gen w)) es) /\
     allocs w' = allocs w /\
     buf_size (gen w') = buf_size (gen w) /\
     events w' = events w) /\
  (forall (before : list emission) (e : emission) (behind : list emission),
     es = before ++ e :: behind ->
     exists w1 w2 : world,
       run_emissions before w = Ok tt w1 /\
       run_emission e w1 = Ok 0 w2 /\
       allocs w2 = allocs w).
Proof.
  intros Hh Hroom. split.
  - destruct (fits_transcript es (comma_req (gen w)) w txt Hh eq_refl Hroom)
      as ([] & w' & Hrun & _ & Hh' & _ & Hs & Ha & _ & _ & He).
    exists w'. repeat split; assumption.
  - intros before e behind ->.
    rewrite transcript_app in Hroom. simpl transcript in Hroom.
    rewrite !length_app in Hroom.
    destruct (fits_transcript before (comma_req (gen w)) w txt Hh eq_refl)
      as ([] & w1 & Hrun1 & _ & Hh1 & Hc1 & Hs1 & Ha1 & _).
    { lia. }
    destruct (fits_emission e (comma_req (gen w1)) w1 _ Hh1 eq_refl)
      as (r & w2 & Hrun2 & Hr & _ & _ & _ & Ha2 & _).
    { rewrite Hc1, Hs1, length_app. lia. }
    unfold succeeded in Hr. subst r.
    exists w1, w2. repeat split; [exact Hrun1|exact Hrun2|congruence].
Qed.

Lemma output_within_block_needs_no_heap_witness :
  (exists w' : world,
     run_emissions test_c_calls fresh_tight = Ok tt w' /\
     holds (gen w') ([] ++ transcript (comma_req (gen fresh_tight)) test_c_calls) /\
     allocs w' = allocs fresh_tight /\
     buf_size (gen w') = buf_size (gen fresh_tight) /\
     events w' = events fresh_tight) /\
  (forall (before : list emission) (e : emission) (behind : list emission),
     test_c_calls = before ++ e :: behind ->
     exists w1 w2 : world,
       run_emissions before fresh_tight = Ok tt w1 /\
       run_emission e w1 = Ok 0 w2 /\
       allocs w2 = allocs fresh_tight).
Proof.
  apply (output_within_block_needs_no_heap test_c_calls fresh_tight []).
  - exists (repeat None 250). vm_compute.
    repeat split; try discriminate. constructor.
  - vm_compute. discriminate.
Defined.

(* ------------------------------------------------------------------ *)
(** ** Further properties: the test of the repository, as written *)

(** [strcmp] against a block that holds a terminated string: the result is
    defined, and it is 0 exactly when the two strings have the same
    characters. *)
Lemma strcmp_terminated (s : string) :
  forall (mem : block) (txt : list ascii),
    c_string_at mem = Some txt ->
    exists d : Z, strcmp s mem = Some d /\ (d = 0 <-> c_chars s = txt).
Proof.
  induction s as [|a s IH]; intros mem txt Hm.
  - destruct mem as [|[c|] mem]; try discriminate. simpl in *.
    eexists. split; [reflexivity|].
    unfold is_nul in Hm. destruct (Ascii.eqb c NUL) eqn:E.
    + apply Ascii.eqb_eq in E. subst c. inversion Hm. simpl. tauto.
    + destruct (c_string_at mem); [|discriminate]. inversion Hm.
      split; [|discriminate]. intros H.
      assert (Hc : nat_of_ascii c = 0%nat) by lia.
      apply (f_equal ascii_of_nat) in Hc. rewrite ascii_nat_embedding in Hc.
      subst c. discriminate.
  - destruct mem as [|[c|] mem]; try discriminate. simpl in *.
    destruct (Ascii.eqb a c) eqn:Eac.
    + apply Ascii.eqb_eq in Eac. subst c.
      destruct (is_nul a) eqn:En.
      * inversion Hm. eexists. split; [reflexivity|]. tauto.
      * destruct (c_string_at mem) as [cs|] eqn:Ecs; [|discriminate].
        inversion Hm. destruct (IH mem cs Ecs) as (d & Hd & Hiff).
        exists d. split; [exact Hd|]. rewrite Hiff.
        split; [intros ->; reflexivity|intros H; inversion H; reflexivity].
    + eexists. split; [reflexivity|].
      assert (Hne : a <> c) by (intros ->; rewrite Ascii.eqb_refl in Eac; discriminate).
      split.
      * intros H. exfalso. apply Hne.
        assert (Hn : nat_of_ascii a = nat_of_ascii c) by lia.
        apply (f_equal ascii_of_nat) in Hn.
        rewrite !ascii_nat_embedding in Hn. exact Hn.
      * intros H. exfalso. destruct (is_nul a) eqn:En.
        -- subst txt. unfold is_nul in *. destruct (Ascii.eqb c NUL) eqn:Ec.
           ++ apply Ascii.eqb_eq in En, Ec. congruence.
           ++ destruct (c_string_at mem); discriminate.
        -- subst txt. destruct (is_nul c); [discriminate|].
           destruct (c_string_at mem); [|discriminate].
           inversion Hm. congruence.
Qed.

(** The calls a caller makes one after the other, before what it does
    next. *)
Lemma run_emissions_then {B : Type} (es : list emission) (k : M B) (w : world) :
  (run_emissions es ;; k) w
  = fold_right (fun e m => run_emission e ;; m) k es w.
Proof.
  revert w. induction es as [|e es IH]; intros w; simpl.
  - reflexivity.
  - rewrite bind_assoc. apply bind_ext. intros _ w1. apply IH.
Qed.

(** X17 (json_gen_perform_test of test.c): the test of the repository
    depends on the first allocation alone.  When [malloc] serves it, the
    test returns with the pointer to a block that reads as [expected_str],
    whatever the structure passed by value held and whatever the allocator
    would answer later: the text fits the first block, one request is made,
    nothing is freed, the caller's structure is untouched, and the result is
    0 when [expected] has the characters of [expected_str] and -1 when it
    has not.  When [malloc] refuses it, the test stores through the null
    pointer. *)
Theorem perform_test_needs_first_block (jstr : json_gen_str_t)
    (expected : string) (w : world) :
  if next_served w
  then exists (r : Z) (mem : block) (w' : world),
         json_gen_perform_test jstr expected w = Ok (r, Some mem) w' /\
         c_string_at mem = Some (list_ascii_of_string expected_str) /\
         (r = 0 \/ r = -1) /\
         (r = 0 <-> c_chars expected = list_ascii_of_string expected_str) /\
         gen w' = gen w /\
         allocs w' = tl (allocs w) /\
         events w' = events w
  else json_gen_perform_test jstr expected w = Fault.
Proof.
  set (w0 := mk_world jstr (allocs w) (events w)).
  assert (Hcalls : forall B (k : M B) w1,
            (run_emissions test_c_calls ;; k) w1
            = fold_right (fun e m => run_emission e ;; m) k test_c_calls w1)
    by (intros; apply run_emissions_then).
  assert (Hchain : forall w1 : world,
    json_gen_perform_test jstr expected w
    = match (json_gen_str_start None 0 ;;
             (run_emissions test_c_calls ;;
              (json_gen_str_end ;; json_gen_get_json_string))) w0 with
      | Fault => Fault
      | Ok result w' =>
          match result with
          | None => Fault
          | Some mem =>
              match strcmp expected mem with
              | None => Fault
              | Some d =>
                  Ok (if d =? 0 then 0 else -1, result)
                     (mk_world (gen w) (allocs w') (events w'))
              end
          end
      end).
  { intros _. unfold json_gen_perform_test. fold w0.
    replace ((json_gen_str_start None 0 ;;
              (run_emissions test_c_calls ;;
               (json_gen_str_end ;; json_gen_get_json_string))) w0)
      with ((json_gen_str_start None 0 ;;
             fold_right (fun e m => run_emission e ;; m)
               (json_gen_str_end ;; json_gen_get_json_string) test_c_calls) w0).
    - reflexivity.
    - apply bind_ext. intros _ w1. symmetry. apply Hcalls. }
  rewrite (Hchain w). clear Hchain Hcalls.
  destruct (str_start_runs None 0 w0)
    as (w1 & Hrun1 & Hc1 & Htl1 & Hfp1 & Hbs1 & Hf1 & Hp1 & He1 & Ha1 & Hb1).
  change (next_served w0) with (next_served w) in Hb1.
  destruct (next_served w) eqn:Hsv.
  - destruct (str_start_holds None 0 w0 Hsv) as (w1' & Hrun1' & Hh1 & _).
    rewrite Hrun1 in Hrun1'. inversion Hrun1'. subst w1'. clear Hrun1'.
    destruct (fits_transcript test_c_calls false w1 [] Hh1 Hc1)
      as ([] & w2 & Hrun2 & _ & Hh2 & _ & _ & Ha2 & Hf2 & _ & He2).
    { rewrite Hbs1. vm_compute. discriminate. }
    change ([] ++ transcript false test_c_calls)
      with (list_ascii_of_string expected_str) in Hh2.
    destruct (str_end_holds w2 _ Hh2) as (mem & Hrun3 & _ & Hs & _).
    destruct (strcmp_terminated expected mem _ Hs) as (d & Hd & Hiff).
    exists (if d =? 0 then 0 else -1), mem,
      (mk_world (gen w) (allocs w2)
         (events w2 ++ flush_events (flush_cb (gen w2)) mem (priv (gen w2)))).
    unfold bind at 1. rewrite Hrun1. unfold bind at 1. rewrite Hrun2.
    unfold bind at 1. rewrite Hrun3.
    unfold json_gen_get_json_string, bind, load, ret. cbn [gen buf set_buf].
    rewrite Hd. split; [reflexivity|].
    split; [exact Hs|].
    split; [destruct (d =? 0); auto|].
    split.
    + rewrite <- Hiff. destruct (d =? 0) eqn:E.
      * apply Z.eqb_eq in E. tauto.
      * apply Z.eqb_neq in E. split; [discriminate|contradiction].
    + cbn [gen allocs events]. split; [reflexivity|].
      split; [rewrite Ha2, Ha1; reflexivity|].
      rewrite Hf2, Hf1. simpl. rewrite app_nil_r, He2, He1. reflexivity.
  - unfold bind at 1. rewrite Hrun1.
    assert (Hstop : run_emission (Open StartObject) w1 = Fault).
    { apply stops_emission; [discriminate|]. repeat split; assumption. }
    unfold test_c_calls. cbn [run_emissions].
    rewrite bind_assoc. unfold bind at 1. rewrite Hstop. reflexivity.
Qed.
